(** * Reimint consensus state machine: a shallow embedding

    Embedding of [packages/core/src/consensus/reimint/state.ts] (the
    height/round/step state machine) and of the block-hash helpers of the
    Reimint engine ([Reimint] class).  Integers ([BN], [number]) are [Z];
    32-byte hashes are [Z] with the all-zero hash [EMPTY_HASH = 0]. *)

From Stdlib Require Import ZArith List String Bool Lia.
Import ListNotations.
Open Scope Z_scope.

(** ** Enumerations *)

Module RoundStepType.
Inductive t := NewHeight | NewRound | Propose | Prevote | PrevoteWait
             | Precommit | PrecommitWait | Commit.

(** Numeric values of the TypeScript enum (starting at 1). *)
Definition val (x : t) : Z :=
  match x with
  | NewHeight => 1 | NewRound => 2 | Propose => 3 | Prevote => 4
  | PrevoteWait => 5 | Precommit => 6 | PrecommitWait => 7 | Commit => 8
  end.

Definition eqb (a b : t) : bool := Z.eqb (val a) (val b).
Definition ltb (a b : t) : bool := Z.ltb (val a) (val b).
Definition leb (a b : t) : bool := Z.leb (val a) (val b).
End RoundStepType.

Module VoteType.
Inductive t := Prevote | Precommit | Proposal.

Definition val (x : t) : Z :=
  match x with Prevote => 1 | Precommit => 2 | Proposal => 32 end.

Definition eqb (a b : t) : bool := Z.eqb (val a) (val b).
End VoteType.

(** ** Hashes *)

(** [EMPTY_HASH] and [isEmptyHash] of [reimint/utils]: the nil hash is the
    all-zero 32-byte buffer. *)
Definition EMPTY_HASH : Z := 0.
Definition isEmptyHash (h : Z) : bool := Z.eqb h EMPTY_HASH.

(** Modelled from the spec: [Block] and [Block_hash] of [reimint/extraData]
    (not under src/).  The block hash is a function of the header with its
    extraData cut down to the vanity and the evidence hashes; the state
    machine only compares such hashes, so a block is modelled by its number,
    its hash and an opaque body. *)
Record Block := mkBlock { blk_number : Z; blk_hash : Z; blk_body : list Z }.
Definition Block_hash (b : Block) : Z := blk_hash b.

(** Modelled from the spec: [BlockHeader] and [BlockHeader_hash]. *)
Record BlockHeader := mkBlockHeader { hdr_number : Z; hdr_hash : Z }.
Definition BlockHeader_hash (h : BlockHeader) : Z := hdr_hash h.

(** ** Validator set *)

(** Modelled from the spec (section 4.1, [staking] is not under src/):
    validators with address, voting power and proposer priority; the
    proposer is the address selected by the last increment. *)
Record Validator := mkValidator { v_addr : Z; v_power : Z; v_priority : Z }.
Record ValidatorSet := mkValidatorSet { vs_validators : list Validator; vs_proposer : Z }.

Definition totalVotingPower (vs : ValidatorSet) : Z :=
  fold_right (fun v acc => v_power v + acc) 0 (vs_validators vs).

Definition proposer (vs : ValidatorSet) : Z := vs_proposer vs.

Definition vs_length (vs : ValidatorSet) : Z := Z.of_nat (List.length (vs_validators vs)).

Fixpoint index_of (a : Z) (l : list Validator) (i : Z) : option Z :=
  match l with
  | [] => None
  | v :: l' => if Z.eqb (v_addr v) a then Some i else index_of a l' (i + 1)
  end.

Definition getIndexByAddress (vs : ValidatorSet) (a : Z) : option Z :=
  index_of a (vs_validators vs) 0.

Definition getValidatorByIndex (vs : ValidatorSet) (i : Z) : option Validator :=
  if Z.ltb i 0 then None else nth_error (vs_validators vs) (Z.to_nat i).

Definition with_priority (v : Validator) (p : Z) : Validator :=
  mkValidator (v_addr v) (v_power v) p.

(** One round of [incrementProposerPriority], in the order of the spec:
    add the voting power, re-center on the mean, scale when the spread
    exceeds [2 P], select the highest priority (smallest address on ties),
    subtract [P] from the selected one. *)
Definition max_priority (l : list Validator) : Z :=
  fold_right (fun v acc => Z.max (v_priority v) acc) (match l with [] => 0 | v :: _ => v_priority v end) l.
Definition min_priority (l : list Validator) : Z :=
  fold_right (fun v acc => Z.min (v_priority v) acc) (match l with [] => 0 | v :: _ => v_priority v end) l.

Fixpoint select_proposer (l : list Validator) : option Validator :=
  match l with
  | [] => None
  | v :: l' =>
      match select_proposer l' with
      | None => Some v
      | Some w =>
          if Z.ltb (v_priority w) (v_priority v) then Some v
          else if Z.eqb (v_priority w) (v_priority v) then
                 (if Z.leb (v_addr v) (v_addr w) then Some v else Some w)
          else Some w
      end
  end.

Definition increment_once (vs : ValidatorSet) : ValidatorSet :=
  let P := totalVotingPower vs in
  let l1 := map (fun v => with_priority v (v_priority v + v_power v)) (vs_validators vs) in
  let n := Z.of_nat (List.length l1) in
  let mean := if Z.eqb n 0 then 0 else (fold_right (fun v acc => v_priority v + acc) 0 l1) / n in
  let l2 := map (fun v => with_priority v (v_priority v - mean)) l1 in
  let diff := max_priority l2 - min_priority l2 in
  let diffMax := 2 * P in
  let l3 := if Z.ltb 0 diffMax && Z.ltb diffMax diff then
              let ratio := (diff + diffMax - 1) / diffMax in
              map (fun v => with_priority v (Z.quot (v_priority v) ratio)) l2
            else l2 in
  match select_proposer l3 with
  | None => mkValidatorSet l3 (vs_proposer vs)
  | Some p =>
      mkValidatorSet
        (map (fun v => if Z.eqb (v_addr v) (v_addr p) then with_priority v (v_priority v - P) else v) l3)
        (v_addr p)
  end.

Definition incrementProposerPriority (vs : ValidatorSet) (times : Z) : ValidatorSet :=
  Nat.iter (Z.to_nat times) increment_once vs.

(** ** Votes and vote sets *)

(** A vote; [vote_signer] is the address recovered from its signature
    ([Vote.validator()]). *)
Record Vote := mkVote {
  vote_chainId : Z; vote_type : VoteType.t; vote_height : Z; vote_round : Z;
  vote_timestamp : Z; vote_hash : Z; vote_index : Z; vote_signer : Z }.

Definition Vote_validator (v : Vote) : Z := vote_signer v.

(** Errors raised by the code: [new Error(msg)] and [ConflictingVotesError]. *)
Inductive Error := Failure (msg : string) | ConflictingVotes (voteA voteB : Vote).

(** Modelled from the spec (section 4.2, [reimint/vote] is not under src/):
    one vote per validator index, the accumulated power [sum], and [maj23],
    set the first time one hash gathers more than two thirds of the power. *)
Record VoteSet := mkVoteSet {
  vset_chainId : Z; vset_height : Z; vset_round : Z; vset_type : VoteType.t;
  vset_valSet : ValidatorSet; vset_votes : list (Z * Vote);
  vset_sum : Z; vset_maj23 : option Z }.

Definition newVoteSet (chainId height round : Z) (ty : VoteType.t) (vs : ValidatorSet) : VoteSet :=
  mkVoteSet chainId height round ty vs [] 0 None.

Fixpoint lookup_vote (i : Z) (l : list (Z * Vote)) : option Vote :=
  match l with
  | [] => None
  | (j, v) :: l' => if Z.eqb i j then Some v else lookup_vote i l'
  end.

Definition power_of_index (vs : ValidatorSet) (i : Z) : Z :=
  match getValidatorByIndex vs i with Some v => v_power v | None => 0 end.

(** Voting power gathered by one block hash ([votesByBlock[hash].power]). *)
Definition powerForHash (vset : VoteSet) (h : Z) : Z :=
  fold_right (fun iv acc => if Z.eqb (vote_hash (snd iv)) h
                            then power_of_index (vset_valSet vset) (fst iv) + acc else acc)
             0 (vset_votes vset).

Definition twoThirds (power total : Z) : bool := Z.ltb (2 * total) (3 * power).

Definition hasTwoThirdsMajority (vset : VoteSet) : bool :=
  match vset_maj23 vset with Some _ => true | None => false end.

Definition hasTwoThirdsAny (vset : VoteSet) : bool :=
  twoThirds (vset_sum vset) (totalVotingPower (vset_valSet vset)).

(** [VoteSet.addVote]: [inl (set, added)] or [inr] the thrown error. *)
Definition vs_addVote (vset : VoteSet) (v : Vote) : (VoteSet * bool) + Error :=
  if negb (Z.eqb (vote_height v) (vset_height vset) && Z.eqb (vote_round v) (vset_round vset)
           && VoteType.eqb (vote_type v) (vset_type vset)) then inl (vset, false)
  else
    match getValidatorByIndex (vset_valSet vset) (vote_index v) with
    | None => inl (vset, false)
    | Some val =>
        if negb (Z.eqb (v_addr val) (vote_signer v)) then inl (vset, false)
        else
          match lookup_vote (vote_index v) (vset_votes vset) with
          | Some ex => if Z.eqb (vote_hash ex) (vote_hash v) then inl (vset, false)
                       else inr (ConflictingVotes ex v)
          | None =>
              let vset1 := mkVoteSet (vset_chainId vset) (vset_height vset) (vset_round vset)
                             (vset_type vset) (vset_valSet vset)
                             ((vote_index v, v) :: vset_votes vset)
                             (vset_sum vset + v_power val) (vset_maj23 vset) in
              let maj := match vset_maj23 vset with
                         | Some h => Some h
                         | None => if twoThirds (powerForHash vset1 (vote_hash v))
                                               (totalVotingPower (vset_valSet vset))
                                   then Some (vote_hash v) else None
                         end in
              inl (mkVoteSet (vset_chainId vset1) (vset_height vset1) (vset_round vset1)
                     (vset_type vset1) (vset_valSet vset1) (vset_votes vset1)
                     (vset_sum vset1) maj, true)
          end
    end.

(** Modelled from the spec (section 4.3): the vote sets of one height,
    indexed by round, and the catch-up rounds seeded by each peer. *)
Record HeightVoteSet := mkHeightVoteSet {
  hvs_chainId : Z; hvs_height : Z; hvs_valSet : ValidatorSet; hvs_round : Z;
  hvs_roundVoteSets : list (Z * (VoteSet * VoteSet));
  hvs_peerCatchupRounds : list (string * list Z) }.

Fixpoint lookup_round (r : Z) (l : list (Z * (VoteSet * VoteSet))) : option (VoteSet * VoteSet) :=
  match l with
  | [] => None
  | (r', p) :: l' => if Z.eqb r r' then Some p else lookup_round r l'
  end.

Fixpoint update_round (r : Z) (p : VoteSet * VoteSet) (l : list (Z * (VoteSet * VoteSet)))
  : list (Z * (VoteSet * VoteSet)) :=
  match l with
  | [] => []
  | (r', p') :: l' => if Z.eqb r r' then (r', p) :: l' else (r', p') :: update_round r p l'
  end.

Fixpoint lookup_peer (k : string) (l : list (string * list Z)) : option (list Z) :=
  match l with
  | [] => None
  | (k', v) :: l' => if String.eqb k k' then Some v else lookup_peer k l'
  end.

Definition with_round_sets (hvs : HeightVoteSet) (l : list (Z * (VoteSet * VoteSet))) : HeightVoteSet :=
  mkHeightVoteSet (hvs_chainId hvs) (hvs_height hvs) (hvs_valSet hvs) (hvs_round hvs) l
                  (hvs_peerCatchupRounds hvs).

Definition addRound (hvs : HeightVoteSet) (r : Z) : HeightVoteSet :=
  match lookup_round r (hvs_roundVoteSets hvs) with
  | Some _ => hvs
  | None =>
      with_round_sets hvs
        ((r, (newVoteSet (hvs_chainId hvs) (hvs_height hvs) r VoteType.Prevote (hvs_valSet hvs),
              newVoteSet (hvs_chainId hvs) (hvs_height hvs) r VoteType.Precommit (hvs_valSet hvs)))
         :: hvs_roundVoteSets hvs)
  end.

(** [new HeightVoteSet(chainId, height, validators)]: round 0 and its vote sets. *)
Definition newHeightVoteSet (chainId height : Z) (vs : ValidatorSet) : HeightVoteSet :=
  addRound (mkHeightVoteSet chainId height vs 0 [] []) 0.

(** [setRound(r)]: create the vote sets of every round up to [r]. *)
Definition setRound (hvs : HeightVoteSet) (r : Z) : HeightVoteSet :=
  let hvs1 := fold_left (fun h n => addRound h (Z.of_nat n)) (seq 0 (Z.to_nat (r + 1))) hvs in
  mkHeightVoteSet (hvs_chainId hvs1) (hvs_height hvs1) (hvs_valSet hvs1) r
                  (hvs_roundVoteSets hvs1) (hvs_peerCatchupRounds hvs1).

Definition prevotes (hvs : HeightVoteSet) (r : Z) : option VoteSet :=
  option_map fst (lookup_round r (hvs_roundVoteSets hvs)).

Definition precommits (hvs : HeightVoteSet) (r : Z) : option VoteSet :=
  option_map snd (lookup_round r (hvs_roundVoteSets hvs)).

(** [prevotes(r)?.maj23] and [precommits(r)?.maj23]. *)
Definition prevotes_maj23 (hvs : HeightVoteSet) (r : Z) : option Z :=
  match prevotes hvs r with Some vs => vset_maj23 vs | None => None end.

Definition precommits_maj23 (hvs : HeightVoteSet) (r : Z) : option Z :=
  match precommits hvs r with Some vs => vset_maj23 vs | None => None end.

(** [POLInfo()]: the greatest round [r <= round] whose prevotes have a
    non-nil [maj23]. *)
Fixpoint POLInfo_from (hvs : HeightVoteSet) (r : Z) (fuel : nat) : option (Z * Z) :=
  match fuel with
  | O => None
  | S fuel' =>
      match prevotes_maj23 hvs r with
      | Some h => if isEmptyHash h then POLInfo_from hvs (r - 1) fuel' else Some (r, h)
      | None => POLInfo_from hvs (r - 1) fuel'
      end
  end.

Definition POLInfo (hvs : HeightVoteSet) : option (Z * Z) :=
  POLInfo_from hvs (hvs_round hvs) (S (Z.to_nat (hvs_round hvs))).

Definition add_to_round (hvs : HeightVoteSet) (v : Vote) : (HeightVoteSet * bool) + Error :=
  match lookup_round (vote_round v) (hvs_roundVoteSets hvs) with
  | None => inl (hvs, false)
  | Some (pv, pc) =>
      match vote_type v with
      | VoteType.Prevote =>
          match vs_addVote pv v with
          | inl (pv', added) =>
              inl (with_round_sets hvs (update_round (vote_round v) (pv', pc) (hvs_roundVoteSets hvs)), added)
          | inr e => inr e
          end
      | VoteType.Precommit =>
          match vs_addVote pc v with
          | inl (pc', added) =>
              inl (with_round_sets hvs (update_round (vote_round v) (pv, pc') (hvs_roundVoteSets hvs)), added)
          | inr e => inr e
          end
      | VoteType.Proposal => inl (hvs, false)
      end
  end.

(** [HeightVoteSet.addVote(vote, peerId)]: a round without vote sets is
    accepted only as one of the (at most two) catch-up rounds of the peer. *)
Definition hvs_addVote (hvs : HeightVoteSet) (v : Vote) (peerId : string) : (HeightVoteSet * bool) + Error :=
  match vote_type v with
  | VoteType.Proposal => inl (hvs, false)
  | _ =>
      match lookup_round (vote_round v) (hvs_roundVoteSets hvs) with
      | Some _ => add_to_round hvs v
      | None =>
          let rndz := match lookup_peer peerId (hvs_peerCatchupRounds hvs) with
                      | Some l => l | None => [] end in
          if Nat.ltb (List.length rndz) 2 then
            let hvs1 := addRound hvs (vote_round v) in
            let hvs2 := mkHeightVoteSet (hvs_chainId hvs1) (hvs_height hvs1) (hvs_valSet hvs1)
                          (hvs_round hvs1) (hvs_roundVoteSets hvs1)
                          ((peerId, rndz ++ [vote_round v]) :: hvs_peerCatchupRounds hvs1) in
            add_to_round hvs2 v
          else inl (hvs, false)
      end
  end.

(** ** Proposals and messages *)

(** A proposal; [prop_signer] is the address recovered from its signature. *)
Record Proposal := mkProposal {
  prop_height : Z; prop_round : Z; prop_POLRound : Z; prop_hash : Z;
  prop_timestamp : Z; prop_signer : Z }.

Inductive Message :=
| ProposalMessage (p : Proposal)
| ProposalBlockMessage (b : Block)
| VoteMessage (v : Vote)
| OtherMessage (code : Z).

Record TimeoutInfo := mkTimeoutInfo {
  ti_duration : Z; ti_height : Z; ti_round : Z; ti_step : RoundStepType.t }.

Inductive StateMachineMessage :=
| MessageInfo (peerId : string) (msg : Message)
| TimeoutMsg (ti : TimeoutInfo).

(** Events emitted through the [EventEmitter]. *)
Inductive Event :=
| NewStepEvent (h r : Z) (st : RoundStepType.t) (elapsed lastCommitRound : Z)
| NewValidBlockEvent (h r : Z) (hash : option Z) (isCommit : bool)
| HasVoteEvent (h r : Z) (ty : VoteType.t) (index : Z)
| GetProposalBlockEvent (hash : Z).

(** ** The state machine's state

    The fields of [StateMachine]: the environment it reads ([chainId], the
    signer's address, the worker's pending blocks by parent hash, the clock),
    the effects it has on its collaborators (the messages pushed to its own
    queue, the timeouts scheduled on the ticker, the events emitted, the
    blocks handed to [node.processBlock], the evidence reported), and the
    round state. *)
Record State := mkState {
  chainId : Z;
  signer : option Z;
  pendingBlocks : list (Z * Block);
  now : Z;
  msgQueue : list StateMachineMessage;
  ticker : list TimeoutInfo;
  emitted : list Event;
  processed : list Block;
  reported : list (Vote * Vote);
  parentHash : Z;
  triggeredTimeoutPrecommit : bool;
  height : Z;
  round : Z;
  step : RoundStepType.t;
  startTime : Z;
  commitTime : option Z;
  validators : ValidatorSet;
  proposal : option Proposal;
  proposalBlockHash : option Z;
  proposalBlock : option Block;
  lockedRound : Z;
  lockedBlock : option Block;
  validRound : Z;
  validBlock : option Block;
  votes : HeightVoteSet;
  commitRound : Z }.

Definition set_chainId (x : Z) (s : State) : State :=
  mkState x (signer s) (pendingBlocks s) (now s) (msgQueue s) (ticker s) (emitted s) (processed s) (reported s) (parentHash s) (triggeredTimeoutPrecommit s) (height s) (round s) (step s) (startTime s) (commitTime s) (validators s) (proposal s) (proposalBlockHash s) (proposalBlock s) (lockedRound s) (lockedBlock s) (validRound s) (validBlock s) (votes s) (commitRound s).
Definition set_signer (x : option Z) (s : State) : State :=
  mkState (chainId s) x (pendingBlocks s) (now s) (msgQueue s) (ticker s) (emitted s) (processed s) (reported s) (parentHash s) (triggeredTimeoutPrecommit s) (height s) (round s) (step s) (startTime s) (commitTime s) (validators s) (proposal s) (proposalBlockHash s) (proposalBlock s) (lockedRound s) (lockedBlock s) (validRound s) (validBlock s) (votes s) (commitRound s).
Definition set_pendingBlocks (x : list (Z * Block)) (s : State) : State :=
  mkState (chainId s) (signer s) x (now s) (msgQueue s) (ticker s) (emitted s) (processed s) (reported s) (parentHash s) (triggeredTimeoutPrecommit s) (height s) (round s) (step s) (startTime s) (commitTime s) (validators s) (proposal s) (proposalBlockHash s) (proposalBlock s) (lockedRound s) (lockedBlock s) (validRound s) (validBlock s) (votes s) (commitRound s).
Definition set_now (x : Z) (s : State) : State :=
  mkState (chainId s) (signer s) (pendingBlocks s) x (msgQueue s) (ticker s) (emitted s) (processed s) (reported s) (parentHash s) (triggeredTimeoutPrecommit s) (height s) (round s) (step s) (startTime s) (commitTime s) (validators s) (proposal s) (proposalBlockHash s) (proposalBlock s) (lockedRound s) (lockedBlock s) (validRound s) (validBlock s) (votes s) (commitRound s).
Definition set_msgQueue (x : list StateMachineMessage) (s : State) : State :=
  mkState (chainId s) (signer s) (pendingBlocks s) (now s) x (ticker s) (emitted s) (processed s) (reported s) (parentHash s) (triggeredTimeoutPrecommit s) (height s) (round s) (step s) (startTime s) (commitTime s) (validators s) (proposal s) (proposalBlockHash s) (proposalBlock s) (lockedRound s) (lockedBlock s) (validRound s) (validBlock s) (votes s) (commitRound s).
Definition set_ticker (x : list TimeoutInfo) (s : State) : State :=
  mkState (chainId s) (signer s) (pendingBlocks s) (now s) (msgQueue s) x (emitted s) (processed s) (reported s) (parentHash s) (triggeredTimeoutPrecommit s) (height s) (round s) (step s) (startTime s) (commitTime s) (validators s) (proposal s) (proposalBlockHash s) (proposalBlock s) (lockedRound s) (lockedBlock s) (validRound s) (validBlock s) (votes s) (commitRound s).
Definition set_emitted (x : list Event) (s : State) : State :=
  mkState (chainId s) (signer s) (pendingBlocks s) (now s) (msgQueue s) (ticker s) x (processed s) (reported s) (parentHash s) (triggeredTimeoutPrecommit s) (height s) (round s) (step s) (startTime s) (commitTime s) (validators s) (proposal s) (proposalBlockHash s) (proposalBlock s) (lockedRound s) (lockedBlock s) (validRound s) (validBlock s) (votes s) (commitRound s).
Definition set_processed (x : list Block) (s : State) : State :=
  mkState (chainId s) (signer s) (pendingBlocks s) (now s) (msgQueue s) (ticker s) (emitted s) x (reported s) (parentHash s) (triggeredTimeoutPrecommit s) (height s) (round s) (step s) (startTime s) (commitTime s) (validators s) (proposal s) (proposalBlockHash s) (proposalBlock s) (lockedRound s) (lockedBlock s) (validRound s) (validBlock s) (votes s) (commitRound s).
Definition set_reported (x : list (Vote * Vote)) (s : State) : State :=
  mkState (chainId s) (signer s) (pendingBlocks s) (now s) (msgQueue s) (ticker s) (emitted s) (processed s) x (parentHash s) (triggeredTimeoutPrecommit s) (height s) (round s) (step s) (startTime s) (commitTime s) (validators s) (proposal s) (proposalBlockHash s) (proposalBlock s) (lockedRound s) (lockedBlock s) (validRound s) (validBlock s) (votes s) (commitRound s).
Definition set_parentHash (x : Z) (s : State) : State :=
  mkState (chainId s) (signer s) (pendingBlocks s) (now s) (msgQueue s) (ticker s) (emitted s) (processed s) (reported s) x (triggeredTimeoutPrecommit s) (height s) (round s) (step s) (startTime s) (commitTime s) (validators s) (proposal s) (proposalBlockHash s) (proposalBlock s) (lockedRound s) (lockedBlock s) (validRound s) (validBlock s) (votes s) (commitRound s).
Definition set_triggeredTimeoutPrecommit (x : bool) (s : State) : State :=
  mkState (chainId s) (signer s) (pendingBlocks s) (now s) (msgQueue s) (ticker s) (emitted s) (processed s) (reported s) (parentHash s) x (height s) (round s) (step s) (startTime s) (commitTime s) (validators s) (proposal s) (proposalBlockHash s) (proposalBlock s) (lockedRound s) (lockedBlock s) (validRound s) (validBlock s) (votes s) (commitRound s).
Definition set_height (x : Z) (s : State) : State :=
  mkState (chainId s) (signer s) (pendingBlocks s) (now s) (msgQueue s) (ticker s) (emitted s) (processed s) (reported s) (parentHash s) (triggeredTimeoutPrecommit s) x (round s) (step s) (startTime s) (commitTime s) (validators s) (proposal s) (proposalBlockHash s) (proposalBlock s) (lockedRound s) (lockedBlock s) (validRound s) (validBlock s) (votes s) (commitRound s).
Definition set_round (x : Z) (s : State) : State :=
  mkState (chainId s) (signer s) (pendingBlocks s) (now s) (msgQueue s) (ticker s) (emitted s) (processed s) (reported s) (parentHash s) (triggeredTimeoutPrecommit s) (height s) x (step s) (startTime s) (commitTime s) (validators s) (proposal s) (proposalBlockHash s) (proposalBlock s) (lockedRound s) (lockedBlock s) (validRound s) (validBlock s) (votes s) (commitRound s).
Definition set_step (x : RoundStepType.t) (s : State) : State :=
  mkState (chainId s) (signer s) (pendingBlocks s) (now s) (msgQueue s) (ticker s) (emitted s) (processed s) (reported s) (parentHash s) (triggeredTimeoutPrecommit s) (height s) (round s) x (startTime s) (commitTime s) (validators s) (proposal s) (proposalBlockHash s) (proposalBlock s) (lockedRound s) (lockedBlock s) (validRound s) (validBlock s) (votes s) (commitRound s).
Definition set_startTime (x : Z) (s : State) : State :=
  mkState (chainId s) (signer s) (pendingBlocks s) (now s) (msgQueue s) (ticker s) (emitted s) (processed s) (reported s) (parentHash s) (triggeredTimeoutPrecommit s) (height s) (round s) (step s) x (commitTime s) (validators s) (proposal s) (proposalBlockHash s) (proposalBlock s) (lockedRound s) (lockedBlock s) (validRound s) (validBlock s) (votes s) (commitRound s).
Definition set_commitTime (x : option Z) (s : State) : State :=
  mkState (chainId s) (signer s) (pendingBlocks s) (now s) (msgQueue s) (ticker s) (emitted s) (processed s) (reported s) (parentHash s) (triggeredTimeoutPrecommit s) (height s) (round s) (step s) (startTime s) x (validators s) (proposal s) (proposalBlockHash s) (proposalBlock s) (lockedRound s) (lockedBlock s) (validRound s) (validBlock s) (votes s) (commitRound s).
Definition set_validators (x : ValidatorSet) (s : State) : State :=
  mkState (chainId s) (signer s) (pendingBlocks s) (now s) (msgQueue s) (ticker s) (emitted s) (processed s) (reported s) (parentHash s) (triggeredTimeoutPrecommit s) (height s) (round s) (step s) (startTime s) (commitTime s) x (proposal s) (proposalBlockHash s) (proposalBlock s) (lockedRound s) (lockedBlock s) (validRound s) (validBlock s) (votes s) (commitRound s).
Definition set_proposal (x : option Proposal) (s : State) : State :=
  mkState (chainId s) (signer s) (pendingBlocks s) (now s) (msgQueue s) (ticker s) (emitted s) (processed s) (reported s) (parentHash s) (triggeredTimeoutPrecommit s) (height s) (round s) (step s) (startTime s) (commitTime s) (validators s) x (proposalBlockHash s) (proposalBlock s) (lockedRound s) (lockedBlock s) (validRound s) (validBlock s) (votes s) (commitRound s).
Definition set_proposalBlockHash (x : option Z) (s : State) : State :=
  mkState (chainId s) (signer s) (pendingBlocks s) (now s) (msgQueue s) (ticker s) (emitted s) (processed s) (reported s) (parentHash s) (triggeredTimeoutPrecommit s) (height s) (round s) (step s) (startTime s) (commitTime s) (validators s) (proposal s) x (proposalBlock s) (lockedRound s) (lockedBlock s) (validRound s) (validBlock s) (votes s) (commitRound s).
Definition set_proposalBlock (x : option Block) (s : State) : State :=
  mkState (chainId s) (signer s) (pendingBlocks s) (now s) (msgQueue s) (ticker s) (emitted s) (processed s) (reported s) (parentHash s) (triggeredTimeoutPrecommit s) (height s) (round s) (step s) (startTime s) (commitTime s) (validators s) (proposal s) (proposalBlockHash s) x (lockedRound s) (lockedBlock s) (validRound s) (validBlock s) (votes s) (commitRound s).
Definition set_lockedRound (x : Z) (s : State) : State :=
  mkState (chainId s) (signer s) (pendingBlocks s) (now s) (msgQueue s) (ticker s) (emitted s) (processed s) (reported s) (parentHash s) (triggeredTimeoutPrecommit s) (height s) (round s) (step s) (startTime s) (commitTime s) (validators s) (proposal s) (proposalBlockHash s) (proposalBlock s) x (lockedBlock s) (validRound s) (validBlock s) (votes s) (commitRound s).
Definition set_lockedBlock (x : option Block) (s : State) : State :=
  mkState (chainId s) (signer s) (pendingBlocks s) (now s) (msgQueue s) (ticker s) (emitted s) (processed s) (reported s) (parentHash s) (triggeredTimeoutPrecommit s) (height s) (round s) (step s) (startTime s) (commitTime s) (validators s) (proposal s) (proposalBlockHash s) (proposalBlock s) (lockedRound s) x (validRound s) (validBlock s) (votes s) (commitRound s).
Definition set_validRound (x : Z) (s : State) : State :=
  mkState (chainId s) (signer s) (pendingBlocks s) (now s) (msgQueue s) (ticker s) (emitted s) (processed s) (reported s) (parentHash s) (triggeredTimeoutPrecommit s) (height s) (round s) (step s) (startTime s) (commitTime s) (validators s) (proposal s) (proposalBlockHash s) (proposalBlock s) (lockedRound s) (lockedBlock s) x (validBlock s) (votes s) (commitRound s).
Definition set_validBlock (x : option Block) (s : State) : State :=
  mkState (chainId s) (signer s) (pendingBlocks s) (now s) (msgQueue s) (ticker s) (emitted s) (processed s) (reported s) (parentHash s) (triggeredTimeoutPrecommit s) (height s) (round s) (step s) (startTime s) (commitTime s) (validators s) (proposal s) (proposalBlockHash s) (proposalBlock s) (lockedRound s) (lockedBlock s) (validRound s) x (votes s) (commitRound s).
Definition set_votes (x : HeightVoteSet) (s : State) : State :=
  mkState (chainId s) (signer s) (pendingBlocks s) (now s) (msgQueue s) (ticker s) (emitted s) (processed s) (reported s) (parentHash s) (triggeredTimeoutPrecommit s) (height s) (round s) (step s) (startTime s) (commitTime s) (validators s) (proposal s) (proposalBlockHash s) (proposalBlock s) (lockedRound s) (lockedBlock s) (validRound s) (validBlock s) x (commitRound s).
Definition set_commitRound (x : Z) (s : State) : State :=
  mkState (chainId s) (signer s) (pendingBlocks s) (now s) (msgQueue s) (ticker s) (emitted s) (processed s) (reported s) (parentHash s) (triggeredTimeoutPrecommit s) (height s) (round s) (step s) (startTime s) (commitTime s) (validators s) (proposal s) (proposalBlockHash s) (proposalBlock s) (lockedRound s) (lockedBlock s) (validRound s) (validBlock s) (votes s) x.

(** ** Statements with exceptions

    A method of [StateMachine] runs on [this] and may throw; the fields it
    assigned before throwing stay assigned, so a computation returns the
    state together with its outcome. *)
Inductive result (A : Type) := Ok (a : A) | Err (e : Error).
Arguments Ok {A} a.
Arguments Err {A} e.

Definition M (A : Type) := State -> State * result A.

Definition ret {A} (a : A) : M A := fun s => (s, Ok a).
Definition bind {A B} (m : M A) (f : A -> M B) : M B :=
  fun s => let (s1, r) := m s in
           match r with Ok a => f a s1 | Err e => (s1, Err e) end.
Definition get : M State := fun s => (s, Ok s).
Definition modify (f : State -> State) : M unit := fun s => (f s, Ok tt).
Definition throw {A} (e : Error) : M A := fun s => (s, Err e).
Definition fail {A} (msg : string) : M A := throw (Failure msg).
(** [try { m } catch (err) { h(err) }] *)
Definition catch {A} (m : M A) (h : Error -> M A) : M A :=
  fun s => let (s1, r) := m s in
           match r with Ok a => (s1, Ok a) | Err e => h e s1 end.

Declare Scope sm_scope.
Delimit Scope sm_scope with sm.
Notation "x <- m ;; k" := (bind m (fun x => k))
  (at level 61, m at next level, right associativity) : sm_scope.
Notation "m ;; k" := (bind m (fun _ => k)) (at level 61, right associativity) : sm_scope.
Open Scope sm_scope.

Definition when (c : bool) (m : M unit) : M unit := if c then m else ret tt.

(** A JavaScript [switch] without [break]: control enters at the first case
    whose label matches and runs that body, every later body and finally
    the [default] body. *)
Fixpoint fall_through (bodies : list (M unit)) (dflt : M unit) : M unit :=
  match bodies with
  | [] => dflt
  | b :: rest => b ;; fall_through rest dflt
  end.

Fixpoint switch {K} (eqk : K -> K -> bool) (k : K) (cases : list (K * M unit)) (dflt : M unit) : M unit :=
  match cases with
  | [] => dflt
  | (k', b) :: rest =>
      if eqk k k' then fall_through (b :: map snd rest) dflt
      else switch eqk k rest dflt
  end.

(** ** Configuration constants and durations *)

Definition SkipTimeoutCommit : bool := true.
Definition WaitForTxs : bool := true.
Definition CreateEmptyBlocksInterval : Z := 0.

Definition proposeDuration (round : Z) : Z := 40 + 1 * round.
Definition prevoteDuration (round : Z) : Z := 10 + 1 * round.
Definition precommitDutaion (round : Z) : Z := 10 + 1 * round.
Definition commitTimeout (time : Z) : Z := 10 + time.

(** ** Collaborators *)

(** [this.msgQueue.push(smsg)] *)
Definition push (m : StateMachineMessage) : M unit :=
  modify (fun s => set_msgQueue (msgQueue s ++ [m]) s).

(** [this.timeoutTicker.schedule(ti)]: the ticker keeps one pending
    timeout; the list records the schedule calls, latest first. *)
Definition schedule (ti : TimeoutInfo) : M unit :=
  modify (fun s => set_ticker (ti :: ticker s) s).

Definition emit (e : Event) : M unit :=
  modify (fun s => set_emitted (emitted s ++ [e]) s).

(** [MockSigner.sign]: throws when the coinbase is the zero address. *)
Definition sign (addr : Z) : M unit :=
  if Z.eqb addr 0 then fail "empty coinbase" else ret tt.

(** [this.newStep(timestamp)] *)
Definition newStep : M unit :=
  s <- get;;
  emit (NewStepEvent (height s) (round s) (step s) (now s - startTime s) 0).

(** ** The state machine's methods *)

Definition isProposalComplete (s : State) : bool :=
  match proposal s, proposalBlock s with
  | Some p, Some _ =>
      if Z.ltb (prop_POLRound p) 0 then true
      else match prevotes (votes s) (prop_POLRound p) with
           | Some vs => hasTwoThirdsMajority vs
           | None => false
           end
  | _, _ => false
  end.

Definition signVote (ty : VoteType.t) (hash : Z) : M (option Vote) :=
  s <- get;;
  match signer s with
  | None => ret None
  | Some addr =>
      match getIndexByAddress (validators s) addr with
      | None => ret None
      | Some index =>
          let vote := mkVote (chainId s) ty (height s) (round s) 1 hash index addr in
          sign addr;;
          push (MessageInfo "" (VoteMessage vote));;
          ret (Some vote)
      end
  end.

Definition tryFinalizeCommit (h : Z) : M unit :=
  s <- get;;
  if negb (Z.eqb (height s) h) || negb (RoundStepType.eqb (step s) RoundStepType.Commit) then
    fail "tryFinalizeCommit invalid args"
  else
    match precommits_maj23 (votes s) (commitRound s) with
    | None => ret tt
    | Some maj23Hash =>
        if isEmptyHash maj23Hash then ret tt
        else match proposalBlock s with
             | None => ret tt
             | Some b =>
                 if negb (Z.eqb (Block_hash b) maj23Hash) then ret tt
                 (* node.processBlock(finalizedBlock, ...) *)
                 else modify (fun s => set_processed (processed s ++ [b]) s)
             end
    end.

Definition enterPrevote (h r : Z) : M unit :=
  s <- get;;
  if negb (Z.eqb (height s) h) || Z.ltb r (round s)
     || (Z.eqb (round s) r && RoundStepType.leb RoundStepType.Prevote (step s)) then
    ret tt (* invalid args *)
  else
    let update := modify (set_round r);; modify (set_step RoundStepType.Prevote);; newStep in
    match lockedBlock s with
    | Some lb => signVote VoteType.Prevote (Block_hash lb);; update
    | None =>
        match proposalBlock s with
        | None => signVote VoteType.Prevote EMPTY_HASH;; update
        | Some pb =>
            let validate := 1 in
            (if negb (Z.eqb validate 0) then signVote VoteType.Prevote (Block_hash pb)
             else signVote VoteType.Prevote EMPTY_HASH);;
            update
        end
    end.

Definition enterPrevoteWait (h r : Z) : M unit :=
  s <- get;;
  if negb (Z.eqb (height s) h) || Z.ltb r (round s)
     || (Z.eqb (round s) r && RoundStepType.leb RoundStepType.PrevoteWait (step s)) then
    ret tt
  else if negb (match prevotes (votes s) r with Some vs => hasTwoThirdsAny vs | None => false end) then
    fail "enterPrevoteWait doesn't have any +2/3 votes"
  else
    let update := modify (set_round r);; modify (set_step RoundStepType.PrevoteWait);; newStep in
    schedule (mkTimeoutInfo (prevoteDuration r) h r RoundStepType.PrevoteWait);;
    update.

Definition enterPrecommit (h r : Z) : M unit :=
  s <- get;;
  if negb (Z.eqb (height s) h) || Z.ltb r (round s)
     || (Z.eqb (round s) r && RoundStepType.leb RoundStepType.Precommit (step s)) then
    ret tt
  else
    let update := modify (set_round r);; modify (set_step RoundStepType.Precommit);; newStep in
    match prevotes_maj23 (votes s) r with
    | None => signVote VoteType.Precommit EMPTY_HASH;; update
    | Some maj23Hash =>
        (match POLInfo (votes s) with
         | Some (polRound, _) => if Z.ltb polRound r then fail "invalid pol round" else ret tt
         | None => ret tt
         end);;
        if isEmptyHash maj23Hash then
          (match lockedBlock s with
           | None => ret tt
           | Some _ => modify (set_lockedRound (-1));; modify (set_lockedBlock None)
           end);;
          signVote VoteType.Precommit EMPTY_HASH;;
          update
        else if (match lockedBlock s with
                 | Some lb => Z.eqb (Block_hash lb) maj23Hash | None => false end) then
          modify (set_lockedRound r);;
          signVote VoteType.Precommit maj23Hash;;
          update
        else if (match proposalBlock s with
                 | Some pb => Z.eqb (Block_hash pb) maj23Hash | None => false end) then
          (* validate block *)
          modify (set_lockedRound r);;
          modify (set_lockedBlock (proposalBlock s));;
          signVote VoteType.Precommit maj23Hash;;
          update
        else
          modify (set_lockedRound (-1));;
          modify (set_lockedBlock None);;
          s <- get;;
          (if (match proposalBlock s with
               | None => true
               | Some pb => negb (Z.eqb (Block_hash pb) maj23Hash)
               end)
           then modify (set_proposalBlock None);; modify (set_proposalBlockHash (Some maj23Hash))
           else ret tt);;
          signVote VoteType.Precommit EMPTY_HASH;;
          update
    end.

Definition enterPrecommitWait (h r : Z) : M unit :=
  s <- get;;
  if negb (Z.eqb (height s) h) || Z.ltb r (round s)
     || (Z.eqb (round s) r && triggeredTimeoutPrecommit s) then
    ret tt
  else if negb (match precommits (votes s) r with Some vs => hasTwoThirdsAny vs | None => false end) then
    fail "enterPrecommitWait doesn't have any +2/3 votes"
  else
    let update := modify (set_triggeredTimeoutPrecommit true);; newStep in
    schedule (mkTimeoutInfo (precommitDutaion r) h r RoundStepType.PrecommitWait);;
    update.

Definition enterCommit (h commitRound : Z) : M unit :=
  s <- get;;
  if negb (Z.eqb (height s) h) || RoundStepType.leb RoundStepType.Commit (step s) then
    ret tt
  else
    let update := modify (set_step RoundStepType.Commit);;
                  modify (set_commitRound commitRound);;
                  modify (fun s => set_commitTime (Some (now s)) s);;
                  newStep;;
                  tryFinalizeCommit h in
    match precommits_maj23 (votes s) commitRound with
    | None => fail "enterCommit expected +2/3 precommits"
    | Some maj23Hash =>
        (match lockedBlock s with
         | Some lb =>
             if Z.eqb (Block_hash lb) maj23Hash then
               modify (set_proposalBlockHash (Some (Block_hash lb)));;
               modify (set_proposalBlock (Some lb))
             else ret tt
         | None => ret tt
         end);;
        s <- get;;
        (if (match proposalBlock s with
             | None => true
             | Some pb => negb (Z.eqb (Block_hash pb) maj23Hash)
             end)
         then modify (set_proposalBlock None);; modify (set_proposalBlockHash (Some maj23Hash))
         else ret tt);;
        update
    end.

Fixpoint lookup_pending (k : Z) (l : list (Z * Block)) : option Block :=
  match l with
  | [] => None
  | (k', b) :: l' => if Z.eqb k k' then Some b else lookup_pending k l'
  end.

(** [createBlockAndProposal]: the worker's pending block on [parentHash],
    completed by [engine.generateBlockAndProposal] with a proposal for the
    current round and [POLRound = validRound], signed with the coinbase. *)
Definition createBlockAndProposal (addr : Z) : M (Block * Proposal) :=
  s <- get;;
  match lookup_pending (parentHash s) (pendingBlocks s) with
  | None => fail "missing pending block"
  | Some pendingBlock =>
      ret (pendingBlock,
           mkProposal (blk_number pendingBlock) (round s) (validRound s)
                      (Block_hash pendingBlock) (now s) addr)
  end.

Definition decideProposal (h r addr : Z) : M unit :=
  s <- get;;
  bp <- match validBlock s with
        | Some b =>
            let proposal := mkProposal h r (validRound s) (Block_hash b) (now s) addr in
            sign addr;;
            ret (b, proposal)
        | None => createBlockAndProposal addr
        end;;
  push (MessageInfo "" (ProposalMessage (snd bp)));;
  push (MessageInfo "" (ProposalBlockMessage (fst bp))).

Definition enterPropose (h r : Z) : M unit :=
  s <- get;;
  if negb (Z.eqb (height s) h) || Z.ltb r (round s)
     || (Z.eqb (round s) r && RoundStepType.leb RoundStepType.Propose (step s)) then
    ret tt
  else
    let update := modify (set_round r);;
                  modify (set_step RoundStepType.Propose);;
                  newStep;;
                  s <- get;;
                  when (isProposalComplete s) (enterPrevote h r) in
    schedule (mkTimeoutInfo (proposeDuration r) h r RoundStepType.Propose);;
    s <- get;;
    match signer s with
    | None => update
    | Some addr =>
        if negb (Z.eqb (proposer (validators s)) addr) then update
        else decideProposal h r addr;; update
    end.

Definition enterNewRound (h r : Z) : M unit :=
  s <- get;;
  if negb (Z.eqb (height s) h) || Z.ltb r (round s)
     || (Z.eqb (round s) r && negb (RoundStepType.eqb (step s) RoundStepType.NewHeight)) then
    ret tt
  else
    let validators' := if Z.ltb (round s) r
                       then incrementProposerPriority (validators s) (r - round s)
                       else validators s in
    modify (set_round r);;
    modify (set_step RoundStepType.NewRound);;
    modify (set_validators validators');;
    (if Z.eqb r 0 then ret tt
     else modify (set_proposal None);;
          modify (set_proposalBlock None);;
          modify (set_proposalBlockHash None));;
    modify (fun s => set_votes (setRound (votes s) (r + 1)) s);;
    modify (set_triggeredTimeoutPrecommit false);;
    let waitForTxs := WaitForTxs && Z.eqb r 0 in
    if waitForTxs then
      when (Z.ltb 0 CreateEmptyBlocksInterval)
           (schedule (mkTimeoutInfo CreateEmptyBlocksInterval h r RoundStepType.NewRound))
    else enterPropose h r.

Definition setProposal (p : Proposal) : M unit :=
  s <- get;;
  match proposal s with
  | Some _ => ret tt
  | None =>
      if negb (Z.eqb (height s) (prop_height p)) || negb (Z.eqb (round s) (prop_round p)) then ret tt
      else if Z.ltb (prop_POLRound p) (-1)
              || (Z.leb 0 (prop_POLRound p) && Z.leb (prop_round p) (prop_POLRound p)) then
        fail "invalid proposal POL round"
      (* proposal.validateSignature(this.validators.proposer()) *)
      else if negb (Z.eqb (prop_signer p) (proposer (validators s))) then
        fail "invalid proposal signature"
      else
        modify (set_proposal (Some p));;
        modify (set_proposalBlockHash (Some (prop_hash p)));;
        s <- get;;
        match proposalBlock s with
        | None => emit (GetProposalBlockEvent (prop_hash p))
        | Some _ => ret tt
        end
  end.

Definition addProposalBlock (block : Block) : M unit :=
  s <- get;;
  match proposalBlock s with
  | Some _ => ret tt
  | None =>
      match proposalBlockHash s with
      | None => fail "add proposal block when hash is undefined"
      | Some pbh =>
          if negb (Z.eqb pbh (Block_hash block)) then fail "invalid proposal block"
          else
            modify (set_proposalBlock (Some block));;
            s <- get;;
            let maj23Hash := prevotes_maj23 (votes s) (round s) in
            (match maj23Hash with
             | Some mh =>
                 when (negb (isEmptyHash mh) && Z.ltb (validRound s) (round s))
                      (when (Z.eqb pbh mh)
                            (modify (set_validRound (round s));;
                             modify (set_validBlock (proposalBlock s))))
             | None => ret tt
             end);;
            s <- get;;
            if RoundStepType.leb (step s) RoundStepType.Propose && isProposalComplete s then
              enterPrevote (height s) (round s);;
              (match maj23Hash with
               | Some _ => s <- get;; enterPrecommit (height s) (round s)
               | None => ret tt
               end)
            else if RoundStepType.eqb (step s) RoundStepType.Commit then
              tryFinalizeCommit (height s)
            else ret tt
      end
  end.

Definition twoThirdsAny_opt (vs : option VoteSet) : bool :=
  match vs with Some vs => hasTwoThirdsAny vs | None => false end.

(** The body of [case VoteType.Prevote] in [addVote]. *)
Definition prevotePath (vote : Vote) : M unit :=
  s <- get;;
  let pv := prevotes (votes s) (vote_round vote) in
  let maj23Hash := match pv with Some vs => vset_maj23 vs | None => None end in
  (match maj23Hash with
   | None => ret tt
   | Some mh =>
       (* try to unlock ourself *)
       s <- get;;
       (match lockedBlock s with
        | Some lb =>
            when (Z.ltb (lockedRound s) (vote_round vote) && Z.leb (vote_round vote) (round s)
                  && negb (Z.eqb (Block_hash lb) mh))
                 (modify (set_lockedRound (-1));; modify (set_lockedBlock None))
        | None => ret tt
        end);;
       (* try to update valid block *)
       s <- get;;
       when (negb (isEmptyHash mh) && Z.ltb (validRound s) (vote_round vote)
             && Z.eqb (vote_round vote) (round s))
            ((match proposalBlockHash s with
              | Some pbh =>
                  if Z.eqb pbh mh then
                    modify (set_validRound (vote_round vote));;
                    modify (set_validBlock (proposalBlock s))
                  else modify (set_proposalBlock None)
              | None => modify (set_proposalBlock None)
              end);;
             s <- get;;
             when (match proposalBlockHash s with Some pbh => negb (Z.eqb pbh mh) | None => true end)
                  (modify (set_proposalBlockHash (Some mh)));;
             s <- get;;
             emit (NewValidBlockEvent (height s) (round s) (proposalBlockHash s)
                     (RoundStepType.eqb (step s) RoundStepType.Commit)))
   end);;
  s <- get;;
  if Z.ltb (round s) (vote_round vote) && twoThirdsAny_opt pv then
    enterNewRound (height s) (vote_round vote)
  else if Z.eqb (round s) (vote_round vote) && RoundStepType.leb RoundStepType.Prevote (step s) then
    (if (match maj23Hash with
         | Some mh => isProposalComplete s || isEmptyHash mh
         | None => false
         end) then enterPrecommit (height s) (vote_round vote)
     else if twoThirdsAny_opt pv then enterPrevoteWait (height s) (vote_round vote)
     else ret tt)
  else
    match proposal s with
    | Some p =>
        when (Z.leb 0 (prop_POLRound p) && Z.eqb (prop_POLRound p) (vote_round vote))
             (when (isProposalComplete s) (enterPrevote (height s) (round s)))
    | None => ret tt
    end.

(** The body of [case VoteType.Precommit] in [addVote]. *)
Definition precommitPath (vote : Vote) : M unit :=
  s <- get;;
  let pc := precommits (votes s) (vote_round vote) in
  let maj23Hash := match pc with Some vs => vset_maj23 vs | None => None end in
  match maj23Hash with
  | Some mh =>
      s <- get;; enterNewRound (height s) (vote_round vote);;
      s <- get;; enterPrecommit (height s) (vote_round vote);;
      if negb (isEmptyHash mh) then
        s <- get;; enterCommit (height s) (vote_round vote);;
        when SkipTimeoutCommit (s <- get;; enterNewRound (height s) 0)
      else
        s <- get;; enterPrecommitWait (height s) (vote_round vote)
  | None =>
      s <- get;;
      when (Z.leb (round s) (vote_round vote) && twoThirdsAny_opt pc)
           (enterNewRound (height s) (vote_round vote);;
            s <- get;; enterPrecommitWait (height s) (vote_round vote))
  end.

(** [this.votes.addVote(vote, peerId)] *)
Definition votes_addVote (vote : Vote) (peerId : string) : M bool :=
  fun s => match hvs_addVote (votes s) vote peerId with
           | inl (hvs, added) => (set_votes hvs s, Ok added)
           | inr e => (s, Err e)
           end.

Definition addVote (vote : Vote) (peerId : string) : M unit :=
  if negb (Z.eqb (vote_height vote) (vote_height vote)) then
    ret tt (* unequal height, ignore *)
  else
    votes_addVote vote peerId;;
    emit (HasVoteEvent (vote_height vote) (vote_round vote) (vote_type vote) (vote_index vote));;
    switch VoteType.eqb (vote_type vote)
      [(VoteType.Prevote, prevotePath vote); (VoteType.Precommit, precommitPath vote)]
      (fail "unexpected vote type").

(** [evpool.reportConflictingVotes(voteA, voteB)] *)
Definition reportConflictingVotes (a b : Vote) : M unit :=
  modify (fun s => set_reported (reported s ++ [(a, b)]) s).

Definition tryAddVote (vote : Vote) (peerId : string) : M unit :=
  catch (addVote vote peerId)
    (fun err =>
       match err with
       | ConflictingVotes voteA voteB =>
           s <- get;;
           match signer s with
           | Some addr =>
               if Z.eqb (Vote_validator vote) addr then ret tt (* our own conflicting vote *)
               else reportConflictingVotes voteA voteB
           | None => reportConflictingVotes voteA voteB
           end
       | Failure _ => ret tt (* logger.warn *)
       end).

Definition handleMsg (peerId : string) (msg : Message) : M unit :=
  match msg with
  | ProposalMessage p => setProposal p
  | ProposalBlockMessage b => addProposalBlock b
  | VoteMessage v => tryAddVote v peerId
  | OtherMessage _ => fail "unknown msg type"
  end.

Definition handleTimeout (ti : TimeoutInfo) : M unit :=
  s <- get;;
  if negb (Z.eqb (ti_height ti) (height s)) || Z.ltb (ti_round ti) (round s)
     || (Z.eqb (ti_round ti) (round s) && RoundStepType.ltb (ti_step ti) (step s)) then
    ret tt (* ignoring tock because we are ahead *)
  else
    switch RoundStepType.eqb (ti_step ti)
      [(RoundStepType.NewHeight, enterNewRound (ti_height ti) 0);
       (RoundStepType.NewRound, enterPropose (ti_height ti) 0);
       (RoundStepType.Propose, enterPrevote (ti_height ti) (ti_round ti));
       (RoundStepType.PrevoteWait, enterPrecommit (ti_height ti) (ti_round ti));
       (RoundStepType.PrecommitWait, enterPrecommit (ti_height ti) (ti_round ti);;
                                     enterNewRound (ti_height ti) (ti_round ti + 1))]
      (fail "invalid timeout step").

(** One iteration of [msgLoop]: errors are caught and logged. *)
Definition msgLoopStep (smsg : StateMachineMessage) : M unit :=
  catch (match smsg with
         | MessageInfo peerId msg => handleMsg peerId msg
         | TimeoutMsg ti => handleTimeout ti
         end)
        (fun _ => ret tt).

Definition newBlockHeader (header : BlockHeader) (vals : ValidatorSet) : M unit :=
  s <- get;;
  if Z.ltb (-1) (commitRound s) && Z.ltb 0 (height s) && negb (Z.eqb (height s) (hdr_number header)) then
    fail "newBlockHeader invalid args"
  else
    let timestamp := now s in
    modify (set_parentHash (BlockHeader_hash header));;
    modify (set_height (hdr_number header + 1));;
    modify (set_round 0);;
    modify (set_step RoundStepType.NewHeight);;
    modify (fun s => set_startTime (commitTimeout (match commitTime s with
                                                   | Some t => t | None => timestamp end)) s);;
    modify (set_validators vals);;
    modify (set_proposal None);;
    modify (set_proposalBlock None);;
    modify (set_lockedRound (-1));;
    modify (set_lockedBlock None);;
    modify (set_validRound (-1));;
    modify (set_validBlock None);;
    modify (fun s => set_votes (newHeightVoteSet (chainId s) (height s) (validators s)) s);;
    modify (set_commitRound (-1));;
    modify (set_triggeredTimeoutPrecommit false);;
    newStep;;
    s <- get;;
    schedule (mkTimeoutInfo (startTime s - now s) (height s) 0 RoundStepType.NewHeight).

(** ** Concrete configurations

    Four validators of power 1 (addresses 1 to 4, proposer 1), blocks [blkA]
    and [blkB] with hashes 66 and 77, the node running as validator 1. *)
Definition vals4 : ValidatorSet :=
  mkValidatorSet [mkValidator 1 1 0; mkValidator 2 1 0; mkValidator 3 1 0; mkValidator 4 1 0] 1.
Definition blkA : Block := mkBlock 1 66 [1].
Definition blkB : Block := mkBlock 1 77 [2].
Definition hdr0 : BlockHeader := mkBlockHeader 0 5.

(** The votes of validator [i] at height 1. *)
Definition prevote_of (r h i : Z) : Vote := mkVote 9 VoteType.Prevote 1 r 1 h (i - 1) i.
Definition precommit_of (r h i : Z) : Vote := mkVote 9 VoteType.Precommit 1 r 1 h (i - 1) i.

(** Adds votes one after the other (as received from peer "p"). *)
Definition add_votes (hvs : HeightVoteSet) (l : list Vote) : HeightVoteSet :=
  fold_left (fun h v => match hvs_addVote h v "p" with inl (h', _) => h' | inr _ => h end) l hvs.

(** A state machine at height 1 with the given round, step, locks, proposal
    data and vote sets; validator 1 signs. *)
Definition st_at (r : Z) (st : RoundStepType.t) (lr : Z) (lb : option Block)
  (p : option Proposal) (pbh : option Z) (pb : option Block) (hvs : HeightVoteSet) : State :=
  mkState 9 (Some 1) [(5, blkB)] 100 [] [] [] [] []
          5 false 1 r st 10 None vals4 p pbh pb
          lr lb (-1) None hvs (-1).

Definition s_init : State :=
  mkState 9 (Some 1) [(5, blkB)] 100 [] [] [] [] []
          0 false 0 0 RoundStepType.NewHeight 0 None vals4 None (Some 42) None
          (-1) None (-1) None (newHeightVoteSet 9 0 vals4) (-1).

(** Vote sets used by the concrete checks below. *)
Definition hvs_relock : HeightVoteSet :=
  add_votes (setRound (newHeightVoteSet 9 1 vals4) 2)
            [prevote_of 1 77 2; prevote_of 1 77 3; prevote_of 1 77 4].
Definition s_relock : State :=
  st_at 1 RoundStepType.Prevote 0 (Some blkA) (Some (mkProposal 1 1 (-1) 77 100 1))
        (Some 77) (Some blkB) hvs_relock.

Definition hvs_precommit_maj : HeightVoteSet :=
  add_votes (setRound (newHeightVoteSet 9 1 vals4) 1)
            [precommit_of 0 77 2; precommit_of 0 77 3; precommit_of 0 77 4].
Definition s_block_wait : State :=
  st_at 0 RoundStepType.Propose (-1) None (Some (mkProposal 1 0 (-1) 77 100 1))
        (Some 77) None hvs_precommit_maj.

Definition s_new_height : State :=
  st_at 0 RoundStepType.NewHeight (-1) None None None None (newHeightVoteSet 9 1 vals4).

Definition hvs_nil_polka : HeightVoteSet :=
  add_votes (setRound (newHeightVoteSet 9 1 vals4) 2)
            [prevote_of 0 77 2; prevote_of 0 77 3; prevote_of 0 77 4;
             prevote_of 1 0 2; prevote_of 1 0 3].
Definition s_nil_polka : State :=
  st_at 1 RoundStepType.Prevote (-1) None None None None hvs_nil_polka.




Ltac sm_unfold :=
  cbv [bind ret get modify throw fail when catch] in *.

(** ** Block hashing ([src/unnamed/part_009], class [Reimint], and the
    hash function installed by [src/unnamed/part_007]) *)
Module Reimint.

(** A buffer, as a list of its items. *)
Definition Buffer := list Z.

Definition CLIQUE_EXTRA_VANITY : nat := 32.
Definition EMPTY_EXTRA_DATA : Buffer := repeat 0 CLIQUE_EXTRA_VANITY.

(** [setLengthLeft(buf, n)] for a buffer no longer than [n]: zeros on the left. *)
Definition setLengthLeft (b : Buffer) (n : nat) : Buffer :=
  repeat 0 (n - List.length b)%nat ++ b.

(** [Common]: the chain name and whether [testnet-hf1] is active. *)
Record Common := mkCommon { chainName : string; gteHf1 : bool }.

Inductive ConsensusType := Clique | ReimintType.

(** [getConsensusTypeByCommon]; [None] when it throws ['unknown chain']. *)
Definition getConsensusTypeByCommon (common : Common) : option ConsensusType :=
  if String.eqb (chainName common) "rei-testnet" then
    Some (if gteHf1 common then ReimintType else Clique)
  else if String.eqb (chainName common) "rei-mainnet" then Some ReimintType
  else if String.eqb (chainName common) "rei-devnet" then Some ReimintType
  else None.

(** Header data: the raw fields before [extraData] (parentHash to timestamp),
    [extraData] itself, and the fields after it (mixHash, nonce). *)
Record HeaderData := mkHeaderData {
  hd_pre : list Buffer; hd_extraData : option Buffer; hd_post : list Buffer }.

Record BlockHeader := mkBlockHeader {
  bh_pre : list Buffer; bh_extraData : Buffer; bh_post : list Buffer; bh_common : Common }.

Record Block := mkBlock { blk_header : BlockHeader; blk_transactions : list Z }.

(** Modelled from the spec ([@rei-network/structure] is not under src/):
    [BlockHeader.fromHeaderData] keeps the given fields, an absent
    [extraData] being empty, and takes [common] from the options. *)
Definition fromHeaderData (data : HeaderData) (common : Common) : BlockHeader :=
  mkBlockHeader (hd_pre data)
    (match hd_extraData data with Some e => e | None => [] end)
    (hd_post data) common.

(** [header.raw()]: [extraData] is at index 12. *)
Definition raw (h : BlockHeader) : list Buffer := bh_pre h ++ bh_extraData h :: bh_post h.

(** [raw[i] = x] on an array that has index [i]. *)
Fixpoint set_nth {A} (i : nat) (x : A) (l : list A) : list A :=
  match l, i with
  | [], _ => []
  | _ :: l', O => x :: l'
  | y :: l', S i' => y :: set_nth i' x l'
  end.

(** [formatHeaderData(data)] for given data: [extraData] cut or padded on
    the left to 32 items, or [EMPTY_EXTRA_DATA] when absent. *)
Definition formatHeaderData (data : HeaderData) : HeaderData :=
  match hd_extraData data with
  | Some extraData =>
      if Nat.ltb CLIQUE_EXTRA_VANITY (List.length extraData) then
        mkHeaderData (hd_pre data) (Some (firstn CLIQUE_EXTRA_VANITY extraData)) (hd_post data)
      else
        mkHeaderData (hd_pre data) (Some (setLengthLeft extraData CLIQUE_EXTRA_VANITY)) (hd_post data)
  | None => mkHeaderData (hd_pre data) (Some EMPTY_EXTRA_DATA) (hd_post data)
  end.

(** Evidence, as its serialized form. *)
Definition Evidence := Z.

(** [new ExtraData(round, commitRound, POLRound, evidence, proposal, voteSet)]. *)
Record ExtraData := mkExtraData {
  ed_round : Z; ed_commitRound : Z; ed_POLRound : Z; ed_evidence : list Evidence;
  ed_proposal : Proposal; ed_voteSet : option VoteSet }.

(** What [ExtraData.fromBlockHeader] reads back: the votes stay in their
    serialized form (bitmap and signatures). *)
Record DecodedExtraData := mkDecodedExtraData {
  de_round : Z; de_commitRound : Z; de_POLRound : Z; de_evidence : list Evidence;
  de_proposal : Proposal; de_votes : list Z }.

(** Modelled from the spec (section 6.2; [reimint/types] is not under src/):
    the items of [(round, commitRound, POLRound, evidenceList, proposal,
    commitVoteBitmap, commitSignatures)], lists prefixed by their length. *)
Definition serializeVotes (vs : option VoteSet) : list Z :=
  match vs with
  | Some vs => flat_map (fun iv => [fst iv; vote_signer (snd iv)]) (vset_votes vs)
  | None => []
  end.

Definition serializeProposal (p : Proposal) : list Z :=
  [prop_height p; prop_round p; prop_POLRound p; prop_hash p; prop_timestamp p; prop_signer p].

Definition serialize (ed : ExtraData) : Buffer :=
  [ed_round ed; ed_commitRound ed; ed_POLRound ed; Z.of_nat (List.length (ed_evidence ed))]
  ++ ed_evidence ed ++ serializeProposal (ed_proposal ed)
  ++ Z.of_nat (List.length (serializeVotes (ed_voteSet ed))) :: serializeVotes (ed_voteSet ed).

(** Modelled from the spec: the inverse of [serialize]; [None] when it throws. *)
Definition deserialize (b : Buffer) : option DecodedExtraData :=
  match b with
  | r :: cr :: pol :: n :: rest =>
      let ev := firstn (Z.to_nat n) rest in
      if Nat.eqb (List.length ev) (Z.to_nat n) then
        match skipn (Z.to_nat n) rest with
        | ph :: pr :: ppol :: phash :: pts :: psig :: m :: votes =>
            if Nat.eqb (List.length votes) (Z.to_nat m) then
              Some (mkDecodedExtraData r cr pol ev (mkProposal ph pr ppol phash pts psig) votes)
            else None
        | _ => None
        end
      else None
  | _ => None
  end.

(** Modelled from the spec: [ExtraData.fromBlockHeader(header)] decodes the
    items after the 32-item vanity. *)
Definition fromBlockHeader (header : BlockHeader) : option DecodedExtraData :=
  deserialize (skipn CLIQUE_EXTRA_VANITY (bh_extraData header)).

(** [Reimint.calcBlockHash]: the hash of the proposal stored in [extraData]. *)
Definition calcBlockHash (header : BlockHeader) : option Z :=
  match fromBlockHeader header with
  | Some ed => Some (prop_hash (de_proposal ed))
  | None => None
  end.

Definition defaultRound : Z := 0.
Definition defaultPOLRound : Z := -1.
Definition EMPTY_ADDRESS : Z := 0.

(** [Reimint.getMiner(header)]: the proposer of the proposal in [extraData],
    or the zero address for a header with at most 32 items of [extraData];
    [None] when decoding throws. *)
Definition getMiner (header : BlockHeader) : option Z :=
  if Nat.ltb CLIQUE_EXTRA_VANITY (List.length (bh_extraData header)) then
    match fromBlockHeader header with
    | Some ed => Some (prop_signer (de_proposal ed))
    | None => None
    end
  else Some EMPTY_ADDRESS.

(** [isEnableStaking(common)]; [None] when it throws ['unknown chain']. *)
Definition isEnableStaking (common : Common) : option bool :=
  if String.eqb (chainName common) "rei-testnet" then Some (gteHf1 common)
  else if String.eqb (chainName common) "rei-mainnet" then Some true
  else if String.eqb (chainName common) "rei-devnet" then Some true
  else None.

(** A value returned by [common.param('vm', name)]: a string of decimal
    digits (kept as the number [new BN] reads from it), a number, or a value
    of another type. *)
Inductive ParamValue := PString (digits : Z) | PNumber (n : Z) | POther.

(** [Reimint.isEnableGenesisValidators(totalLockedAmount, validatorCount,
    common)], with [param] for [common.param]; [None] when it throws
    ['invalid minTotalLockedAmount'] or ['invalid minValidatorsCount']. *)
Definition isEnableGenesisValidators (totalLockedAmount validatorCount : Z)
  (param : string -> string -> ParamValue) : option bool :=
  match param "vm"%string "minTotalLockedAmount"%string with
  | PString minTotalLockedAmount =>
      if Z.ltb totalLockedAmount minTotalLockedAmount then Some true
      else
        match param "vm"%string "minValidatorsCount"%string with
        | PNumber minValidatorsCount =>
            if Z.ltb validatorCount minValidatorsCount then Some true else Some false
        | _ => None
        end
  | _ => None
  end.

Definition minGasLimit : Z := 5000.
Definition gasLimitFloor : Z := 10000000.
Definition gasLimitCeil : Z := 10000000.

(** [Reimint.calcGasLimit(parentGasLimit, parentGasUsed)]; [divn] truncates. *)
Definition calcGasLimit (parentGasLimit parentGasUsed : Z) : Z :=
  let contrib := Z.quot (Z.quot (parentGasUsed * 3) 2) 1024 in
  let decay := Z.quot parentGasLimit 1024 - 1 in
  let limit := parentGasLimit - decay + contrib in
  let limit := if Z.ltb limit minGasLimit then minGasLimit else limit in
  if Z.ltb limit gasLimitFloor then
    let limit := parentGasLimit + decay in
    if Z.gtb limit gasLimitFloor then gasLimitFloor else limit
  else if Z.gtb limit gasLimitCeil then
    let limit := parentGasLimit - decay in
    if Z.ltb limit gasLimitCeil then gasLimitCeil else limit
  else limit.

Section Hashes.
Variable rlphash : list Buffer -> Z.
Variable Evidence_hash : Evidence -> Z.

(** [Reimint.calcBlockHeaderRawHash(header, evidence)]. *)
Definition calcBlockHeaderRawHash (header : BlockHeader) (evidence : list Evidence) : Z :=
  let r := raw header in
  rlphash (set_nth 12 (firstn CLIQUE_EXTRA_VANITY (nth 12 r []) ++ map Evidence_hash evidence) r).

(** [customHashFunction] of part_007, used for [header.hash()] and
    [block.hash()]; [None] when it throws. *)
Definition customHashFunction (header : BlockHeader) : option Z :=
  if Nat.leb (List.length (bh_extraData header)) CLIQUE_EXTRA_VANITY then Some (rlphash (raw header))
  else match getConsensusTypeByCommon (bh_common header) with
       | None => None
       | Some Clique => Some (rlphash (raw header))
       | Some ReimintType => calcBlockHash header
       end.

(** [ReimintBlockOptions]: [common], the optional signer (by its address)
    and the optional round, commit round, POL round, evidence and vote set. *)
Record ReimintBlockOptions := mkReimintBlockOptions {
  opt_common : Common; opt_signer : option Z; opt_round : option Z;
  opt_commitRound : option Z; opt_POLRound : option Z;
  opt_evidence : option (list Evidence); opt_voteSet : option VoteSet }.

(** [header.number]: the big-endian value of raw field 8. *)
Definition bh_number (h : BlockHeader) : Z :=
  fold_left (fun acc b => acc * 256 + b) (nth 8 (raw h) []) 0.

(** [Reimint.generateBlockHeaderAndProposal(data, options)]; [timestamp] is
    the time the [Proposal] constructor records.  Modelled from the spec: a
    signed proposal records its signer's address. *)
Definition generateBlockHeaderAndProposal (data : HeaderData) (options : ReimintBlockOptions)
  (timestamp : Z) : BlockHeader * option Proposal :=
  let header := fromHeaderData data (opt_common options) in
  match opt_signer options with
  | Some signer =>
      let data := formatHeaderData data in
      let round := match opt_round options with Some r => r | None => defaultRound end in
      let commitRound := match opt_commitRound options with Some r => r | None => round end in
      let POLRound := match opt_POLRound options with Some r => r | None => defaultPOLRound end in
      let evidence := match opt_evidence options with Some e => e | None => [] end in
      let headerHash := calcBlockHeaderRawHash header evidence in
      let proposal := mkProposal (bh_number header) round POLRound headerHash timestamp signer in
      let extraData := mkExtraData round commitRound POLRound evidence proposal (opt_voteSet options) in
      (fromHeaderData
         (mkHeaderData (hd_pre data)
            (Some (match hd_extraData data with Some e => e | None => [] end ++ serialize extraData))
            (hd_post data)) (opt_common options),
       Some proposal)
  | None => (header, None)
  end.

(** [Reimint.generateBlockAndProposal(data, transactions, options)]. *)
Definition generateBlockAndProposal (data : HeaderData) (transactions : list Z)
  (options : ReimintBlockOptions) (timestamp : Z) : Block * option Proposal :=
  let hp := generateBlockHeaderAndProposal data options timestamp in
  (mkBlock (fst hp) transactions, snd hp).
End Hashes.

(** [Reimint.generateFinalizedBlock(data, transactions, evidence, proposal,
    commitRound, votes, options)], [options.common] being [common]. *)
Definition generateFinalizedBlock (data : HeaderData) (transactions : list Z)
  (evidence : list Evidence) (proposal : Proposal) (commitRound : Z) (votes : VoteSet)
  (common : Common) : Block :=
  let extraData := mkExtraData (prop_round proposal) commitRound (prop_POLRound proposal)
                     evidence proposal (Some votes) in
  let data := formatHeaderData data in
  let header := fromHeaderData
                  (mkHeaderData (hd_pre data)
                     (Some (match hd_extraData data with Some e => e | None => [] end
                            ++ serialize extraData))
                     (hd_post data)) common in
  mkBlock header transactions.

End Reimint.

(** ** Relations and auxiliary definitions for the proofs *)

Definition maj_kept (a b : HeightVoteSet) : Prop :=
  forall r H, precommits_maj23 a r = Some H -> precommits_maj23 b r = Some H.

(** Within one height, (round, step) does not go back. *)
Definition progress (s s' : State) : Prop :=
  height s' = height s /\ round s <= round s'
  /\ (round s < round s' \/ RoundStepType.val (step s) <= RoundStepType.val (step s')).

(** Step [Commit] is not entered anew, and its commit round is kept. *)
Definition commit_frame (s s' : State) : Prop :=
  step s' = RoundStepType.Commit -> step s = RoundStepType.Commit /\ commitRound s' = commitRound s.

Definition Rel (s s' : State) : Prop :=
  progress s s' /\ maj_kept (votes s) (votes s') /\ commit_frame s s'.

(** The transitions that keep [Rel] from the state they start in. *)
Class Steady {A} (m : M A) : Prop := steady : forall s, Rel s (fst (m s)).

(** At step [Commit], the precommits of [commitRound] have a non-nil
    two-thirds majority. *)
Definition inv (s : State) : Prop :=
  step s = RoundStepType.Commit ->
  exists H, precommits_maj23 (votes s) (commitRound s) = Some H /\ H <> EMPTY_HASH.

Definition Rel' (s s' : State) : Prop :=
  progress s s' /\ maj_kept (votes s) (votes s') /\ (inv s -> inv s').

(** The transitions that keep [Rel'] from the state they start in. *)
Class Good {A} (m : M A) : Prop := good : forall s, Rel' s (fst (m s)).

Inductive reachable : State -> Prop :=
| reach_init (s : State) : step s = RoundStepType.NewHeight -> reachable s
| reach_msg (m : StateMachineMessage) (s : State) : reachable s -> reachable (fst (msgLoopStep m s))
| reach_nbh (hdr : BlockHeader) (vals : ValidatorSet) (s : State) :
    reachable s -> reachable (fst (newBlockHeader hdr vals s)).

Definition delivered : State :=
  fst (msgLoopStep (MessageInfo "p" (VoteMessage (precommit_of 0 77 4)))
    (fst (msgLoopStep (MessageInfo "p" (VoteMessage (precommit_of 0 77 3)))
      (fst (msgLoopStep (MessageInfo "p" (VoteMessage (precommit_of 0 77 2))) s_new_height))))).


(** A prevote of height 7, sent to a state machine at height 1. *)
Definition foreign_prevote : Vote := mkVote 9 VoteType.Prevote 7 0 1 77 1 2.

(** The [NewHeight] timeout scheduled for height 1. *)
Definition ti_newHeight : TimeoutInfo := mkTimeoutInfo 10 1 0 RoundStepType.NewHeight.

(** The precommits of round 0 with a majority for 77. *)
Definition vs_committed : VoteSet :=
  match precommits hvs_precommit_maj 0 with
  | Some vs => vs
  | None => newVoteSet 9 1 0 VoteType.Precommit vals4
  end.
Definition common_mainnet : Reimint.Common := Reimint.mkCommon "rei-mainnet" false.
Definition data0 : Reimint.HeaderData := Reimint.mkHeaderData [[1]; [2]] (Some [7; 7]) [[0]].

Definition data12 : Reimint.HeaderData :=
  Reimint.mkHeaderData [[1]; [2]; [3]; [4]; [5]; [6]; [7]; [1]; [5]; [8]; [0]; [100]]
    (Some (repeat 7 33)) [[0]; [0]].
Definition opts_signed : Reimint.ReimintBlockOptions :=
  Reimint.mkReimintBlockOptions common_mainnet (Some 9) (Some 2) None None (Some [4]) None.
Definition sum_hash (l : list Reimint.Buffer) : Z := fold_left Z.add (List.concat l) 0.
Definition proposal12 : Proposal :=
  match snd (Reimint.generateBlockHeaderAndProposal sum_hash (fun x => x) data12 opts_signed 100) with
  | Some p => p
  | None => mkProposal 0 0 0 0 0 0
  end.

(** The step at which a vote of each type is signed. *)
Definition type_step (t : VoteType.t) : Z :=
  match t with
  | VoteType.Prevote => RoundStepType.val RoundStepType.Prevote
  | VoteType.Precommit => RoundStepType.val RoundStepType.Precommit
  | VoteType.Proposal => RoundStepType.val RoundStepType.Propose
  end.

Definition msg_votes (m : StateMachineMessage) : list Vote :=
  match m with MessageInfo _ (VoteMessage v) => [v] | _ => [] end.

(** The votes the machine pushed to its queue for height [h]. *)
Definition own_votes_at (h : Z) (q : list StateMachineMessage) : list Vote :=
  filter (fun v => Z.eqb (vote_height v) h) (flat_map msg_votes q).

Definition vote_key (v : Vote) : Z * VoteType.t := (vote_round v, vote_type v).

(** A vote signed at or before round [r], step [st]. *)
Definition below (r : Z) (st : RoundStepType.t) (v : Vote) : Prop :=
  vote_round v < r \/ (vote_round v = r /\ type_step (vote_type v) <= RoundStepType.val st).

Definition safe_fields (h r : Z) (st : RoundStepType.t) (tk : list TimeoutInfo)
  (q : list StateMachineMessage) : Prop :=
  0 <= r
  /\ Forall (fun ti => ti_height ti = h -> ti_round ti <= r) tk
  /\ Forall (below r st) (own_votes_at h q)
  /\ NoDup (map vote_key (own_votes_at h q)).

(** The own votes of the current height were signed at or before the
    current round and step, no two of them share a round and a type, and the
    scheduled timeouts of the height are not ahead of the current round. *)
Definition sign_safe (s : State) : Prop :=
  safe_fields (height s) (round s) (step s) (ticker s) (msgQueue s).

(** The computations that keep [sign_safe] from any state. *)
Class Keeps {A} (m : M A) : Prop := keeps : forall s, sign_safe s -> sign_safe (fst (m s)).

(** Runs of [msgLoop]: each iteration handles a message from a peer, or a
    timeout the machine itself scheduled on its ticker. *)
Inductive loop_steps : State -> State -> Prop :=
| loop_done s : loop_steps s s
| loop_msg s p msg s' :
    loop_steps (fst (msgLoopStep (MessageInfo p msg) s)) s' -> loop_steps s s'
| loop_timeout s ti s' :
    In ti (ticker s) -> loop_steps (fst (msgLoopStep (TimeoutMsg ti) s)) s' -> loop_steps s s'.

(** The lock is consistent: no block is locked exactly when the locked
    round is [-1], and a locked round lies between [0] and the current
    round. *)
Definition lock_ok (s : State) : Prop :=
  0 <= round s
  /\ ((lockedBlock s = None /\ lockedRound s = -1)
      \/ (lockedBlock s <> None /\ 0 <= lockedRound s <= round s)).

(** [lock_ok] with a signer whose signatures do not throw. *)
Definition lock_inv (s : State) : Prop := signer s <> Some 0 /\ lock_ok s.

(** The computations that keep [lock_inv] from any state. *)
Class LockKeeps {A} (m : M A) : Prop := lock_keeps : forall s, lock_inv s -> lock_inv (fst (m s)).

(** The proposal the machine holds was checked by [setProposal]: it is for
    the current height, from a round not after the current one, its POL
    round lies in [[-1, round)], and the current proposer signed it. *)
Definition proposal_ok (s : State) : Prop :=
  0 <= round s
  /\ forall p, proposal s = Some p ->
     prop_height p = height s /\ prop_round p <= round s
     /\ -1 <= prop_POLRound p < prop_round p /\ prop_signer p = proposer (validators s).

(** The computations that keep [proposal_ok] from any state. *)
Class PropKeeps {A} (m : M A) : Prop := prop_keeps : forall s, proposal_ok s -> proposal_ok (fst (m s)).

(** The genesis validator set when the locked amount is below 100 or fewer
    than 4 validators are active. *)
Definition genesis_params (section name : string) : Reimint.ParamValue :=
  if String.eqb name "minTotalLockedAmount"%string then Reimint.PString 100
  else if String.eqb name "minValidatorsCount"%string then Reimint.PNumber 4
  else Reimint.POther.

(** Every block handed to [processBlock] has a non-nil hash for which the
    precommits of some round of the height hold a two-thirds majority. *)
Definition finalized_ok (s : State) : Prop :=
  forall b, In b (processed s) ->
    Block_hash b <> EMPTY_HASH /\ exists r, precommits_maj23 (votes s) r = Some (Block_hash b).

(** The computations that keep [finalized_ok] from any state. *)
Class FinKeeps {A} (m : M A) : Prop := fin_keeps : forall s, finalized_ok s -> finalized_ok (fst (m s)).

(** A proposal block, then a precommit completing the majority. *)
Definition block_then_precommit : State :=
  fst (msgLoopStep (MessageInfo "p"%string (VoteMessage (precommit_of 0 77 2)))
         (fst (msgLoopStep (MessageInfo "p"%string (ProposalBlockMessage blkB)) s_block_wait))).

(** Prevote majorities, once formed, are kept. *)
Definition pv_kept (a b : HeightVoteSet) : Prop :=
  forall r H, prevotes_maj23 a r = Some H -> prevotes_maj23 b r = Some H.

(** How the lock may change from [s] to [s']: the round does not go back and
    no prevote majority is lost; a lock held in [s'] is one of round at least
    [s]'s round, or the lock of [s] kept or renewed; a lock of [s] that is gone
    in [s'] was released on a prevote majority of a round at least [s]'s
    locked round or [s]'s round. *)
Definition unlock_rel (s s' : State) : Prop :=
  round s <= round s'
  /\ pv_kept (votes s) (votes s')
  /\ (lockedBlock s' <> None ->
      round s <= lockedRound s' \/ (lockedBlock s <> None /\ lockedRound s <= lockedRound s'))
  /\ (lockedBlock s <> None -> lockedBlock s' = None ->
      exists r' x, (lockedRound s <= r' \/ round s <= r') /\ prevotes_maj23 (votes s') r' = Some x).

(** The computations that relate every state to their final state by [unlock_rel]. *)
Class Unlocks {A} (m : M A) : Prop := unlocks : forall s, unlock_rel s (fst (m s)).



(** * Proofs *)

Lemma bind_ret {A B} (a : A) (k : A -> M B) (s : State) : bind (ret a) k s = k a s.
Proof. reflexivity. Qed.

Lemma bind_get {B} (k : State -> M B) (s : State) : bind get k s = k s s.
Proof. reflexivity. Qed.

Lemma bind_modify {B} (f : State -> State) (k : unit -> M B) (s : State) :
  bind (modify f) k s = k tt (f s).
Proof. reflexivity. Qed.

Lemma bind_assoc {A B C} (m : M A) (f : A -> M B) (g : B -> M C) (s : State) :
  bind (bind m f) g s = bind m (fun a => bind (f a) g) s.
Proof. unfold bind; destruct (m s) as [s1 [a|e]]; reflexivity. Qed.

Ltac sm_step :=
  repeat first [ rewrite bind_ret | rewrite bind_get | rewrite bind_modify
               | rewrite bind_assoc ]; cbv beta.

(** Reduces field reads of updated states. *)
Ltac st_simpl := cbn [chainId signer pendingBlocks now msgQueue ticker emitted processed reported parentHash triggeredTimeoutPrecommit height round step startTime commitTime validators proposal proposalBlockHash proposalBlock lockedRound lockedBlock validRound validBlock votes commitRound set_chainId set_signer set_pendingBlocks set_now set_msgQueue set_ticker set_emitted set_processed set_reported set_parentHash set_triggeredTimeoutPrecommit set_height set_round set_step set_startTime set_commitTime set_validators set_proposal set_proposalBlockHash set_proposalBlock set_lockedRound set_lockedBlock set_validRound set_validBlock set_votes set_commitRound] in *.

(** C10: a call to [newBlockHeader] that passes its argument check resets
    height, round, step, startTime, validators, proposal, proposalBlock,
    lockedRound, lockedBlock, validRound, validBlock, votes, commitRound and
    triggeredTimeoutPrecommit for the new height, but does not assign
    [proposalBlockHash], which keeps the value it had before the call. *)
Theorem newBlockHeader_keeps_proposalBlockHash (s : State) (hdr : BlockHeader) (vals : ValidatorSet)
  (Hargs : ~ (-1 < commitRound s /\ 0 < height s /\ height s <> hdr_number hdr)) :
  let (s', r) := newBlockHeader hdr vals s in
  r = Ok tt
  /\ height s' = hdr_number hdr + 1 /\ round s' = 0 /\ step s' = RoundStepType.NewHeight
  /\ startTime s' = commitTimeout (match commitTime s with Some t => t | None => now s end)
  /\ validators s' = vals /\ proposal s' = None /\ proposalBlock s' = None
  /\ lockedRound s' = -1 /\ lockedBlock s' = None /\ validRound s' = -1 /\ validBlock s' = None
  /\ votes s' = newHeightVoteSet (chainId s) (hdr_number hdr + 1) vals
  /\ commitRound s' = -1 /\ triggeredTimeoutPrecommit s' = false
  /\ proposalBlockHash s' = proposalBlockHash s.
Proof.
  unfold newBlockHeader, newStep, emit, schedule; sm_unfold.
  assert (Hg : (Z.ltb (-1) (commitRound s) && Z.ltb 0 (height s)
                && negb (Z.eqb (height s) (hdr_number hdr)))%bool = false).
  { destruct (Z.ltb (-1) (commitRound s)) eqn:E1; simpl; auto.
    destruct (Z.ltb 0 (height s)) eqn:E2; simpl; auto.
    destruct (Z.eqb (height s) (hdr_number hdr)) eqn:E3; simpl; auto.
    exfalso; apply Hargs; rewrite Z.ltb_lt in E1, E2; rewrite Z.eqb_neq in E3; auto. }
  rewrite Hg; simpl.
  repeat split.
Qed.

Lemma newBlockHeader_keeps_proposalBlockHash_witness :
  ~ (-1 < commitRound s_init /\ 0 < height s_init /\ height s_init <> hdr_number hdr0)
  /\ (let (s', r) := newBlockHeader hdr0 vals4 s_init in
      r = Ok tt
      /\ height s' = hdr_number hdr0 + 1 /\ round s' = 0 /\ step s' = RoundStepType.NewHeight
      /\ startTime s' = commitTimeout (match commitTime s_init with Some t => t | None => now s_init end)
      /\ validators s' = vals4 /\ proposal s' = None /\ proposalBlock s' = None
      /\ lockedRound s' = -1 /\ lockedBlock s' = None /\ validRound s' = -1 /\ validBlock s' = None
      /\ votes s' = newHeightVoteSet (chainId s_init) (hdr_number hdr0 + 1) vals4
      /\ commitRound s' = -1 /\ triggeredTimeoutPrecommit s' = false
      /\ proposalBlockHash s' = proposalBlockHash s_init).
Proof.
  assert (H : ~ (-1 < commitRound s_init /\ 0 < height s_init /\ height s_init <> hdr_number hdr0)).
  { simpl; lia. }
  split; [exact H | exact (newBlockHeader_keeps_proposalBlockHash s_init hdr0 vals4 H)].
Defined.

(** C6 (counterexample): entering round 0 does not invoke [enterPropose],
    although [CreateEmptyBlocksInterval] is not positive: the step stays
    [NewRound] and no timeout is scheduled, while [enterPropose(1, 0)] from
    the resulting state would schedule a [Propose] timeout. *)
Lemma enterNewRound_round0_skips_propose :
  CreateEmptyBlocksInterval <= 0
  /\ (let (s', r) := enterNewRound 1 0 s_new_height in
      r = Ok tt /\ step s' = RoundStepType.NewRound /\ ticker s' = []
      /\ ticker (fst (enterPropose 1 0 s')) <> []).
Proof.
  split; [unfold CreateEmptyBlocksInterval; lia |].
  vm_compute; repeat split; discriminate.
Qed.

(** C6 (amended): when the guard of [enterNewRound(h, 0)] passes (current
    round 0 at step [NewHeight]), the call only sets the round to 0, the step
    to [NewRound], the vote sets up to round 1 and clears
    [triggeredTimeoutPrecommit]; [WaitForTxs] holds for round 0 and
    [CreateEmptyBlocksInterval] is 0, so neither is [enterPropose] invoked nor
    a timeout scheduled, and no transaction pool is consulted. *)
Theorem enterNewRound_round0_waits (s : State) (h : Z)
  (Hh : height s = h) (Hr : round s = 0) (Hst : step s = RoundStepType.NewHeight) :
  CreateEmptyBlocksInterval = 0
  /\ enterNewRound h 0 s =
     (set_triggeredTimeoutPrecommit false
        (set_votes (setRound (votes s) 1)
           (set_validators (validators s)
              (set_step RoundStepType.NewRound (set_round 0 s)))), Ok tt).
Proof.
  split; [reflexivity |].
  unfold enterNewRound; sm_unfold; subst h.
  rewrite Z.eqb_refl, Hr, Hst; simpl.
  reflexivity.
Qed.

Lemma enterNewRound_round0_waits_witness :
  (height s_new_height = 1 /\ round s_new_height = 0 /\ step s_new_height = RoundStepType.NewHeight)
  /\ (CreateEmptyBlocksInterval = 0
      /\ enterNewRound 1 0 s_new_height =
         (set_triggeredTimeoutPrecommit false
            (set_votes (setRound (votes s_new_height) 1)
               (set_validators (validators s_new_height)
                  (set_step RoundStepType.NewRound (set_round 0 s_new_height)))), Ok tt)).
Proof.
  split; [repeat split |].
  apply enterNewRound_round0_waits; reflexivity.
Defined.

(** C5 (counterexample): at step [Propose] the block of a complete proposal
    arrives while the current round's precommits already have a two-thirds
    majority (and the prevotes none): [addProposalBlock] enters [Prevote]
    but not [Precommit]. *)
Lemma addProposalBlock_precommit_majority_ignored :
  proposalBlock s_block_wait = None
  /\ proposalBlockHash s_block_wait = Some (Block_hash blkB)
  /\ step s_block_wait = RoundStepType.Propose
  /\ precommits_maj23 (votes s_block_wait) (round s_block_wait) = Some 77
  /\ (let (s', r) := addProposalBlock blkB s_block_wait in
      r = Ok tt /\ isProposalComplete s' = true /\ step s' = RoundStepType.Prevote).
Proof. vm_compute; repeat split. Qed.

(** C5 (amended): once [addProposalBlock] accepts a block [b] (none stored,
    [hash(b)] equal to [proposalBlockHash]) and stores it, possibly recording
    it as the valid block, it enters [Prevote] if [step <= Propose] and the
    proposal is complete, and then also [Precommit] when the current round's
    PREVOTES (not precommits) have a two-thirds majority; otherwise, at step
    [Commit], it calls [tryFinalizeCommit]. *)
Theorem addProposalBlock_accepts (b : Block) (s : State)
  (Hnone : proposalBlock s = None) (Hhash : proposalBlockHash s = Some (Block_hash b)) :
  let s0 := set_proposalBlock (Some b) s in
  let mh := prevotes_maj23 (votes s) (round s) in
  let s1 := match mh with
            | Some m => if negb (isEmptyHash m) && Z.ltb (validRound s) (round s)
                           && Z.eqb (Block_hash b) m
                        then set_validBlock (Some b) (set_validRound (round s) s0) else s0
            | None => s0
            end in
  addProposalBlock b s =
  (if RoundStepType.leb (step s) RoundStepType.Propose && isProposalComplete s1 then
     enterPrevote (height s) (round s);;
     match mh with
     | Some _ => s2 <- get;; enterPrecommit (height s2) (round s2)
     | None => ret tt
     end
   else if RoundStepType.eqb (step s) RoundStepType.Commit then tryFinalizeCommit (height s)
   else ret tt) s1.
Proof.
  intros s0 mh s1.
  unfold addProposalBlock; sm_step.
  rewrite Hnone, Hhash, Z.eqb_refl; cbn [negb].
  sm_step; unfold when; st_simpl.
  subst s1 mh s0.
  destruct (prevotes_maj23 (votes s) (round s)) as [m|] eqn:Em.
  - destruct (negb (isEmptyHash m) && Z.ltb (validRound s) (round s)) eqn:E1;
      [destruct (Z.eqb (Block_hash b) m) eqn:E2|]; cbn [andb]; sm_step; st_simpl.
    + reflexivity.
    + reflexivity.
    + reflexivity.
  - reflexivity.
Qed.

Lemma addProposalBlock_accepts_witness :
  (proposalBlock s_block_wait = None /\ proposalBlockHash s_block_wait = Some (Block_hash blkB))
  /\ (let s0 := set_proposalBlock (Some blkB) s_block_wait in
      let mh := prevotes_maj23 (votes s_block_wait) (round s_block_wait) in
      let s1 := match mh with
                | Some m => if negb (isEmptyHash m) && Z.ltb (validRound s_block_wait) (round s_block_wait)
                               && Z.eqb (Block_hash blkB) m
                            then set_validBlock (Some blkB) (set_validRound (round s_block_wait) s0) else s0
                | None => s0
                end in
      addProposalBlock blkB s_block_wait =
      (if RoundStepType.leb (step s_block_wait) RoundStepType.Propose && isProposalComplete s1 then
         enterPrevote (height s_block_wait) (round s_block_wait);;
         match mh with
         | Some _ => s2 <- get;; enterPrecommit (height s2) (round s2)
         | None => ret tt
         end
       else if RoundStepType.eqb (step s_block_wait) RoundStepType.Commit
       then tryFinalizeCommit (height s_block_wait)
       else ret tt) s1).
Proof.
  split; [split; reflexivity |].
  apply addProposalBlock_accepts; reflexivity.
Defined.


(** C9 (counterexample): a prevote completing a nil polka in round 1 makes
    the prevote path enter [Precommit], which throws "invalid pol round"
    (the last non-nil polka is in round 0); [addVote] ends with that error,
    before the [default] branch is reached. *)
Lemma addVote_stops_before_default :
  snd (addVote (prevote_of 1 0 4) "p" s_nil_polka) = Err (Failure "invalid pol round").
Proof. vm_compute; reflexivity. Qed.


(** C8: the height guard of [addVote] compares [vote.height] with itself, so
    it never returns early: for every vote, whatever its height, [addVote]
    hands the vote to [votes.addVote] and, when that returns with the updated
    vote sets, emits [HasVote] and runs the vote-type dispatch. *)
Theorem addVote_forwards_every_vote (v : Vote) (p : string) (s : State)
  (hvs' : HeightVoteSet) (added : bool)
  (Hadd : hvs_addVote (votes s) v p = inl (hvs', added)) :
  addVote v p s =
  switch VoteType.eqb (vote_type v)
    [(VoteType.Prevote, prevotePath v); (VoteType.Precommit, precommitPath v)]
    (fail "unexpected vote type")
    (set_emitted (emitted s ++ [HasVoteEvent (vote_height v) (vote_round v) (vote_type v) (vote_index v)])
       (set_votes hvs' s)).
Proof.
  unfold addVote; rewrite Z.eqb_refl; cbn [negb].
  unfold bind at 1, votes_addVote; rewrite Hadd.
  reflexivity.
Qed.


Lemma addVote_forwards_every_vote_witness :
  vote_height foreign_prevote <> height s_new_height
  /\ hvs_addVote (votes s_new_height) foreign_prevote "p" = inl (votes s_new_height, false)
  /\ addVote foreign_prevote "p" s_new_height =
     switch VoteType.eqb (vote_type foreign_prevote)
       [(VoteType.Prevote, prevotePath foreign_prevote);
        (VoteType.Precommit, precommitPath foreign_prevote)]
       (fail "unexpected vote type")
       (set_emitted (emitted s_new_height
                     ++ [HasVoteEvent (vote_height foreign_prevote) (vote_round foreign_prevote)
                           (vote_type foreign_prevote) (vote_index foreign_prevote)])
          (set_votes (votes s_new_height) s_new_height)).
Proof.
  assert (H : hvs_addVote (votes s_new_height) foreign_prevote "p" = inl (votes s_new_height, false))
    by (vm_compute; reflexivity).
  split; [discriminate | split; [exact H |]].
  exact (addVote_forwards_every_vote foreign_prevote "p" s_new_height _ _ H).
Defined.

(** C9 (amended): whatever the vote, [addVote] ends by throwing, and it is
    the sequence [votes.addVote]; emit [HasVote]; the path(s) of the vote's
    type (prevote path then precommit path for a prevote, precommit path for
    a precommit, none for another type); then the [default] throw.  When all
    of these return, the error is "unexpected vote type"; when one of them
    throws, its error is the one [addVote] throws, from the state reached
    there, and no later part runs: an error of [votes.addVote] leaves the
    state as it was, and an error of the prevote path (for instance
    "invalid pol round" from [enterPrecommit]) skips the precommit path.
    [tryAddVote] catches every error and returns normally. *)
Theorem addVote_always_throws (v : Vote) (p : string) (s : State) :
  let body := votes_addVote v p;;
              emit (HasVoteEvent (vote_height v) (vote_round v) (vote_type v) (vote_index v));;
              match vote_type v with
              | VoteType.Prevote => prevotePath v;; precommitPath v
              | VoteType.Precommit => precommitPath v
              | VoteType.Proposal => ret tt
              end in
  addVote v p s = bind body (fun _ => fail "unexpected vote type") s
  /\ (exists e, snd (addVote v p s) = Err e)
  /\ (forall s1, body s = (s1, Ok tt) -> addVote v p s = (s1, Err (Failure "unexpected vote type")))
  /\ (forall s1 e, body s = (s1, Err e) -> addVote v p s = (s1, Err e))
  /\ (forall e, hvs_addVote (votes s) v p = inr e -> addVote v p s = (s, Err e))
  /\ (forall hvs' added, hvs_addVote (votes s) v p = inl (hvs', added) ->
        let s0 := set_emitted (emitted s ++ [HasVoteEvent (vote_height v) (vote_round v)
                                               (vote_type v) (vote_index v)])
                              (set_votes hvs' s) in
        (vote_type v = VoteType.Prevote ->
           (forall s1 e, prevotePath v s0 = (s1, Err e) -> addVote v p s = (s1, Err e))
           /\ (forall s1 s2 e, prevotePath v s0 = (s1, Ok tt) -> precommitPath v s1 = (s2, Err e) ->
                 addVote v p s = (s2, Err e)))
        /\ (vote_type v = VoteType.Precommit ->
              forall s1 e, precommitPath v s0 = (s1, Err e) -> addVote v p s = (s1, Err e)))
  /\ snd (tryAddVote v p s) = Ok tt.
Proof.
  intros body.
  assert (Heq : addVote v p s = bind body (fun _ => fail "unexpected vote type") s).
  { subst body; unfold addVote; rewrite Z.eqb_refl; cbn [negb].
    unfold bind, votes_addVote, emit, modify.
    destruct (hvs_addVote (votes s) v p) as [[h a]|e]; [|reflexivity].
    destruct (vote_type v); cbn [switch VoteType.eqb VoteType.val Z.eqb Pos.eqb map snd fall_through]; unfold bind.
    - destruct (prevotePath v _) as [s2 [[]|e]]; [|reflexivity].
      destruct (precommitPath v s2) as [s3 [[]|e]]; reflexivity.
    - destruct (precommitPath v _) as [s3 [[]|e]]; reflexivity.
    - reflexivity. }
  split; [exact Heq|]; split; [|split; [|split; [|split; [|split]]]].
  - rewrite Heq; unfold bind at 1.
    destruct (body s) as [s1 [[]|e]]; eexists; reflexivity.
  - intros s1 Hrun; rewrite Heq; unfold bind at 1; rewrite Hrun; reflexivity.
  - intros s1 e Hrun; rewrite Heq; unfold bind at 1; rewrite Hrun; reflexivity.
  - intros e He; rewrite Heq; subst body; unfold bind, votes_addVote; rewrite He; reflexivity.
  - intros hvs' added Hadd s0; unfold s0; clear s0.
    rewrite Heq; subst body; unfold bind, votes_addVote, emit, modify; rewrite Hadd; st_simpl.
    split; intros Ht; rewrite Ht.
    + split.
      * intros s1 e Hp; destruct (prevotePath v _) as [sa ra] eqn:Ea.
        injection Hp as -> ->; reflexivity.
      * intros s1 s2 e Hp Hc; destruct (prevotePath v _) as [sa ra] eqn:Ea.
        injection Hp as -> ->; rewrite Hc; reflexivity.
    + intros s1 e Hc; destruct (precommitPath v _) as [sa ra] eqn:Ea.
      injection Hc as -> ->; reflexivity.
  - unfold tryAddVote, catch.
    destruct (addVote v p s) as [s1 [[]|[msg|va vb]]]; [reflexivity | reflexivity |].
    sm_step; unfold reportConflictingVotes, ret, modify.
    destruct (signer s1) as [addr|]; [destruct (Z.eqb (Vote_validator v) addr)|]; reflexivity.
Qed.

(** The staleness test of [handleTimeout] fails exactly for timeouts of the
    current height that are not behind the machine's (round, step). *)
Lemma handleTimeout_guard_false (ti : TimeoutInfo) (s : State)
  (Hh : ti_height ti = height s) (Hr : round s <= ti_round ti)
  (Hs : ti_round ti = round s -> RoundStepType.leb (step s) (ti_step ti) = true) :
  (negb (Z.eqb (ti_height ti) (height s)) || Z.ltb (ti_round ti) (round s)
   || (Z.eqb (ti_round ti) (round s) && RoundStepType.ltb (ti_step ti) (step s)))%bool = false.
Proof.
  rewrite Hh, Z.eqb_refl; cbn [negb orb].
  destruct (Z.ltb_spec (ti_round ti) (round s)); [lia | cbn [orb]].
  destruct (Z.eqb_spec (ti_round ti) (round s)) as [E|E]; [|reflexivity].
  cbn [andb]; specialize (Hs E).
  unfold RoundStepType.ltb; unfold RoundStepType.leb in Hs.
  rewrite Z.ltb_antisym, Hs; reflexivity.
Qed.

(** C4: a timeout that passes the staleness check runs the [switch] body of
    its step and then every later case body in order ([NewHeight]: enter
    round 0; [NewRound]: propose; [Propose]: prevote; [PrevoteWait]:
    precommit; [PrecommitWait]: precommit then next round), each starting
    once the previous one returned, and finally the [default] branch; a step
    with no case label goes to [default] directly. *)
Theorem handleTimeout_falls_through (ti : TimeoutInfo) (s : State)
  (Hh : ti_height ti = height s) (Hr : round s <= ti_round ti)
  (Hs : ti_round ti = round s -> RoundStepType.leb (step s) (ti_step ti) = true) :
  let h := ti_height ti in
  let r := ti_round ti in
  let newHeight := enterNewRound h 0 in
  let newRound := enterPropose h 0 in
  let propose := enterPrevote h r in
  let prevoteWait := enterPrecommit h r in
  let precommitWait := (enterPrecommit h r;; enterNewRound h (r + 1)) in
  let dflt := fail "invalid timeout step" in
  handleTimeout ti s =
  (match ti_step ti with
   | RoundStepType.NewHeight => newHeight;; newRound;; propose;; prevoteWait;; precommitWait;; dflt
   | RoundStepType.NewRound => newRound;; propose;; prevoteWait;; precommitWait;; dflt
   | RoundStepType.Propose => propose;; prevoteWait;; precommitWait;; dflt
   | RoundStepType.PrevoteWait => prevoteWait;; precommitWait;; dflt
   | RoundStepType.PrecommitWait => precommitWait;; dflt
   | RoundStepType.Prevote | RoundStepType.Precommit | RoundStepType.Commit => dflt
   end) s.
Proof.
  intros h r newHeight newRound propose prevoteWait precommitWait dflt.
  unfold handleTimeout; sm_step.
  rewrite (handleTimeout_guard_false ti s Hh Hr Hs).
  destruct (ti_step ti); reflexivity.
Qed.


Lemma handleTimeout_falls_through_witness :
  (ti_height ti_newHeight = height s_new_height /\ round s_new_height <= ti_round ti_newHeight
   /\ (ti_round ti_newHeight = round s_new_height ->
       RoundStepType.leb (step s_new_height) (ti_step ti_newHeight) = true))
  /\ (let h := ti_height ti_newHeight in
      let r := ti_round ti_newHeight in
      let newHeight := enterNewRound h 0 in
      let newRound := enterPropose h 0 in
      let propose := enterPrevote h r in
      let prevoteWait := enterPrecommit h r in
      let precommitWait := (enterPrecommit h r;; enterNewRound h (r + 1)) in
      let dflt := fail "invalid timeout step" in
      handleTimeout ti_newHeight s_new_height =
      (match ti_step ti_newHeight with
       | RoundStepType.NewHeight => newHeight;; newRound;; propose;; prevoteWait;; precommitWait;; dflt
       | RoundStepType.NewRound => newRound;; propose;; prevoteWait;; precommitWait;; dflt
       | RoundStepType.Propose => propose;; prevoteWait;; precommitWait;; dflt
       | RoundStepType.PrevoteWait => prevoteWait;; precommitWait;; dflt
       | RoundStepType.PrecommitWait => precommitWait;; dflt
       | RoundStepType.Prevote | RoundStepType.Precommit | RoundStepType.Commit => dflt
       end) s_new_height).
Proof.
  assert (H1 : ti_height ti_newHeight = height s_new_height) by reflexivity.
  assert (H2 : round s_new_height <= ti_round ti_newHeight) by (simpl; lia).
  assert (H3 : ti_round ti_newHeight = round s_new_height ->
               RoundStepType.leb (step s_new_height) (ti_step ti_newHeight) = true)
    by (intros _; reflexivity).
  split; [split; [exact H1 | split; [exact H2 | exact H3]] |].
  exact (handleTimeout_falls_through ti_newHeight s_new_height H1 H2 H3).
Defined.


(** Symbolic execution of a computation in the hypotheses: splits on every
    [match] and inverts equations between outcomes. *)
Ltac run_all :=
  repeat (cbv beta iota in *;
          match goal with
          | H : (_, _) = (_, _) |- _ => inversion H; clear H; subst
          | H : context [match ?x with _ => _ end] |- _ =>
              lazymatch x with
              | (_, _) => fail
              | _ => destruct x eqn:?
              end
          end).

(** *** Precommit majorities are never lost *)


Lemma maj_kept_refl (a : HeightVoteSet) : maj_kept a a.
Proof. intros r H E; exact E. Qed.

Lemma maj_kept_trans (a b c : HeightVoteSet) : maj_kept a b -> maj_kept b c -> maj_kept a c.
Proof. intros H1 H2 r H E; auto. Qed.

Lemma maj_kept_lookup (a b : HeightVoteSet) :
  (forall r p, lookup_round r (hvs_roundVoteSets a) = Some p ->
               lookup_round r (hvs_roundVoteSets b) = Some p) -> maj_kept a b.
Proof.
  intros L r H; unfold precommits_maj23, precommits.
  destruct (lookup_round r (hvs_roundVoteSets a)) as [p|] eqn:E; [|discriminate].
  rewrite (L r p E); auto.
Qed.

Lemma lookup_addRound (hvs : HeightVoteSet) (r r' : Z) (p : VoteSet * VoteSet) :
  lookup_round r (hvs_roundVoteSets hvs) = Some p ->
  lookup_round r (hvs_roundVoteSets (addRound hvs r')) = Some p.
Proof.
  intros E; unfold addRound.
  destruct (lookup_round r' (hvs_roundVoteSets hvs)) eqn:E'; [exact E|].
  cbn [with_round_sets hvs_roundVoteSets lookup_round].
  destruct (Z.eqb_spec r r'); [subst; congruence | exact E].
Qed.

Lemma maj_kept_setRound (hvs : HeightVoteSet) (r : Z) : maj_kept hvs (setRound hvs r).
Proof.
  apply maj_kept_lookup; intros r0 p E; unfold setRound; cbn [hvs_roundVoteSets].
  generalize (seq 0 (Z.to_nat (r + 1))) as l; intros l.
  revert hvs E; induction l as [|n l IH]; intros hvs E; [exact E|].
  cbn [fold_left]; apply IH, lookup_addRound, E.
Qed.

Lemma vs_addVote_maj (vs vs' : VoteSet) (v : Vote) (b : bool) (H : Z) :
  vs_addVote vs v = inl (vs', b) -> vset_maj23 vs = Some H -> vset_maj23 vs' = Some H.
Proof.
  unfold vs_addVote; intros E M.
  repeat match type of E with
         | context [if ?c then _ else _] => destruct c
         | context [match ?x with _ => _ end] =>
             lazymatch x with (_, _) => fail | _ => destruct x eqn:? end
         end; inversion E; subst; cbn [vset_maj23]; congruence.
Qed.

Lemma lookup_update_round (r r' : Z) (p : VoteSet * VoteSet) l :
  lookup_round r (update_round r' p l) =
  if Z.eqb r r' then option_map (fun _ => p) (lookup_round r l) else lookup_round r l.
Proof.
  induction l as [|[k q] l IH]; cbn [update_round lookup_round].
  - destruct (Z.eqb r r'); reflexivity.
  - destruct (Z.eqb_spec r' k) as [E|E]; cbn [lookup_round].
    + subst k; destruct (Z.eqb_spec r r'); reflexivity.
    + rewrite IH; destruct (Z.eqb_spec r k); destruct (Z.eqb_spec r r'); subst; try reflexivity; congruence.
Qed.

Lemma maj_kept_add_to_round (hvs hvs' : HeightVoteSet) (v : Vote) (b : bool) :
  add_to_round hvs v = inl (hvs', b) -> maj_kept hvs hvs'.
Proof.
  unfold add_to_round; intros E r H M.
  destruct (lookup_round (vote_round v) (hvs_roundVoteSets hvs)) as [[pv pc]|] eqn:L;
    [| inversion E; subst; exact M].
  unfold precommits_maj23, precommits in *.
  destruct (vote_type v).
  - destruct (vs_addVote pv v) as [[pv' a]|e] eqn:A; inversion E; subst; clear E.
    cbn [with_round_sets hvs_roundVoteSets]; rewrite lookup_update_round.
    destruct (Z.eqb_spec r (vote_round v)); [subst r; rewrite L in *; exact M | exact M].
  - destruct (vs_addVote pc v) as [[pc' a]|e] eqn:A; inversion E; subst; clear E.
    cbn [with_round_sets hvs_roundVoteSets]; rewrite lookup_update_round.
    destruct (Z.eqb_spec r (vote_round v)); [subst r; rewrite L in *; cbn in *| exact M].
    eapply vs_addVote_maj; eauto.
  - inversion E; subst; exact M.
Qed.

Lemma maj_kept_hvs_addVote (hvs hvs' : HeightVoteSet) (v : Vote) (p : string) (b : bool) :
  hvs_addVote hvs v p = inl (hvs', b) -> maj_kept hvs hvs'.
Proof.
  unfold hvs_addVote; intros E.
  destruct (vote_type v) eqn:T; [| | inversion E; subst; apply maj_kept_refl].
  all: destruct (lookup_round (vote_round v) (hvs_roundVoteSets hvs)) eqn:L;
    [eapply maj_kept_add_to_round; eauto |].
  all: destruct (Nat.ltb _ 2); [| inversion E; subst; apply maj_kept_refl].
  all: eapply maj_kept_trans; [| eapply maj_kept_add_to_round; exact E].
  all: apply maj_kept_lookup; intros r0 q Q; cbn [hvs_roundVoteSets]; apply lookup_addRound, Q.
Qed.

(** *** Progress of the round state *)





Ltac bprop :=
  repeat match goal with
         | H : (_ || _)%bool = false |- _ => apply orb_false_iff in H; destruct H
         | H : (_ || _)%bool = true |- _ => apply orb_true_iff in H; destruct H
         | H : (_ && _)%bool = true |- _ => apply andb_true_iff in H; destruct H
         | H : (_ && _)%bool = false |- _ => apply andb_false_iff in H; destruct H
         | H : negb _ = true |- _ => apply negb_true_iff in H
         | H : negb _ = false |- _ => apply negb_false_iff in H
         | H : Z.eqb _ _ = true |- _ => apply Z.eqb_eq in H
         | H : Z.eqb _ _ = false |- _ => apply Z.eqb_neq in H
         | H : Z.ltb _ _ = true |- _ => apply Z.ltb_lt in H
         | H : Z.ltb _ _ = false |- _ => apply Z.ltb_ge in H
         | H : Z.leb _ _ = true |- _ => apply Z.leb_le in H
         | H : Z.leb _ _ = false |- _ => apply Z.leb_gt in H
         end.

(** Facts about the transitions called on the way. *)
Ltac collect :=
  repeat match goal with
         | H : ?m ?x = (?y, _) |- _ =>
             let R := fresh "R" in
             pose proof (steady (m := m) x) as R; rewrite H in R; cbn [fst] in R; clear H
         end.

Ltac commit_chain :=
  repeat match goal with
         | F : step ?b = RoundStepType.Commit -> _, Hc : step ?b = RoundStepType.Commit |- _ =>
             specialize (F Hc); destruct F
         end.

Ltac finish_rel :=
  unfold Rel, progress, commit_frame in *; st_simpl;
  cbv [RoundStepType.leb RoundStepType.ltb RoundStepType.eqb] in *; bprop;
  cbn [RoundStepType.val] in *;
  repeat match goal with H : _ /\ _ |- _ => destruct H end;
  repeat split;
  try discriminate;
  lazymatch goal with
  | |- maj_kept _ _ => solve [eauto using maj_kept_trans, maj_kept_refl, maj_kept_setRound]
  | |- step _ = _ => commit_chain; congruence
  | |- commitRound _ = _ => commit_chain; congruence
  | |- _ => lia
  end.

Ltac sym_exec F f :=
  let s := fresh "s" in
  let s' := fresh "s'" in
  let res := fresh "res" in
  let Hrun := fresh "Hrun" in
  intro s; destruct (F s) as [s' res] eqn:Hrun; cbn [fst]; unfold f in Hrun;
  cbv [bind ret get modify throw fail when catch signVote sign push newStep emit schedule
       decideProposal createBlockAndProposal tryFinalizeCommit] in Hrun;
  run_all; collect.

#[export] Instance enterPrevote_steady (h r : Z) : Steady (enterPrevote h r).
Proof. sym_exec (enterPrevote h r) enterPrevote. all: finish_rel. Qed.

#[export] Instance tryFinalizeCommit_steady (h : Z) : Steady (tryFinalizeCommit h).
Proof. sym_exec (tryFinalizeCommit h) tryFinalizeCommit. all: finish_rel. Qed.

#[export] Instance enterPrevoteWait_steady (h r : Z) : Steady (enterPrevoteWait h r).
Proof. sym_exec (enterPrevoteWait h r) enterPrevoteWait. all: finish_rel. Qed.

#[export] Instance enterPrecommit_steady (h r : Z) : Steady (enterPrecommit h r).
Proof. sym_exec (enterPrecommit h r) enterPrecommit. all: finish_rel. Qed.

#[export] Instance enterPrecommitWait_steady (h r : Z) : Steady (enterPrecommitWait h r).
Proof. sym_exec (enterPrecommitWait h r) enterPrecommitWait. all: finish_rel. Qed.

#[export] Instance enterPropose_steady (h r : Z) : Steady (enterPropose h r).
Proof. sym_exec (enterPropose h r) enterPropose. all: finish_rel. Qed.

#[export] Instance enterNewRound_steady (h r : Z) : Steady (enterNewRound h r).
Proof. sym_exec (enterNewRound h r) enterNewRound. all: finish_rel. Qed.

Lemma Rel_refl (s : State) : Rel s s.
Proof.
  unfold Rel, progress, commit_frame; repeat split; try lia; auto using maj_kept_refl.
Qed.

Lemma Rel_trans (a b c : State) : Rel a b -> Rel b c -> Rel a c.
Proof.
  unfold Rel, progress, commit_frame.
  intros [[H1 [H2 H3]] [M1 C1]] [[H4 [H5 H6]] [M2 C2]].
  split; [split; [lia | split; lia] | split; [eauto using maj_kept_trans |]].
  intros Hc; destruct (C2 Hc) as [Hb E]; destruct (C1 Hb) as [Ha E']; split; congruence.
Qed.

Lemma steady_bind {A B} (m : M A) (k : A -> M B) :
  Steady m -> (forall a, Steady (k a)) -> Steady (bind m k).
Proof.
  intros Hm Hk s; unfold bind; specialize (Hm s).
  destruct (m s) as [s1 [a|e]]; cbn [fst] in *; [eapply Rel_trans; [exact Hm | apply Hk] | exact Hm].
Qed.

Lemma steady_get_bind {B} (k : State -> M B) : (forall s0, Steady (k s0)) -> Steady (bind get k).
Proof. intros Hk s; apply Hk. Qed.

Lemma steady_modify (f : State -> State) : (forall s, Rel s (f s)) -> Steady (modify f).
Proof. intros Hf s; apply Hf. Qed.

Lemma steady_ret {A} (a : A) : Steady (ret a).
Proof. intros s; apply Rel_refl. Qed.

Lemma steady_throw {A} (e : Error) : Steady (@throw A e).
Proof. intros s; apply Rel_refl. Qed.

Lemma steady_catch {A} (m : M A) (h : Error -> M A) :
  Steady m -> (forall e, Steady (h e)) -> Steady (catch m h).
Proof.
  intros Hm Hh s; unfold catch; specialize (Hm s).
  destruct (m s) as [s1 [a|e]]; cbn [fst] in *; [exact Hm | eapply Rel_trans; [exact Hm | apply Hh]].
Qed.

Ltac frame_rel :=
  intros; unfold Rel, progress, commit_frame; st_simpl;
  repeat split; try lia; auto using maj_kept_refl.

(** Splits a computation into its statements. *)
Ltac steady_tac :=
  cbv zeta;
  lazymatch goal with
  | |- Steady (bind get _) => apply steady_get_bind; intro; steady_tac
  | |- Steady (bind _ _) => apply steady_bind; [steady_tac | intro; steady_tac]
  | |- Steady (catch _ _) => apply steady_catch; [steady_tac | intro; steady_tac]
  | |- Steady (modify _) => apply steady_modify; frame_rel
  | |- Steady (ret _) => apply steady_ret
  | |- Steady (throw _) => apply steady_throw
  | |- Steady (fail _) => apply steady_throw
  | |- Steady (when _ _) => unfold when; steady_tac
  | |- Steady (if ?c then _ else _) => destruct c; steady_tac
  | |- Steady (match ?x with _ => _ end) => destruct x; steady_tac
  | |- Steady (emit _) => unfold emit; steady_tac
  | |- Steady (push _) => unfold push; steady_tac
  | |- Steady (schedule _) => unfold schedule; steady_tac
  | |- Steady (reportConflictingVotes _ _) => unfold reportConflictingVotes; steady_tac
  | |- Steady _ => exact _
  end.

#[export] Instance setProposal_steady (p : Proposal) : Steady (setProposal p).
Proof. unfold setProposal; steady_tac. Qed.

#[export] Instance addProposalBlock_steady (b : Block) : Steady (addProposalBlock b).
Proof. unfold addProposalBlock; steady_tac. Qed.

#[export] Instance prevotePath_steady (v : Vote) : Steady (prevotePath v).
Proof. unfold prevotePath; steady_tac. Qed.

#[export] Instance handleTimeout_steady (ti : TimeoutInfo) : Steady (handleTimeout ti).
Proof. unfold handleTimeout; cbv [switch fall_through map snd]; steady_tac. Qed.

(** *** Commit only with a non-nil precommit majority *)




Lemma Rel'_refl (s : State) : Rel' s s.
Proof. unfold Rel', progress; repeat split; try lia; auto using maj_kept_refl. Qed.

Lemma Rel'_trans (a b c : State) : Rel' a b -> Rel' b c -> Rel' a c.
Proof.
  unfold Rel', progress.
  intros [[H1 [H2 H3]] [M1 I1]] [[H4 [H5 H6]] [M2 I2]].
  split; [split; [lia | split; lia] | split; [eauto using maj_kept_trans | auto]].
Qed.

Lemma Rel_Rel' (s s' : State) : Rel s s' -> Rel' s s'.
Proof.
  intros [P [M C]]; split; [exact P | split; [exact M |]].
  intros I Hc; destruct (C Hc) as [Hs E]; destruct (I Hs) as [H [EH NH]].
  exists H; split; [rewrite E; apply M, EH | exact NH].
Qed.

#[export] Instance steady_good {A} (m : M A) : Steady m -> Good m.
Proof. intros Hm s; apply Rel_Rel', Hm. Qed.

Lemma good_bind {A B} (m : M A) (k : A -> M B) :
  Good m -> (forall a, Good (k a)) -> Good (bind m k).
Proof.
  intros Hm Hk s; unfold bind; specialize (Hm s).
  destruct (m s) as [s1 [a|e]]; cbn [fst] in *; [eapply Rel'_trans; [exact Hm | apply Hk] | exact Hm].
Qed.

Lemma good_get_bind {B} (k : State -> M B) : (forall s0, Good (k s0)) -> Good (bind get k).
Proof. intros Hk s; apply Hk. Qed.

Lemma good_ret {A} (a : A) : Good (ret a).
Proof. intros s; apply Rel'_refl. Qed.

Lemma good_throw {A} (e : Error) : Good (@throw A e).
Proof. intros s; apply Rel'_refl. Qed.

Lemma good_catch {A} (m : M A) (h : Error -> M A) :
  Good m -> (forall e, Good (h e)) -> Good (catch m h).
Proof.
  intros Hm Hh s; unfold catch; specialize (Hm s).
  destruct (m s) as [s1 [a|e]]; cbn [fst] in *; [exact Hm | eapply Rel'_trans; [exact Hm | apply Hh]].
Qed.

Ltac good_tac :=
  cbv zeta;
  lazymatch goal with
  | |- Good (bind get _) => apply good_get_bind; intro; good_tac
  | |- Good (bind _ _) => apply good_bind; [good_tac | intro; good_tac]
  | |- Good (catch _ _) => apply good_catch; [good_tac | intro; good_tac]
  | |- Good (ret _) => apply good_ret
  | |- Good (throw _) => apply good_throw
  | |- Good (fail _) => apply good_throw
  | |- Good (when _ _) => unfold when; good_tac
  | |- Good (if ?c then _ else _) => destruct c; good_tac
  | |- Good (match ?x with _ => _ end) => destruct x; good_tac
  | |- Good _ => exact _
  end.

#[export] Instance votes_addVote_steady (v : Vote) (p : string) : Steady (votes_addVote v p).
Proof.
  intros s; unfold votes_addVote.
  destruct (hvs_addVote (votes s) v p) as [[hvs' a]|e] eqn:E; cbn [fst]; [| apply Rel_refl].
  unfold Rel, progress, commit_frame; st_simpl.
  split; [repeat split; lia | split; [eapply maj_kept_hvs_addVote; exact E | auto]].
Qed.

#[export] Instance emit_steady (e : Event) : Steady (emit e).
Proof. unfold emit; steady_tac. Qed.

#[export] Instance reportConflictingVotes_steady (a b : Vote) : Steady (reportConflictingVotes a b).
Proof. unfold reportConflictingVotes; steady_tac. Qed.

Lemma enterCommit_rel (h r : Z) (s : State) :
  progress s (fst (enterCommit h r s)) /\ maj_kept (votes s) (votes (fst (enterCommit h r s))).
Proof.
  destruct (enterCommit h r s) as [s' res] eqn:Hrun; cbn [fst].
  unfold enterCommit in Hrun.
  cbv [bind ret get modify throw fail when catch signVote sign push newStep emit schedule
       decideProposal createBlockAndProposal tryFinalizeCommit] in Hrun.
  run_all; unfold progress; st_simpl;
    cbv [RoundStepType.leb RoundStepType.ltb RoundStepType.eqb] in *; bprop;
    cbn [RoundStepType.val] in *;
    repeat split; try lia; apply maj_kept_refl.
Qed.

(** [enterCommit] reaches [Commit] only in a round whose precommit majority
    exists; a caller that checked it non-nil keeps the invariant. *)
Lemma enterCommit_inv (h r : Z) (s : State) :
  inv s -> (forall H, precommits_maj23 (votes s) r = Some H -> H <> EMPTY_HASH) ->
  inv (fst (enterCommit h r s)).
Proof.
  intros I NZ.
  destruct (enterCommit h r s) as [s' res] eqn:Hrun; cbn [fst].
  unfold enterCommit in Hrun.
  cbv [bind ret get modify throw fail when catch signVote sign push newStep emit schedule
       decideProposal createBlockAndProposal tryFinalizeCommit] in Hrun.
  run_all; unfold inv in *; st_simpl; intros Hc; try (exact (I Hc)).
  all: match goal with
       | E : precommits_maj23 ?v ?r = Some ?x |- exists H, precommits_maj23 ?v ?r = Some H /\ _ =>
           exists x; split; [exact E | apply NZ; congruence]
       end.
Qed.

Lemma rel'_seq {A B} (m : M A) (k : A -> M B) (s : State) :
  Rel' s (fst (m s)) ->
  (forall s1 a, m s = (s1, Ok a) -> Rel' s s1 -> Rel' s1 (fst (k a s1))) ->
  Rel' s (fst (bind m k s)).
Proof.
  intros Hm Hk; unfold bind.
  destruct (m s) as [s1 [a|e]] eqn:E; cbn [fst] in *; [| exact Hm].
  eapply Rel'_trans; [exact Hm | apply (Hk s1 a eq_refl Hm)].
Qed.

(** Closes [Rel' s (fst (m s))] for a computation [m] built from [Good] parts. *)
Ltac by_good :=
  match goal with
  | |- Rel' ?x (fst (?m ?x)) => let G := fresh "G" in assert (G : Good m) by good_tac; exact (G x)
  end.

#[export] Instance precommitPath_good (v : Vote) : Good (precommitPath v).
Proof.
  intros s; unfold precommitPath; rewrite bind_get; cbv zeta.
  destruct (precommits (votes s) (vote_round v)) as [vs|] eqn:Epc;
    [destruct (vset_maj23 vs) as [mh|] eqn:Emh|].
  2,3: by_good.
  assert (M0 : precommits_maj23 (votes s) (vote_round v) = Some mh)
    by (unfold precommits_maj23; rewrite Epc; exact Emh).
  rewrite bind_get; apply rel'_seq; [apply good |]; intros sA [] _ RA.
  rewrite bind_get; apply rel'_seq; [apply good |]; intros sB [] _ RB.
  pose proof (Rel'_trans _ _ _ RA RB) as [_ [MB _]].
  apply MB in M0.
  destruct (negb (isEmptyHash mh)) eqn:Ene; [| by_good].
  rewrite bind_get; apply rel'_seq.
  - destruct (enterCommit_rel (height sB) (vote_round v) sB) as [P K].
    split; [exact P | split; [exact K |]].
    intros I; apply enterCommit_inv; [exact I |].
    intros H EH; rewrite M0 in EH; injection EH as <-.
    unfold isEmptyHash in Ene; apply negb_true_iff, Z.eqb_neq in Ene; exact Ene.
  - intros sC [] _ _; by_good.
Qed.

#[export] Instance addVote_good (v : Vote) (p : string) : Good (addVote v p).
Proof. unfold addVote; cbv [switch fall_through map snd]; good_tac. Qed.

#[export] Instance tryAddVote_good (v : Vote) (p : string) : Good (tryAddVote v p).
Proof. unfold tryAddVote; good_tac. Qed.

#[export] Instance handleMsg_good (p : string) (m : Message) : Good (handleMsg p m).
Proof. unfold handleMsg; good_tac. Qed.

#[export] Instance msgLoopStep_good (m : StateMachineMessage) : Good (msgLoopStep m).
Proof. unfold msgLoopStep; good_tac. Qed.

(** *** Reachable states *)

Lemma newBlockHeader_inv (hdr : BlockHeader) (vals : ValidatorSet) (s : State) :
  inv s -> inv (fst (newBlockHeader hdr vals s)).
Proof.
  intros I; unfold newBlockHeader; rewrite bind_get.
  destruct (_ && _)%bool; [exact I |].
  cbv [bind ret get modify throw fail when newStep emit schedule push]; st_simpl.
  intros Hc; discriminate.
Qed.



(** C2: in every state reachable from a state at step [NewHeight] by
    message-loop steps (messages and timeouts, errors caught) and
    [newBlockHeader] calls, step [Commit] comes with a non-nil two-thirds
    precommit majority in the commit round: [enterCommit(h, r)] reaches
    [Commit] only through [addVote] after checking that [precommits(r).maj23]
    is not the empty hash, and neither the step nor the commit round nor the
    majority changes afterwards within the height. *)
Theorem reachable_commit_has_precommit_majority (s : State) :
  reachable s -> step s = RoundStepType.Commit ->
  exists H, precommits_maj23 (votes s) (commitRound s) = Some H /\ H <> EMPTY_HASH.
Proof.
  intros R; change (inv s); induction R.
  - intros Hc; congruence.
  - apply (msgLoopStep_good m s), IHR.
  - apply newBlockHeader_inv, IHR.
Qed.

Lemma reachable_commit_has_precommit_majority_witness :
  reachable delivered /\ step delivered = RoundStepType.Commit /\
  exists H, precommits_maj23 (votes delivered) (commitRound delivered) = Some H /\ H <> EMPTY_HASH.
Proof.
  assert (R : reachable delivered)
    by (unfold delivered; repeat apply reach_msg; apply reach_init; reflexivity).
  assert (C : step delivered = RoundStepType.Commit) by (vm_compute; reflexivity).
  split; [exact R | split; [exact C | apply (reachable_commit_has_precommit_majority delivered R C)]].
Defined.

(** *** Guards *)





(** *** Block hashes *)

Lemma formatHeaderData_length (data : Reimint.HeaderData) :
  exists e, Reimint.hd_extraData (Reimint.formatHeaderData data) = Some e /\
            List.length e = Reimint.CLIQUE_EXTRA_VANITY.
Proof.
  unfold Reimint.formatHeaderData.
  destruct (Reimint.hd_extraData data) as [e|]; [destruct (Nat.ltb_spec Reimint.CLIQUE_EXTRA_VANITY (List.length e))|];
    cbn [Reimint.hd_extraData]; eexists; (split; [reflexivity |]).
  all: first [ apply firstn_length_le; lia
             | unfold Reimint.setLengthLeft; rewrite length_app, repeat_length; lia
             | apply repeat_length ].
Qed.

Lemma deserialize_serialize (ed : Reimint.ExtraData) :
  Reimint.deserialize (Reimint.serialize ed) =
  Some (Reimint.mkDecodedExtraData (Reimint.ed_round ed) (Reimint.ed_commitRound ed)
          (Reimint.ed_POLRound ed) (Reimint.ed_evidence ed) (Reimint.ed_proposal ed)
          (Reimint.serializeVotes (Reimint.ed_voteSet ed))).
Proof.
  destruct ed as [r cr pol ev [ph pr ppol phash pts psig] vs]; unfold Reimint.serialize, Reimint.deserialize.
  cbn [Reimint.ed_round Reimint.ed_commitRound Reimint.ed_POLRound Reimint.ed_evidence
       Reimint.ed_proposal Reimint.ed_voteSet Reimint.serializeProposal
       prop_height prop_round prop_POLRound prop_hash prop_timestamp prop_signer app].
  rewrite Nat2Z.id, firstn_app, Nat.sub_diag, firstn_O, app_nil_r, firstn_all, Nat.eqb_refl.
  rewrite skipn_app, Nat.sub_diag, skipn_O, skipn_all.
  cbn [app]; rewrite Nat2Z.id, Nat.eqb_refl; reflexivity.
Qed.

(** C7: a finalized block's hash (the hash function installed for Reimint
    headers) is the hash of the proposal it carries, whatever the precommit
    vote set: two blocks finalized from the same header data, transactions,
    evidence, proposal and commit round with different vote sets have the
    same hash. *)
Theorem generateFinalizedBlock_hash_ignores_votes
  (rlphash : list Reimint.Buffer -> Z) (data : Reimint.HeaderData) (txs : list Z)
  (evidence : list Reimint.Evidence) (p : Proposal) (commitRound : Z) (vs1 vs2 : VoteSet)
  (common : Reimint.Common)
  (Hcommon : Reimint.getConsensusTypeByCommon common = Some Reimint.ReimintType) :
  Reimint.customHashFunction rlphash
    (Reimint.blk_header (Reimint.generateFinalizedBlock data txs evidence p commitRound vs1 common))
  = Reimint.customHashFunction rlphash
    (Reimint.blk_header (Reimint.generateFinalizedBlock data txs evidence p commitRound vs2 common))
  /\ Reimint.customHashFunction rlphash
    (Reimint.blk_header (Reimint.generateFinalizedBlock data txs evidence p commitRound vs1 common))
  = Some (prop_hash p).
Proof.
  assert (K : forall vs, Reimint.customHashFunction rlphash
    (Reimint.blk_header (Reimint.generateFinalizedBlock data txs evidence p commitRound vs common))
    = Some (prop_hash p)).
  { intros vs.
    destruct (formatHeaderData_length data) as [e [Ee Le]].
    unfold Reimint.generateFinalizedBlock, Reimint.customHashFunction, Reimint.calcBlockHash,
      Reimint.fromBlockHeader, Reimint.fromHeaderData; cbv zeta.
    rewrite Ee; cbn [Reimint.blk_header Reimint.bh_extraData Reimint.bh_common Reimint.hd_extraData].
    replace (Nat.leb (List.length (e ++ _)) Reimint.CLIQUE_EXTRA_VANITY) with false
      by (symmetry; apply Nat.leb_gt; rewrite length_app, Le;
          unfold Reimint.serialize; rewrite length_app; cbn [List.length]; lia).
    rewrite Hcommon, <- Le, skipn_app, Nat.sub_diag, skipn_all, skipn_O; cbn [app].
    rewrite deserialize_serialize; reflexivity. }
  rewrite !K; split; reflexivity.
Qed.


Lemma generateFinalizedBlock_hash_ignores_votes_witness :
  Reimint.getConsensusTypeByCommon common_mainnet = Some Reimint.ReimintType /\
  Reimint.customHashFunction (fun _ => 0)
    (Reimint.blk_header (Reimint.generateFinalizedBlock data0 [] [5] (mkProposal 1 0 (-1) 77 100 1) 0
       vs_committed common_mainnet))
  = Reimint.customHashFunction (fun _ => 0)
    (Reimint.blk_header (Reimint.generateFinalizedBlock data0 [] [5] (mkProposal 1 0 (-1) 77 100 1) 0
       (newVoteSet 9 1 0 VoteType.Precommit vals4) common_mainnet))
  /\ Reimint.customHashFunction (fun _ => 0)
    (Reimint.blk_header (Reimint.generateFinalizedBlock data0 [] [5] (mkProposal 1 0 (-1) 77 100 1) 0
       vs_committed common_mainnet))
  = Some (prop_hash (mkProposal 1 0 (-1) 77 100 1)).
Proof.
  assert (H : Reimint.getConsensusTypeByCommon common_mainnet = Some Reimint.ReimintType) by reflexivity.
  split; [exact H | apply (generateFinalizedBlock_hash_ignores_votes (fun _ => 0) data0 [] [5]
     (mkProposal 1 0 (-1) 77 100 1) 0 _ _ common_mainnet H)].
Defined.

(** *** Gas limit, staking and block generation *)

(** Gas limit *)
(** X1: a parent gas limit of exactly 10,000,000 (the floor and the ceiling)
    gives a next gas limit of 10,000,000, whatever non-negative gas the
    parent used. *)
Lemma calcGasLimit_target_fixed (parentGasUsed : Z) (Hused : 0 <= parentGasUsed) :
  Reimint.calcGasLimit 10000000 parentGasUsed = 10000000.
Proof.
  unfold Reimint.calcGasLimit, Reimint.minGasLimit, Reimint.gasLimitFloor, Reimint.gasLimitCeil.
  assert (Hc : 0 <= Z.quot (Z.quot (parentGasUsed * 3) 2) 1024)
    by (apply Z.quot_pos; [apply Z.quot_pos|]; lia).
  replace (Z.quot 10000000 1024) with 9765 by reflexivity.
  set (c := Z.quot (Z.quot (parentGasUsed * 3) 2) 1024) in *.
  destruct (Z.ltb_spec (10000000 - (9765 - 1) + c) 5000); [lia|].
  destruct (Z.ltb_spec (10000000 - (9765 - 1) + c) 10000000).
  - destruct (Z.gtb_spec (10000000 + (9765 - 1)) 10000000); lia.
  - destruct (Z.gtb_spec (10000000 - (9765 - 1) + c) 10000000); [|lia].
    destruct (Z.ltb_spec (10000000 - (9765 - 1)) 10000000); lia.
Qed.

(** X2: for a parent gas limit of at least 1024, the next gas limit moves
    toward 10,000,000 without passing it, whatever gas the parent used: from
    below it stays between the parent limit and 10,000,000, from above
    between 10,000,000 and the parent limit. *)
Lemma calcGasLimit_toward_target (parentGasLimit parentGasUsed : Z) (Hlimit : 1024 <= parentGasLimit) :
  (parentGasLimit <= 10000000 ->
   parentGasLimit <= Reimint.calcGasLimit parentGasLimit parentGasUsed <= 10000000) /\
  (10000000 <= parentGasLimit ->
   10000000 <= Reimint.calcGasLimit parentGasLimit parentGasUsed <= parentGasLimit).
Proof.
  unfold Reimint.calcGasLimit, Reimint.minGasLimit, Reimint.gasLimitFloor, Reimint.gasLimitCeil.
  rewrite (Z.quot_div_nonneg parentGasLimit 1024) by lia.
  pose proof (Z.div_mod parentGasLimit 1024 ltac:(lia)).
  pose proof (Z.mod_pos_bound parentGasLimit 1024 ltac:(lia)).
  set (q := parentGasLimit / 1024) in *; set (m := parentGasLimit mod 1024) in *.
  set (c := Z.quot (Z.quot (parentGasUsed * 3) 2) 1024).
  assert (1 <= q) by lia.
  set (l0 := parentGasLimit - (q - 1) + c).
  set (l1 := if l0 <? 5000 then 5000 else l0).
  assert (Hl1 : l1 = 5000 \/ l1 = l0) by (unfold l1; destruct (l0 <? 5000); auto).
  destruct (Z.ltb_spec l1 10000000).
  - destruct (Z.gtb_spec (parentGasLimit + (q - 1)) 10000000); lia.
  - destruct (Z.gtb_spec l1 10000000).
    + destruct (Z.ltb_spec (parentGasLimit - (q - 1)) 10000000); lia.
    + lia.
Qed.

(** X3: for a parent gas limit below 1024 ([decay] is then -1) and a gas
    used of at most 6,000,000,000, the next gas limit is the parent limit
    minus one: the 5000 minimum is not kept, and a parent limit of 0 gives
    -1. *)
Lemma calcGasLimit_small_parent (parentGasLimit parentGasUsed : Z)
  (Hlimit : 0 <= parentGasLimit < 1024) (Hused : 0 <= parentGasUsed <= 6000000000) :
  Reimint.calcGasLimit parentGasLimit parentGasUsed = parentGasLimit - 1.
Proof.
  unfold Reimint.calcGasLimit, Reimint.minGasLimit, Reimint.gasLimitFloor, Reimint.gasLimitCeil.
  rewrite (Z.quot_small parentGasLimit 1024) by lia.
  rewrite (Z.quot_div_nonneg (parentGasUsed * 3) 2) by lia.
  rewrite (Z.quot_div_nonneg (parentGasUsed * 3 / 2) 1024) by (try apply Z.div_pos; lia).
  assert (Hc : 0 <= parentGasUsed * 3 / 2 / 1024 <= 8789063).
  { split; [apply Z.div_pos; [apply Z.div_pos|]; lia|].
    apply Z.div_le_upper_bound; [lia|]. apply Z.div_le_upper_bound; lia. }
  set (c := parentGasUsed * 3 / 2 / 1024) in *.
  destruct (Z.ltb_spec (parentGasLimit - (0 - 1) + c) 5000).
  - destruct (Z.ltb_spec 5000 10000000); [|lia].
    destruct (Z.gtb_spec (parentGasLimit + (0 - 1)) 10000000); lia.
  - destruct (Z.ltb_spec (parentGasLimit - (0 - 1) + c) 10000000); [|lia].
    destruct (Z.gtb_spec (parentGasLimit + (0 - 1)) 10000000); lia.
Qed.

Lemma calcGasLimit_small_parent_witness :
  (0 <= 0 < 1024 /\ 0 <= 0 <= 6000000000) /\ Reimint.calcGasLimit 0 0 = 0 - 1.
Proof.
  split; [lia | apply (calcGasLimit_small_parent 0 0); lia].
Defined.

Lemma calcGasLimit_target_fixed_witness :
  0 <= 0 /\ Reimint.calcGasLimit 10000000 0 = 10000000.
Proof.
  split; [lia | apply (calcGasLimit_target_fixed 0); lia].
Defined.

Lemma calcGasLimit_toward_target_witness :
  1024 <= 8000000 /\
  (8000000 <= 10000000 -> 8000000 <= Reimint.calcGasLimit 8000000 5000000 <= 10000000) /\
  (10000000 <= 8000000 -> 10000000 <= Reimint.calcGasLimit 8000000 5000000 <= 8000000).
Proof.
  split; [lia | apply (calcGasLimit_toward_target 8000000 5000000); lia].
Defined.

(** X4: staking is enabled exactly on the chains and hardforks where the
    consensus type is Reimint, and [isEnableStaking] throws exactly where
    [getConsensusTypeByCommon] throws. *)
Lemma isEnableStaking_consensus_type (common : Reimint.Common) :
  Reimint.isEnableStaking common =
  option_map (fun t => match t with Reimint.ReimintType => true | Reimint.Clique => false end)
    (Reimint.getConsensusTypeByCommon common).
Proof.
  unfold Reimint.isEnableStaking, Reimint.getConsensusTypeByCommon.
  destruct (String.eqb _ "rei-testnet"); [destruct (Reimint.gteHf1 common)|]; try reflexivity.
  destruct (String.eqb _ "rei-mainnet"); [reflexivity|].
  destruct (String.eqb _ "rei-devnet"); reflexivity.
Qed.

(** X5: [formatHeaderData] is idempotent: formatting formatted header data
    changes nothing. *)
Lemma formatHeaderData_idempotent (data : Reimint.HeaderData) :
  Reimint.formatHeaderData (Reimint.formatHeaderData data) = Reimint.formatHeaderData data.
Proof.
  destruct (formatHeaderData_length data) as [e [Ee Le]].
  unfold Reimint.formatHeaderData at 1; rewrite Ee.
  replace (Nat.ltb Reimint.CLIQUE_EXTRA_VANITY (List.length e)) with false
    by (symmetry; apply Nat.ltb_ge; lia).
  unfold Reimint.setLengthLeft; rewrite Le, Nat.sub_diag; cbn [repeat app].
  rewrite <- Ee; unfold Reimint.formatHeaderData.
  destruct (Reimint.hd_extraData data); [destruct (Nat.ltb _ _)|]; reflexivity.
Qed.

Lemma formatHeaderData_frame (data : Reimint.HeaderData) :
  Reimint.hd_pre (Reimint.formatHeaderData data) = Reimint.hd_pre data /\
  Reimint.hd_post (Reimint.formatHeaderData data) = Reimint.hd_post data.
Proof.
  unfold Reimint.formatHeaderData.
  destruct (Reimint.hd_extraData data); [destruct (Nat.ltb _ _)|]; split; reflexivity.
Qed.

Lemma formatHeaderData_long (data : Reimint.HeaderData) (e : Reimint.Buffer) :
  Reimint.hd_extraData data = Some e -> (Reimint.CLIQUE_EXTRA_VANITY <= List.length e)%nat ->
  Reimint.hd_extraData (Reimint.formatHeaderData data) = Some (firstn Reimint.CLIQUE_EXTRA_VANITY e).
Proof.
  intros Ee Le; unfold Reimint.formatHeaderData; rewrite Ee.
  destruct (Nat.ltb_spec Reimint.CLIQUE_EXTRA_VANITY (List.length e)); [reflexivity|].
  cbn [Reimint.hd_extraData]; unfold Reimint.setLengthLeft.
  replace (Reimint.CLIQUE_EXTRA_VANITY - List.length e)%nat with 0%nat by lia.
  rewrite firstn_all2 by lia; reflexivity.
Qed.

(** After a 32-item vanity, the serialized extra data is what is decoded. *)
Lemma vanity_length (fe : Reimint.Buffer) (ed : Reimint.ExtraData) :
  List.length fe = Reimint.CLIQUE_EXTRA_VANITY ->
  (Reimint.CLIQUE_EXTRA_VANITY < List.length (fe ++ Reimint.serialize ed))%nat.
Proof.
  intros Le; rewrite length_app, Le; unfold Reimint.serialize; rewrite length_app; cbn [List.length]; lia.
Qed.

Lemma fromBlockHeader_vanity (pre post : list Reimint.Buffer) (fe : Reimint.Buffer)
  (common : Reimint.Common) (ed : Reimint.ExtraData) :
  List.length fe = Reimint.CLIQUE_EXTRA_VANITY ->
  Reimint.fromBlockHeader (Reimint.mkBlockHeader pre (fe ++ Reimint.serialize ed) post common) =
  Some (Reimint.mkDecodedExtraData (Reimint.ed_round ed) (Reimint.ed_commitRound ed)
          (Reimint.ed_POLRound ed) (Reimint.ed_evidence ed) (Reimint.ed_proposal ed)
          (Reimint.serializeVotes (Reimint.ed_voteSet ed))).
Proof.
  intros Le; unfold Reimint.fromBlockHeader; cbn [Reimint.bh_extraData].
  rewrite <- Le, skipn_app, Nat.sub_diag, skipn_all, skipn_O; cbn [app].
  apply deserialize_serialize.
Qed.

Lemma nth_set_nth_middle {A} (l r : list A) (x y d : A) :
  nth (List.length l) (l ++ x :: r) d = x /\
  Reimint.set_nth (List.length l) y (l ++ x :: r) = l ++ y :: r.
Proof.
  induction l as [|a l IH]; cbn; [split; reflexivity|].
  destruct IH as [IH1 IH2]; rewrite IH2; split; [exact IH1 | reflexivity].
Qed.

Lemma calcBlockHeaderRawHash_pre12 rlphash Evidence_hash (h : Reimint.BlockHeader) ev :
  List.length (Reimint.bh_pre h) = 12%nat ->
  Reimint.calcBlockHeaderRawHash rlphash Evidence_hash h ev =
  rlphash (Reimint.bh_pre h ++
           (firstn Reimint.CLIQUE_EXTRA_VANITY (Reimint.bh_extraData h) ++ map Evidence_hash ev)
           :: Reimint.bh_post h).
Proof.
  intros L; unfold Reimint.calcBlockHeaderRawHash, Reimint.raw; cbv zeta; rewrite <- L.
  change (@Reimint.set_nth (list Z)) with (@Reimint.set_nth Reimint.Buffer).
  rewrite (proj1 (nth_set_nth_middle (A:=Reimint.Buffer) (Reimint.bh_pre h) (Reimint.bh_post h)
                      (Reimint.bh_extraData h) [] [])).
  rewrite (proj2 (nth_set_nth_middle (A:=Reimint.Buffer) (Reimint.bh_pre h) (Reimint.bh_post h)
                      (Reimint.bh_extraData h)
                      (firstn Reimint.CLIQUE_EXTRA_VANITY (Reimint.bh_extraData h) ++ map Evidence_hash ev) [])).
  reflexivity.
Qed.

(** X6: with a signer, [generateBlockAndProposal] returns a proposal whose
    hash is the raw hash of the header built from the unformatted data with
    the evidence; on a Reimint chain the returned block's hash is that
    proposal hash and its miner is the signer. *)
Theorem generateBlockAndProposal_signed rlphash Evidence_hash (data : Reimint.HeaderData)
  (transactions : list Z) (options : Reimint.ReimintBlockOptions) (timestamp signer : Z)
  (Hsigner : Reimint.opt_signer options = Some signer)
  (Hcommon : Reimint.getConsensusTypeByCommon (Reimint.opt_common options) = Some Reimint.ReimintType) :
  exists p,
    snd (Reimint.generateBlockAndProposal rlphash Evidence_hash data transactions options timestamp) = Some p /\
    prop_hash p = Reimint.calcBlockHeaderRawHash rlphash Evidence_hash
                    (Reimint.fromHeaderData data (Reimint.opt_common options))
                    (match Reimint.opt_evidence options with Some e => e | None => [] end) /\
    Reimint.customHashFunction rlphash (Reimint.blk_header
      (fst (Reimint.generateBlockAndProposal rlphash Evidence_hash data transactions options timestamp)))
      = Some (prop_hash p) /\
    Reimint.getMiner (Reimint.blk_header
      (fst (Reimint.generateBlockAndProposal rlphash Evidence_hash data transactions options timestamp)))
      = Some signer.
Proof.
  destruct (formatHeaderData_length data) as [fe [Ee Le]].
  unfold Reimint.generateBlockAndProposal, Reimint.generateBlockHeaderAndProposal; rewrite Hsigner.
  cbv zeta; cbn [fst snd Reimint.blk_header]; rewrite Ee.
  eexists; split; [reflexivity|]; split; [reflexivity|].
  unfold Reimint.fromHeaderData; cbn [Reimint.hd_extraData Reimint.hd_pre Reimint.hd_post].
  split.
  - unfold Reimint.customHashFunction, Reimint.calcBlockHash; cbn [Reimint.bh_extraData Reimint.bh_common].
    replace (Nat.leb _ _) with false by (symmetry; apply Nat.leb_gt; apply vanity_length; exact Le).
    rewrite Hcommon, (fromBlockHeader_vanity _ _ _ _ _ Le); reflexivity.
  - unfold Reimint.getMiner; cbn [Reimint.bh_extraData].
    replace (Nat.ltb _ _) with true by (symmetry; apply Nat.ltb_lt; apply vanity_length; exact Le).
    rewrite (fromBlockHeader_vanity _ _ _ _ _ Le); reflexivity.
Qed.

Lemma firstn_vanity_app (fe x : Reimint.Buffer) :
  List.length fe = Reimint.CLIQUE_EXTRA_VANITY ->
  firstn Reimint.CLIQUE_EXTRA_VANITY (fe ++ x) = fe.
Proof.
  intros L; rewrite firstn_app, <- L, Nat.sub_diag, firstn_O, app_nil_r, firstn_all; reflexivity.
Qed.

(** X7: for header data with the 12 raw fields before [extraData] and an
    [extraData] of at least 32 items, recomputing [calcBlockHeaderRawHash]
    with the same evidence on the header generated with a signer, or on the
    block finalized from the same data with the returned proposal (any
    commit round and votes), gives back the proposal's hash. *)
Theorem generated_blocks_raw_hash rlphash Evidence_hash (data : Reimint.HeaderData) (e : Reimint.Buffer)
  (options : Reimint.ReimintBlockOptions) (timestamp : Z) (p : Proposal) (transactions : list Z)
  (commitRound : Z) (votes : VoteSet)
  (Hpre : List.length (Reimint.hd_pre data) = 12%nat)
  (He : Reimint.hd_extraData data = Some e)
  (Hlen : (Reimint.CLIQUE_EXTRA_VANITY <= List.length e)%nat)
  (Hp : snd (Reimint.generateBlockHeaderAndProposal rlphash Evidence_hash data options timestamp) = Some p) :
  Reimint.calcBlockHeaderRawHash rlphash Evidence_hash
    (fst (Reimint.generateBlockHeaderAndProposal rlphash Evidence_hash data options timestamp))
    (match Reimint.opt_evidence options with Some ev => ev | None => [] end) = prop_hash p /\
  Reimint.calcBlockHeaderRawHash rlphash Evidence_hash
    (Reimint.blk_header (Reimint.generateFinalizedBlock data transactions
       (match Reimint.opt_evidence options with Some ev => ev | None => [] end)
       p commitRound votes (Reimint.opt_common options)))
    (match Reimint.opt_evidence options with Some ev => ev | None => [] end) = prop_hash p.
Proof.
  set (ev := match Reimint.opt_evidence options with Some ev => ev | None => [] end).
  pose proof (formatHeaderData_long data e He Hlen) as Ef.
  destruct (formatHeaderData_frame data) as [Fpre Fpost].
  assert (Lf : List.length (firstn Reimint.CLIQUE_EXTRA_VANITY e) = Reimint.CLIQUE_EXTRA_VANITY)
    by (apply firstn_length_le; exact Hlen).
  assert (Horig : Reimint.calcBlockHeaderRawHash rlphash Evidence_hash
                    (Reimint.fromHeaderData data (Reimint.opt_common options)) ev =
                  rlphash (Reimint.hd_pre data ++
                           (firstn Reimint.CLIQUE_EXTRA_VANITY e ++ map Evidence_hash ev)
                           :: Reimint.hd_post data)).
  { rewrite calcBlockHeaderRawHash_pre12 by exact Hpre.
    unfold Reimint.fromHeaderData; cbn [Reimint.bh_pre Reimint.bh_extraData Reimint.bh_post].
    rewrite He; reflexivity. }
  unfold Reimint.generateBlockHeaderAndProposal in *.
  destruct (Reimint.opt_signer options) as [signer|]; cbn [snd] in Hp; [|discriminate].
  injection Hp as <-; cbv zeta; cbn [fst prop_hash]; fold ev; rewrite Horig.
  unfold Reimint.generateFinalizedBlock; cbv zeta; cbn [Reimint.blk_header].
  rewrite Ef.
  split; (rewrite calcBlockHeaderRawHash_pre12
            by (unfold Reimint.fromHeaderData; cbn [Reimint.bh_pre Reimint.hd_pre]; rewrite Fpre; exact Hpre));
    unfold Reimint.fromHeaderData; cbn [Reimint.bh_pre Reimint.bh_extraData Reimint.bh_post
                                         Reimint.hd_pre Reimint.hd_extraData Reimint.hd_post];
    rewrite Fpre, Fpost, firstn_vanity_app by exact Lf; reflexivity.
Qed.

(** X8: the miner ([getMiner]) of a finalized block is the signer of the
    proposal it was finalized with. *)
Theorem generateFinalizedBlock_miner (data : Reimint.HeaderData) (transactions : list Z)
  (evidence : list Reimint.Evidence) (p : Proposal) (commitRound : Z) (votes : VoteSet)
  (common : Reimint.Common) :
  Reimint.getMiner (Reimint.blk_header
    (Reimint.generateFinalizedBlock data transactions evidence p commitRound votes common))
  = Some (prop_signer p).
Proof.
  destruct (formatHeaderData_length data) as [fe [Ee Le]].
  unfold Reimint.generateFinalizedBlock, Reimint.getMiner, Reimint.fromHeaderData; cbv zeta.
  rewrite Ee; cbn [Reimint.blk_header Reimint.bh_extraData Reimint.hd_extraData].
  replace (Nat.ltb _ _) with true by (symmetry; apply Nat.ltb_lt; apply vanity_length; exact Le).
  rewrite (fromBlockHeader_vanity _ _ _ _ _ Le); reflexivity.
Qed.


Lemma generateBlockAndProposal_signed_witness :
  (Reimint.opt_signer opts_signed = Some 9 /\
   Reimint.getConsensusTypeByCommon (Reimint.opt_common opts_signed) = Some Reimint.ReimintType) /\
  exists p,
    snd (Reimint.generateBlockAndProposal sum_hash (fun x => x) data12 [] opts_signed 100) = Some p /\
    prop_hash p = Reimint.calcBlockHeaderRawHash sum_hash (fun x => x)
                    (Reimint.fromHeaderData data12 (Reimint.opt_common opts_signed))
                    (match Reimint.opt_evidence opts_signed with Some e => e | None => [] end) /\
    Reimint.customHashFunction sum_hash (Reimint.blk_header
      (fst (Reimint.generateBlockAndProposal sum_hash (fun x => x) data12 [] opts_signed 100)))
      = Some (prop_hash p) /\
    Reimint.getMiner (Reimint.blk_header
      (fst (Reimint.generateBlockAndProposal sum_hash (fun x => x) data12 [] opts_signed 100)))
      = Some 9.
Proof.
  split; [split; reflexivity | apply generateBlockAndProposal_signed; reflexivity].
Defined.

Lemma generated_blocks_raw_hash_witness :
  (List.length (Reimint.hd_pre data12) = 12%nat /\
   Reimint.hd_extraData data12 = Some (repeat 7 33) /\
   (Reimint.CLIQUE_EXTRA_VANITY <= List.length (repeat 7 33))%nat /\
   snd (Reimint.generateBlockHeaderAndProposal sum_hash (fun x => x) data12 opts_signed 100) = Some proposal12) /\
  Reimint.calcBlockHeaderRawHash sum_hash (fun x => x)
    (fst (Reimint.generateBlockHeaderAndProposal sum_hash (fun x => x) data12 opts_signed 100))
    (match Reimint.opt_evidence opts_signed with Some ev => ev | None => [] end) = prop_hash proposal12 /\
  Reimint.calcBlockHeaderRawHash sum_hash (fun x => x)
    (Reimint.blk_header (Reimint.generateFinalizedBlock data12 []
       (match Reimint.opt_evidence opts_signed with Some ev => ev | None => [] end)
       proposal12 2 vs_committed (Reimint.opt_common opts_signed)))
    (match Reimint.opt_evidence opts_signed with Some ev => ev | None => [] end) = prop_hash proposal12.
Proof.
  split; [repeat split | apply (generated_blocks_raw_hash sum_hash (fun x => x) data12 (repeat 7 33))].
  all: first [vm_compute; reflexivity | vm_compute; lia].
Defined.

Lemma sf_mono h r st tk q r' st' :
  safe_fields h r st tk q -> r <= r' -> (r = r' -> RoundStepType.val st <= RoundStepType.val st') ->
  safe_fields h r' st' tk q.
Proof.
  intros [H0 [Ht [Hv Hn]]] Hr Hs; split; [lia|]; split; [|split; [|exact Hn]].
  - eapply Forall_impl; [|exact Ht]; cbv beta; intros ti Hi E; specialize (Hi E); lia.
  - eapply Forall_impl; [|exact Hv]; unfold below; intros v Hb; lia.
Qed.

Lemma sf_schedule h r st tk q ti :
  safe_fields h r st tk q -> (ti_height ti = h -> ti_round ti <= r) -> safe_fields h r st (ti :: tk) q.
Proof. intros [H0 [Ht [Hv Hn]]] Hi; repeat split; auto. Qed.

Lemma own_votes_at_app h q q' : own_votes_at h (q ++ q') = own_votes_at h q ++ own_votes_at h q'.
Proof. unfold own_votes_at; rewrite flat_map_app, filter_app; reflexivity. Qed.

Lemma NoDup_snoc {A} (l : list A) (x : A) : NoDup l -> ~ In x l -> NoDup (l ++ [x]).
Proof.
  induction l as [|a l IH]; cbn; intros Hn Hx; [constructor; [intros []|constructor]|].
  inversion Hn as [|? ? Ha Hl]; subst; constructor.
  - rewrite in_app_iff; intros [H|[H|[]]]; [exact (Ha H) | apply Hx; left; symmetry; exact H].
  - apply IH; [exact Hl | intros H; apply Hx; right; exact H].
Qed.

Lemma sf_push_vote h r0 st0 tk q r st p v :
  safe_fields h r0 st0 tk q -> vote_height v = h -> vote_round v = r0 ->
  RoundStepType.val st0 < type_step (vote_type v) ->
  r0 <= r -> (r0 = r -> type_step (vote_type v) <= RoundStepType.val st) ->
  safe_fields h r st tk (q ++ [MessageInfo p (VoteMessage v)]).
Proof.
  intros [H0 [Ht [Hv Hn]]] Eh Er Lt Hr Hs.
  assert (E : own_votes_at h [MessageInfo p (VoteMessage v)] = [v])
    by (unfold own_votes_at; cbn; rewrite Eh, Z.eqb_refl; reflexivity).
  unfold safe_fields; rewrite own_votes_at_app, E.
  split; [lia|]; split; [eapply Forall_impl; [|exact Ht]; cbv beta; intros ti Hi Ei; specialize (Hi Ei); lia|].
  split.
  - apply Forall_app; split.
    + eapply Forall_impl; [|exact Hv]; unfold below; intros w Hb; lia.
    + constructor; [unfold below; lia | constructor].
  - rewrite map_app; apply NoDup_snoc; [exact Hn|].
    intros Hin; apply in_map_iff in Hin as [w [Ew Hw]].
    rewrite Forall_forall in Hv; specialize (Hv w Hw); unfold below, vote_key in *.
    injection Ew as Ewr Ewt; rewrite Ewt in Hv; lia.
Qed.

Lemma sf_push_other h r st tk q p msg :
  (forall v, msg <> VoteMessage v) -> safe_fields h r st tk q ->
  safe_fields h r st tk (q ++ [MessageInfo p msg]).
Proof.
  intros Hm Hs.
  assert (E : own_votes_at h [MessageInfo p msg] = [])
    by (unfold own_votes_at; destruct msg; cbn; try reflexivity; exfalso; eapply Hm; reflexivity).
  unfold safe_fields in *; rewrite own_votes_at_app, E, app_nil_r; exact Hs.
Qed.

(** Side conditions: arithmetic over the guards. *)
Ltac sf_side :=
  cbv [RoundStepType.leb RoundStepType.ltb RoundStepType.eqb] in *; bprop;
  cbn [type_step RoundStepType.val vote_height vote_round vote_type ti_height ti_round] in *;
  intros; try reflexivity; lia.

Ltac sf_solve I :=
  lazymatch goal with
  | |- safe_fields _ _ _ _ (_ ++ [MessageInfo _ (VoteMessage _)]) =>
      eapply sf_push_vote; [sf_solve I | sf_side ..]
  | |- safe_fields _ _ _ _ (_ ++ [MessageInfo _ _]) =>
      apply sf_push_other; [intros ? ?; discriminate | sf_solve I]
  | |- safe_fields _ _ _ _ ((_ ++ _) ++ _) => rewrite <- app_assoc; sf_solve I
  | |- safe_fields _ _ _ (_ :: _) _ => apply sf_schedule; [sf_solve I | sf_side]
  | |- safe_fields _ _ _ _ _ => first [exact I | eapply sf_mono; [exact I | sf_side | sf_side]]
  end.

Ltac sym_safe F f :=
  let s := fresh "s" in
  let s' := fresh "s'" in
  let res := fresh "res" in
  let Hrun := fresh "Hrun" in
  intros s; destruct (F s) as [s' res] eqn:Hrun; cbn [fst]; unfold f in Hrun;
  cbv [bind ret get modify throw fail when catch signVote sign push newStep emit schedule
       decideProposal createBlockAndProposal tryFinalizeCommit] in Hrun;
  run_all.

Lemma enterPrevote_safe (h r : Z) :
  forall s, sign_safe s -> (height s = h -> r <= round s) -> sign_safe (fst (enterPrevote h r s)).
Proof.
  sym_safe (enterPrevote h r) enterPrevote.
  all: intros I P; unfold sign_safe in *; st_simpl; sf_solve I.
Qed.

Lemma enterPrevoteWait_safe (h r : Z) :
  forall s, sign_safe s -> (height s = h -> r <= round s) -> sign_safe (fst (enterPrevoteWait h r s)).
Proof.
  sym_safe (enterPrevoteWait h r) enterPrevoteWait.
  all: intros I P; unfold sign_safe in *; st_simpl; sf_solve I.
Qed.

Lemma enterPrecommit_safe (h r : Z) :
  forall s, sign_safe s -> (height s = h -> r <= round s) -> sign_safe (fst (enterPrecommit h r s)).
Proof.
  sym_safe (enterPrecommit h r) enterPrecommit.
  all: intros I P; unfold sign_safe in *; st_simpl; sf_solve I.
Qed.

Lemma enterPrecommitWait_safe (h r : Z) :
  forall s, sign_safe s -> (height s = h -> r <= round s) -> sign_safe (fst (enterPrecommitWait h r s)).
Proof.
  sym_safe (enterPrecommitWait h r) enterPrecommitWait.
  all: intros I P; unfold sign_safe in *; st_simpl; sf_solve I.
Qed.

Lemma tryFinalizeCommit_safe (h : Z) : forall s, sign_safe s -> sign_safe (fst (tryFinalizeCommit h s)).
Proof.
  sym_safe (tryFinalizeCommit h) tryFinalizeCommit.
  all: intros I; unfold sign_safe in *; st_simpl; sf_solve I.
Qed.

Lemma enterCommit_safe (h r : Z) : forall s, sign_safe s -> sign_safe (fst (enterCommit h r s)).
Proof.
  sym_safe (enterCommit h r) enterCommit.
  all: intros I; unfold sign_safe in *; st_simpl; sf_solve I.
Qed.

Ltac nested_safe L I :=
  match goal with
  | H : ?f ?a ?b ?x = (?y, _) |- sign_safe ?y =>
      let S := fresh "S" in
      pose proof (L a b x) as S; rewrite H in S; cbn [fst] in S; apply S;
      [unfold sign_safe in *; st_simpl; sf_solve I | st_simpl; sf_side]
  end.

Lemma enterPropose_safe (h r : Z) :
  forall s, sign_safe s -> (height s = h -> r <= round s) -> sign_safe (fst (enterPropose h r s)).
Proof.
  sym_safe (enterPropose h r) enterPropose.
  all: intros I P; first [nested_safe enterPrevote_safe I | unfold sign_safe in *; st_simpl; sf_solve I].
Qed.

Lemma enterNewRound_safe (h r : Z) : forall s, sign_safe s -> sign_safe (fst (enterNewRound h r s)).
Proof.
  sym_safe (enterNewRound h r) enterNewRound.
  all: intros I; first [nested_safe enterPropose_safe I | unfold sign_safe in *; st_simpl; sf_solve I].
Qed.

Lemma enterNewRound_round (h r : Z) (s s1 : State) :
  enterNewRound h r s = (s1, Ok tt) -> height s = h -> r <= round s1.
Proof.
  intros Hrun Hh; unfold enterNewRound in Hrun.
  cbv [bind ret get modify throw fail when catch signVote sign push newStep emit schedule
       decideProposal createBlockAndProposal tryFinalizeCommit] in Hrun.
  run_all; collect; unfold Rel, progress in *; st_simpl;
    cbv [RoundStepType.leb RoundStepType.ltb RoundStepType.eqb] in *; bprop;
    repeat match goal with H : _ /\ _ |- _ => destruct H end; lia.
Qed.


Lemma keeps_bind {A B} (m : M A) (k : A -> M B) :
  Keeps m -> (forall a, Keeps (k a)) -> Keeps (bind m k).
Proof.
  intros Hm Hk s I; unfold bind; specialize (Hm s I).
  destruct (m s) as [s1 [a|e]]; cbn [fst] in *; [apply Hk, Hm | exact Hm].
Qed.

Lemma keeps_get_bind {B} (k : State -> M B) : (forall s0, Keeps (k s0)) -> Keeps (bind get k).
Proof. intros Hk s; apply Hk. Qed.

Lemma keeps_ret {A} (a : A) : Keeps (ret a).
Proof. intros s I; exact I. Qed.

Lemma keeps_throw {A} (e : Error) : Keeps (@throw A e).
Proof. intros s I; exact I. Qed.

Lemma keeps_catch {A} (m : M A) (h : Error -> M A) :
  Keeps m -> (forall e, Keeps (h e)) -> Keeps (catch m h).
Proof.
  intros Hm Hh s I; unfold catch; specialize (Hm s I).
  destruct (m s) as [s1 [a|e]]; cbn [fst] in *; [exact Hm | apply Hh, Hm].
Qed.

Lemma keeps_modify (f : State -> State) : (forall s, sign_safe s -> sign_safe (f s)) -> Keeps (modify f).
Proof. intros Hf s; apply Hf. Qed.

#[export] Instance enterNewRound_keeps (h r : Z) : Keeps (enterNewRound h r).
Proof. intros s; apply enterNewRound_safe. Qed.

#[export] Instance enterCommit_keeps (h r : Z) : Keeps (enterCommit h r).
Proof. intros s; apply enterCommit_safe. Qed.

#[export] Instance tryFinalizeCommit_keeps (h : Z) : Keeps (tryFinalizeCommit h).
Proof. intros s; apply tryFinalizeCommit_safe. Qed.

#[export] Instance votes_addVote_keeps (v : Vote) (p : string) : Keeps (votes_addVote v p).
Proof.
  intros s I; unfold votes_addVote.
  destruct (hvs_addVote (votes s) v p) as [[hvs' a]|e]; exact I.
Qed.

Ltac keeps_tac :=
  cbv zeta;
  lazymatch goal with
  | |- Keeps (bind get _) => apply keeps_get_bind; intro; keeps_tac
  | |- Keeps (bind _ _) => apply keeps_bind; [keeps_tac | intro; keeps_tac]
  | |- Keeps (catch _ _) => apply keeps_catch; [keeps_tac | intro; keeps_tac]
  | |- Keeps (modify _) => apply keeps_modify; intros ? ?; unfold sign_safe in *; st_simpl; assumption
  | |- Keeps (ret _) => apply keeps_ret
  | |- Keeps (throw _) => apply keeps_throw
  | |- Keeps (fail _) => apply keeps_throw
  | |- Keeps (when _ _) => unfold when; keeps_tac
  | |- Keeps (if ?c then _ else _) => destruct c; keeps_tac
  | |- Keeps (match ?x with _ => _ end) => destruct x; keeps_tac
  | |- Keeps (emit _) => unfold emit; keeps_tac
  | |- Keeps (reportConflictingVotes _ _) => unfold reportConflictingVotes; keeps_tac
  | |- Keeps _ => exact _
  end.

#[export] Instance setProposal_keeps (p : Proposal) : Keeps (setProposal p).
Proof. unfold setProposal; keeps_tac. Qed.

Lemma safe_seq {A B} (m : M A) (k : A -> M B) (s : State) :
  sign_safe (fst (m s)) ->
  (forall s1 a, m s = (s1, Ok a) -> sign_safe s1 -> sign_safe (fst (k a s1))) ->
  sign_safe (fst (bind m k s)).
Proof.
  intros Hm Hk; unfold bind.
  destruct (m s) as [s1 [a|e]] eqn:E; cbn [fst] in *; [exact (Hk s1 a eq_refl Hm) | exact Hm].
Qed.

Ltac by_keeps :=
  match goal with
  | |- sign_safe (fst (?m ?x)) =>
      let G := fresh "G" in
      let I := fresh "I" in
      assert (G : Keeps m) by keeps_tac;
      assert (I : sign_safe x) by (unfold sign_safe in *; st_simpl; assumption);
      exact (G x I)
  end.

(** [Rel] facts of a [Steady] computation that returned. *)
Ltac rel_of E :=
  lazymatch type of E with
  | ?m ?x = (?y, _) =>
      let R := fresh "R" in
      pose proof (steady (m := m) x) as R; rewrite E in R; cbn [fst] in R;
      destruct R as [[? [? ?]] _]
  end.

#[export] Instance addProposalBlock_keeps (b : Block) : Keeps (addProposalBlock b).
Proof.
  intros s I; unfold addProposalBlock; rewrite bind_get.
  destruct (proposalBlock s); [exact I|].
  destruct (proposalBlockHash s) as [pbh|]; [|exact I].
  destruct (negb (Z.eqb pbh (Block_hash b))); [exact I|].
  rewrite bind_modify, bind_get; cbv zeta.
  apply safe_seq; [by_keeps|]; intros s1 [] _ I1.
  rewrite bind_get.
  destruct (_ && _)%bool eqn:Ec.
  - apply safe_seq; [apply enterPrevote_safe; [exact I1 | lia] |]; intros s2 [] E2 I2.
    rel_of E2.
    destruct (prevotes_maj23 _ _); [rewrite bind_get; apply enterPrecommit_safe; [exact I2 | lia] | exact I2].
  - by_keeps.
Qed.

#[export] Instance prevotePath_keeps (v : Vote) : Keeps (prevotePath v).
Proof.
  intros s I; unfold prevotePath; rewrite bind_get; cbv zeta.
  apply safe_seq; [by_keeps|]; intros s1 [] _ I1.
  rewrite bind_get.
  destruct (Z.ltb (round s1) (vote_round v) && twoThirdsAny_opt (prevotes (votes s) (vote_round v)))%bool;
    [apply enterNewRound_safe, I1|].
  destruct (Z.eqb (round s1) (vote_round v) && RoundStepType.leb RoundStepType.Prevote (step s1))%bool eqn:E2.
  - bprop.
    lazymatch goal with |- context [if ?c then enterPrecommit _ _ else _] => destruct c end;
      [apply enterPrecommit_safe; [exact I1 | lia]|].
    destruct (twoThirdsAny_opt _); [apply enterPrevoteWait_safe; [exact I1 | lia] | exact I1].
  - destruct (proposal s1) as [p|]; [|exact I1].
    unfold when; destruct ((0 <=? prop_POLRound p) && (prop_POLRound p =? vote_round v))%bool; [|exact I1].
    destruct (isProposalComplete s1); [apply enterPrevote_safe; [exact I1 | lia] | exact I1].
Qed.

#[export] Instance precommitPath_keeps (v : Vote) : Keeps (precommitPath v).
Proof.
  intros s I; unfold precommitPath; rewrite bind_get; cbv zeta.
  destruct (match precommits (votes s) (vote_round v) with Some vs => vset_maj23 vs | None => None end)
    as [mh|].
  - rewrite bind_get; apply safe_seq; [apply enterNewRound_safe, I|]; intros s1 [] E1 I1.
    pose proof (enterNewRound_round _ _ _ _ E1 eq_refl) as Hr1.
    rewrite bind_get; apply safe_seq; [apply enterPrecommit_safe; [exact I1 | lia]|]; intros s2 [] E2 I2.
    rel_of E2.
    destruct (negb (isEmptyHash mh)).
    + rewrite bind_get; apply safe_seq; [apply enterCommit_safe, I2|]; intros s3 [] _ I3.
      by_keeps.
    + rewrite bind_get; apply enterPrecommitWait_safe; [exact I2 | lia].
  - rewrite bind_get; unfold when.
    destruct (_ && _)%bool; [|exact I].
    apply safe_seq; [apply enterNewRound_safe, I|]; intros s1 [] E1 I1.
    pose proof (enterNewRound_round _ _ _ _ E1 eq_refl) as Hr1.
    rewrite bind_get; apply enterPrecommitWait_safe; [exact I1 | lia].
Qed.

#[export] Instance addVote_keeps (v : Vote) (p : string) : Keeps (addVote v p).
Proof. unfold addVote; cbv [switch fall_through map snd]; keeps_tac. Qed.

#[export] Instance tryAddVote_keeps (v : Vote) (p : string) : Keeps (tryAddVote v p).
Proof. unfold tryAddVote; keeps_tac. Qed.








Ltac lock_side :=
  unfold lock_inv, lock_ok in *; st_simpl;
  cbv [RoundStepType.leb RoundStepType.ltb RoundStepType.eqb] in *; bprop;
  cbn [RoundStepType.val] in *;
  repeat match goal with H : _ /\ _ |- _ => destruct H end;
  subst; try (exfalso; congruence);
  (split; [assumption|]);
  first [ split; [lia | left; split; [reflexivity | reflexivity]]
        | split; [lia | right; split; [congruence | lia]]
        | split; [lia | intuition (try congruence; try lia)] ].

Lemma enterPrevote_lock (h r : Z) : forall s, lock_inv s -> lock_inv (fst (enterPrevote h r s)).
Proof. sym_safe (enterPrevote h r) enterPrevote. all: intros I; lock_side. Qed.

Lemma enterPrevoteWait_lock (h r : Z) : forall s, lock_inv s -> lock_inv (fst (enterPrevoteWait h r s)).
Proof. sym_safe (enterPrevoteWait h r) enterPrevoteWait. all: intros I; lock_side. Qed.

Lemma enterPrecommit_lock (h r : Z) : forall s, lock_inv s -> lock_inv (fst (enterPrecommit h r s)).
Proof. sym_safe (enterPrecommit h r) enterPrecommit. all: intros I; lock_side. Qed.

Lemma enterPrecommitWait_lock (h r : Z) : forall s, lock_inv s -> lock_inv (fst (enterPrecommitWait h r s)).
Proof. sym_safe (enterPrecommitWait h r) enterPrecommitWait. all: intros I; lock_side. Qed.

Lemma tryFinalizeCommit_lock (h : Z) : forall s, lock_inv s -> lock_inv (fst (tryFinalizeCommit h s)).
Proof. sym_safe (tryFinalizeCommit h) tryFinalizeCommit. all: intros I; lock_side. Qed.

Lemma enterCommit_lock (h r : Z) : forall s, lock_inv s -> lock_inv (fst (enterCommit h r s)).
Proof. sym_safe (enterCommit h r) enterCommit. all: intros I; lock_side. Qed.

Ltac nested_lock L :=
  match goal with
  | H : ?f ?a ?b ?x = (?y, _) |- lock_inv ?y =>
      let S := fresh "S" in
      pose proof (L a b x) as S; rewrite H in S; cbn [fst] in S; apply S; lock_side
  end.

Lemma enterPropose_lock (h r : Z) : forall s, lock_inv s -> lock_inv (fst (enterPropose h r s)).
Proof.
  sym_safe (enterPropose h r) enterPropose.
  all: intros I; first [nested_lock enterPrevote_lock | lock_side].
Qed.

Lemma enterNewRound_lock (h r : Z) : forall s, lock_inv s -> lock_inv (fst (enterNewRound h r s)).
Proof.
  sym_safe (enterNewRound h r) enterNewRound.
  all: intros I; first [nested_lock enterPropose_lock | lock_side].
Qed.


Lemma lk_bind {A B} (m : M A) (k : A -> M B) :
  LockKeeps m -> (forall a, LockKeeps (k a)) -> LockKeeps (bind m k).
Proof.
  intros Hm Hk s I; unfold bind; specialize (Hm s I).
  destruct (m s) as [s1 [a|e]]; cbn [fst] in *; [apply Hk, Hm | exact Hm].
Qed.

Lemma lk_get_bind {B} (k : State -> M B) : (forall s0, LockKeeps (k s0)) -> LockKeeps (bind get k).
Proof. intros Hk s; apply Hk. Qed.

Lemma lk_ret {A} (a : A) : LockKeeps (ret a).
Proof. intros s I; exact I. Qed.

Lemma lk_throw {A} (e : Error) : LockKeeps (@throw A e).
Proof. intros s I; exact I. Qed.

Lemma lk_catch {A} (m : M A) (h : Error -> M A) :
  LockKeeps m -> (forall e, LockKeeps (h e)) -> LockKeeps (catch m h).
Proof.
  intros Hm Hh s I; unfold catch; specialize (Hm s I).
  destruct (m s) as [s1 [a|e]]; cbn [fst] in *; [exact Hm | apply Hh, Hm].
Qed.

Lemma lk_modify (f : State -> State) : (forall s, lock_inv s -> lock_inv (f s)) -> LockKeeps (modify f).
Proof. intros Hf s; apply Hf. Qed.

Lemma lk_modify2 (f g : State -> State) :
  (forall s, lock_inv s -> lock_inv (g (f s))) -> LockKeeps (modify f;; modify g).
Proof. intros Hf s I; exact (Hf s I). Qed.

#[export] Instance enterNewRound_lk (h r : Z) : LockKeeps (enterNewRound h r).
Proof. intros s; apply enterNewRound_lock. Qed.
#[export] Instance enterPropose_lk (h r : Z) : LockKeeps (enterPropose h r).
Proof. intros s; apply enterPropose_lock. Qed.
#[export] Instance enterPrevote_lk (h r : Z) : LockKeeps (enterPrevote h r).
Proof. intros s; apply enterPrevote_lock. Qed.
#[export] Instance enterPrevoteWait_lk (h r : Z) : LockKeeps (enterPrevoteWait h r).
Proof. intros s; apply enterPrevoteWait_lock. Qed.
#[export] Instance enterPrecommit_lk (h r : Z) : LockKeeps (enterPrecommit h r).
Proof. intros s; apply enterPrecommit_lock. Qed.
#[export] Instance enterPrecommitWait_lk (h r : Z) : LockKeeps (enterPrecommitWait h r).
Proof. intros s; apply enterPrecommitWait_lock. Qed.
#[export] Instance enterCommit_lk (h r : Z) : LockKeeps (enterCommit h r).
Proof. intros s; apply enterCommit_lock. Qed.
#[export] Instance tryFinalizeCommit_lk (h : Z) : LockKeeps (tryFinalizeCommit h).
Proof. intros s; apply tryFinalizeCommit_lock. Qed.

#[export] Instance votes_addVote_lk (v : Vote) (p : string) : LockKeeps (votes_addVote v p).
Proof.
  intros s I; unfold votes_addVote.
  destruct (hvs_addVote (votes s) v p) as [[hvs' a]|e]; [unfold lock_inv, lock_ok in *; st_simpl; exact I | exact I].
Qed.

Ltac lk_tac :=
  cbv zeta;
  lazymatch goal with
  | |- LockKeeps (bind get _) => apply lk_get_bind; intro; lk_tac
  | |- LockKeeps (bind (modify _) (fun _ => modify _)) =>
      first [ apply lk_bind; [lk_tac | intro; lk_tac]
            | apply lk_modify2; intros ? ?; lock_side ]
  | |- LockKeeps (bind _ _) => apply lk_bind; [lk_tac | intro; lk_tac]
  | |- LockKeeps (catch _ _) => apply lk_catch; [lk_tac | intro; lk_tac]
  | |- LockKeeps (modify _) =>
      apply lk_modify; intros ? ?; unfold lock_inv, lock_ok in *; st_simpl; assumption
  | |- LockKeeps (ret _) => apply lk_ret
  | |- LockKeeps (throw _) => apply lk_throw
  | |- LockKeeps (fail _) => apply lk_throw
  | |- LockKeeps (when _ _) => unfold when; lk_tac
  | |- LockKeeps (if ?c then _ else _) => destruct c; lk_tac
  | |- LockKeeps (match ?x with _ => _ end) => destruct x; lk_tac
  | |- LockKeeps (emit _) => unfold emit; lk_tac
  | |- LockKeeps (reportConflictingVotes _ _) => unfold reportConflictingVotes; lk_tac
  | |- LockKeeps _ => exact _
  end.

#[export] Instance setProposal_lk (p : Proposal) : LockKeeps (setProposal p).
Proof. unfold setProposal; lk_tac. Qed.
#[export] Instance addProposalBlock_lk (b : Block) : LockKeeps (addProposalBlock b).
Proof. unfold addProposalBlock; lk_tac. Qed.
#[export] Instance prevotePath_lk (v : Vote) : LockKeeps (prevotePath v).
Proof. unfold prevotePath; lk_tac. Qed.
#[export] Instance precommitPath_lk (v : Vote) : LockKeeps (precommitPath v).
Proof. unfold precommitPath; lk_tac. Qed.
#[export] Instance addVote_lk (v : Vote) (p : string) : LockKeeps (addVote v p).
Proof. unfold addVote; cbv [switch fall_through map snd]; lk_tac. Qed.
#[export] Instance tryAddVote_lk (v : Vote) (p : string) : LockKeeps (tryAddVote v p).
Proof. unfold tryAddVote; lk_tac. Qed.
#[export] Instance handleMsg_lk (p : string) (m : Message) : LockKeeps (handleMsg p m).
Proof. unfold handleMsg; lk_tac. Qed.
#[export] Instance handleTimeout_lk (ti : TimeoutInfo) : LockKeeps (handleTimeout ti).
Proof. unfold handleTimeout; cbv [switch fall_through map snd]; lk_tac. Qed.
#[export] Instance msgLoopStep_lk (m : StateMachineMessage) : LockKeeps (msgLoopStep m).
Proof. unfold msgLoopStep; lk_tac. Qed.

Lemma newBlockHeader_lock (hdr : BlockHeader) (vals : ValidatorSet) :
  forall s, lock_inv s -> lock_inv (fst (newBlockHeader hdr vals s)).
Proof. sym_safe (newBlockHeader hdr vals) newBlockHeader. all: intros I; lock_side. Qed.

Lemma loop_steps_lock s s' : loop_steps s s' -> lock_inv s -> lock_inv s'.
Proof.
  induction 1 as [s|s p msg s' _ IH|s ti s' _ _ IH]; intros I; [exact I | |];
    apply IH, msgLoopStep_lk, I.
Qed.

(** Lock consistency: along any run of the message loop from a state whose
    lock is consistent, with a signer whose signatures do not throw, the
    locked round stays [-1] exactly when no block is locked and otherwise
    lies between [0] and the current round; [newBlockHeader] keeps this
    too. *)
Theorem msgLoop_lock_consistent (s s' : State)
  (Hsigner : signer s <> Some 0) (Hlock : lock_ok s) (Hrun : loop_steps s s') :
  lock_ok s' /\ forall hdr vals, lock_ok (fst (newBlockHeader hdr vals s')).
Proof.
  assert (I : lock_inv s') by (apply (loop_steps_lock s s' Hrun); split; assumption).
  split; [exact (proj2 I)|].
  intros hdr vals; exact (proj2 (newBlockHeader_lock hdr vals s' I)).
Qed.

Lemma msgLoop_lock_consistent_witness :
  signer s_relock <> Some 0 /\ lock_ok s_relock
  /\ lock_ok (fst (msgLoopStep (MessageInfo "p"%string (VoteMessage (precommit_of 0 77 2))) s_relock)).
Proof.
  assert (Hs : signer s_relock <> Some 0) by (vm_compute; intro H; discriminate H).
  assert (Hl : lock_ok s_relock)
    by (unfold lock_ok; vm_compute;
        split; [intro H; discriminate H | right; split; [intro H; discriminate H | split; intro H; discriminate H]]).
  split; [exact Hs | split; [exact Hl|]].
  apply (msgLoop_lock_consistent s_relock _ Hs Hl).
  apply loop_msg with (p := "p"%string) (msg := VoteMessage (precommit_of 0 77 2)); apply loop_done.
Defined.

Ltac prop_side :=
  unfold proposal_ok in *; st_simpl;
  repeat match goal with |- context [if ?c then _ else _] => destruct c eqn:? end;
  cbv [RoundStepType.leb RoundStepType.ltb RoundStepType.eqb] in *; bprop;
  cbn [RoundStepType.val] in *;
  repeat match goal with H : _ /\ _ |- _ => destruct H end;
  subst;
  (split; [lia|]);
  let p := fresh "p" in let E := fresh "E" in
  intros p E;
  first [ discriminate E
        | injection E as <-; cbn [prop_height prop_round prop_POLRound prop_signer]; repeat split; lia
        | match goal with
          | H : forall q, _ = Some q -> _ |- _ =>
              destruct (H p E) as [? [? [? ?]]]; repeat split; try lia; congruence
          end ].

Lemma enterPrevote_prop (h r : Z) : forall s, proposal_ok s -> proposal_ok (fst (enterPrevote h r s)).
Proof. sym_safe (enterPrevote h r) enterPrevote. all: intros I; prop_side. Qed.

Lemma enterPrevoteWait_prop (h r : Z) : forall s, proposal_ok s -> proposal_ok (fst (enterPrevoteWait h r s)).
Proof. sym_safe (enterPrevoteWait h r) enterPrevoteWait. all: intros I; prop_side. Qed.

Lemma enterPrecommit_prop (h r : Z) : forall s, proposal_ok s -> proposal_ok (fst (enterPrecommit h r s)).
Proof. sym_safe (enterPrecommit h r) enterPrecommit. all: intros I; prop_side. Qed.

Lemma enterPrecommitWait_prop (h r : Z) : forall s, proposal_ok s -> proposal_ok (fst (enterPrecommitWait h r s)).
Proof. sym_safe (enterPrecommitWait h r) enterPrecommitWait. all: intros I; prop_side. Qed.

Lemma tryFinalizeCommit_prop (h : Z) : forall s, proposal_ok s -> proposal_ok (fst (tryFinalizeCommit h s)).
Proof. sym_safe (tryFinalizeCommit h) tryFinalizeCommit. all: intros I; prop_side. Qed.

Lemma enterCommit_prop (h r : Z) : forall s, proposal_ok s -> proposal_ok (fst (enterCommit h r s)).
Proof. sym_safe (enterCommit h r) enterCommit. all: intros I; prop_side. Qed.

Ltac nested_prop L :=
  match goal with
  | H : ?f ?a ?b ?x = (?y, _) |- proposal_ok ?y =>
      let S := fresh "S" in
      pose proof (L a b x) as S; rewrite H in S; cbn [fst] in S; apply S; prop_side
  end.

Lemma enterPropose_prop (h r : Z) : forall s, proposal_ok s -> proposal_ok (fst (enterPropose h r s)).
Proof.
  sym_safe (enterPropose h r) enterPropose.
  all: intros I; first [nested_prop enterPrevote_prop | prop_side].
Qed.

Lemma enterNewRound_prop (h r : Z) : forall s, proposal_ok s -> proposal_ok (fst (enterNewRound h r s)).
Proof.
  sym_safe (enterNewRound h r) enterNewRound.
  all: intros I; first [nested_prop enterPropose_prop | prop_side].
Qed.

Lemma setProposal_prop (p : Proposal) : forall s, proposal_ok s -> proposal_ok (fst (setProposal p s)).
Proof. sym_safe (setProposal p) setProposal. all: intros I; prop_side. Qed.

Lemma pk_bind {A B} (m : M A) (k : A -> M B) :
  PropKeeps m -> (forall a, PropKeeps (k a)) -> PropKeeps (bind m k).
Proof.
  intros Hm Hk s I; unfold bind; specialize (Hm s I).
  destruct (m s) as [s1 [a|e]]; cbn [fst] in *; [apply Hk, Hm | exact Hm].
Qed.

Lemma pk_get_bind {B} (k : State -> M B) : (forall s0, PropKeeps (k s0)) -> PropKeeps (bind get k).
Proof. intros Hk s; apply Hk. Qed.

Lemma pk_ret {A} (a : A) : PropKeeps (ret a).
Proof. intros s I; exact I. Qed.

Lemma pk_throw {A} (e : Error) : PropKeeps (@throw A e).
Proof. intros s I; exact I. Qed.

Lemma pk_catch {A} (m : M A) (h : Error -> M A) :
  PropKeeps m -> (forall e, PropKeeps (h e)) -> PropKeeps (catch m h).
Proof.
  intros Hm Hh s I; unfold catch; specialize (Hm s I).
  destruct (m s) as [s1 [a|e]]; cbn [fst] in *; [exact Hm | apply Hh, Hm].
Qed.

Lemma pk_modify (f : State -> State) : (forall s, proposal_ok s -> proposal_ok (f s)) -> PropKeeps (modify f).
Proof. intros Hf s; apply Hf. Qed.

#[export] Instance enterNewRound_pk (h r : Z) : PropKeeps (enterNewRound h r).
Proof. intros s; apply enterNewRound_prop. Qed.
#[export] Instance enterPropose_pk (h r : Z) : PropKeeps (enterPropose h r).
Proof. intros s; apply enterPropose_prop. Qed.
#[export] Instance enterPrevote_pk (h r : Z) : PropKeeps (enterPrevote h r).
Proof. intros s; apply enterPrevote_prop. Qed.
#[export] Instance enterPrevoteWait_pk (h r : Z) : PropKeeps (enterPrevoteWait h r).
Proof. intros s; apply enterPrevoteWait_prop. Qed.
#[export] Instance enterPrecommit_pk (h r : Z) : PropKeeps (enterPrecommit h r).
Proof. intros s; apply enterPrecommit_prop. Qed.
#[export] Instance enterPrecommitWait_pk (h r : Z) : PropKeeps (enterPrecommitWait h r).
Proof. intros s; apply enterPrecommitWait_prop. Qed.
#[export] Instance enterCommit_pk (h r : Z) : PropKeeps (enterCommit h r).
Proof. intros s; apply enterCommit_prop. Qed.
#[export] Instance tryFinalizeCommit_pk (h : Z) : PropKeeps (tryFinalizeCommit h).
Proof. intros s; apply tryFinalizeCommit_prop. Qed.
#[export] Instance setProposal_pk (p : Proposal) : PropKeeps (setProposal p).
Proof. intros s; apply setProposal_prop. Qed.

#[export] Instance votes_addVote_pk (v : Vote) (p : string) : PropKeeps (votes_addVote v p).
Proof.
  intros s I; unfold votes_addVote.
  destruct (hvs_addVote (votes s) v p) as [[hvs' a]|e]; [unfold proposal_ok in *; st_simpl; exact I | exact I].
Qed.

Ltac pk_tac :=
  cbv zeta;
  lazymatch goal with
  | |- PropKeeps (bind get _) => apply pk_get_bind; intro; pk_tac
  | |- PropKeeps (bind _ _) => apply pk_bind; [pk_tac | intro; pk_tac]
  | |- PropKeeps (catch _ _) => apply pk_catch; [pk_tac | intro; pk_tac]
  | |- PropKeeps (modify _) =>
      apply pk_modify; intros ? ?; unfold proposal_ok in *; st_simpl; assumption
  | |- PropKeeps (ret _) => apply pk_ret
  | |- PropKeeps (throw _) => apply pk_throw
  | |- PropKeeps (fail _) => apply pk_throw
  | |- PropKeeps (when _ _) => unfold when; pk_tac
  | |- PropKeeps (if ?c then _ else _) => destruct c; pk_tac
  | |- PropKeeps (match ?x with _ => _ end) => destruct x; pk_tac
  | |- PropKeeps (emit _) => unfold emit; pk_tac
  | |- PropKeeps (reportConflictingVotes _ _) => unfold reportConflictingVotes; pk_tac
  | |- PropKeeps _ => exact _
  end.

#[export] Instance addProposalBlock_pk (b : Block) : PropKeeps (addProposalBlock b).
Proof. unfold addProposalBlock; pk_tac. Qed.
#[export] Instance prevotePath_pk (v : Vote) : PropKeeps (prevotePath v).
Proof. unfold prevotePath; pk_tac. Qed.
#[export] Instance precommitPath_pk (v : Vote) : PropKeeps (precommitPath v).
Proof. unfold precommitPath; pk_tac. Qed.
#[export] Instance addVote_pk (v : Vote) (p : string) : PropKeeps (addVote v p).
Proof. unfold addVote; cbv [switch fall_through map snd]; pk_tac. Qed.
#[export] Instance tryAddVote_pk (v : Vote) (p : string) : PropKeeps (tryAddVote v p).
Proof. unfold tryAddVote; pk_tac. Qed.
#[export] Instance handleMsg_pk (p : string) (m : Message) : PropKeeps (handleMsg p m).
Proof. unfold handleMsg; pk_tac. Qed.
#[export] Instance handleTimeout_pk (ti : TimeoutInfo) : PropKeeps (handleTimeout ti).
Proof. unfold handleTimeout; cbv [switch fall_through map snd]; pk_tac. Qed.
#[export] Instance msgLoopStep_pk (m : StateMachineMessage) : PropKeeps (msgLoopStep m).
Proof. unfold msgLoopStep; pk_tac. Qed.

Lemma newBlockHeader_prop (hdr : BlockHeader) (vals : ValidatorSet) :
  forall s, proposal_ok s -> proposal_ok (fst (newBlockHeader hdr vals s)).
Proof. sym_safe (newBlockHeader hdr vals) newBlockHeader. all: intros I; prop_side. Qed.

Lemma loop_steps_prop s s' : loop_steps s s' -> proposal_ok s -> proposal_ok s'.
Proof.
  induction 1 as [s|s p msg s' _ IH|s ti s' _ _ IH]; intros I; [exact I | |];
    apply IH, msgLoopStep_pk, I.
Qed.

(** Held proposals are valid: along any run of the message loop from a
    state whose proposal (if any) passed [setProposal]'s checks, the
    proposal held is for the current height, from a round not after the
    current one, with a POL round in [[-1, round)], signed by the current
    proposer; [newBlockHeader] keeps this too. *)
Theorem msgLoop_proposal_valid (s s' : State)
  (Hprop : proposal_ok s) (Hrun : loop_steps s s') :
  proposal_ok s' /\ forall hdr vals, proposal_ok (fst (newBlockHeader hdr vals s')).
Proof.
  pose proof (loop_steps_prop s s' Hrun Hprop) as I.
  split; [exact I | intros hdr vals; exact (newBlockHeader_prop hdr vals s' I)].
Qed.

Lemma msgLoop_proposal_valid_witness :
  proposal_ok s_relock
  /\ proposal_ok (fst (msgLoopStep (MessageInfo "p"%string (VoteMessage (precommit_of 0 77 2))) s_relock)).
Proof.
  assert (Hp : proposal_ok s_relock).
  { split; [vm_compute; intro H; discriminate H|].
    intros p E; vm_compute in E; injection E as <-.
    vm_compute; repeat split; try reflexivity; intro H; discriminate H. }
  split; [exact Hp|].
  apply (msgLoop_proposal_valid s_relock _ Hp).
  apply loop_msg with (p := "p"%string) (msg := VoteMessage (precommit_of 0 77 2)); apply loop_done.
Defined.

(** *** Genesis validators *)


(** [isEnableGenesisValidators] is antitone: once the genesis validator set
    is enabled for a locked amount and a validator count, it stays enabled
    for any smaller amount and any smaller count. *)
Theorem isEnableGenesisValidators_antitone (totalLockedAmount validatorCount a c : Z)
  (param : string -> string -> Reimint.ParamValue)
  (Henabled : Reimint.isEnableGenesisValidators totalLockedAmount validatorCount param = Some true)
  (Ha : a <= totalLockedAmount) (Hc : c <= validatorCount) :
  Reimint.isEnableGenesisValidators a c param = Some true.
Proof.
  unfold Reimint.isEnableGenesisValidators in *.
  destruct (param "vm" "minTotalLockedAmount")%string as [m| |]; try discriminate.
  destruct (Z.ltb_spec totalLockedAmount m); destruct (Z.ltb_spec a m); try reflexivity; [lia|].
  destruct (param "vm" "minValidatorsCount")%string as [|n|]; try discriminate.
  destruct (Z.ltb_spec validatorCount n); destruct (Z.ltb_spec c n); try reflexivity; try discriminate; lia.
Qed.

Lemma isEnableGenesisValidators_antitone_witness :
  Reimint.isEnableGenesisValidators 150 3 genesis_params = Some true
  /\ Reimint.isEnableGenesisValidators 120 2 genesis_params = Some true.
Proof.
  assert (H : Reimint.isEnableGenesisValidators 150 3 genesis_params = Some true) by reflexivity.
  split; [exact H | apply (isEnableGenesisValidators_antitone 150 3 120 2 genesis_params H); lia].
Defined.



Lemma finalized_ok_votes (s : State) (hvs : HeightVoteSet) (l : list Block) :
  finalized_ok s -> maj_kept (votes s) hvs ->
  (forall b, In b l -> In b (processed s)
             \/ (Block_hash b <> EMPTY_HASH /\ exists r, precommits_maj23 hvs r = Some (Block_hash b))) ->
  forall b, In b l -> Block_hash b <> EMPTY_HASH /\ exists r, precommits_maj23 hvs r = Some (Block_hash b).
Proof.
  intros I M Hl b Hb.
  destruct (Hl b Hb) as [Ho|Hn]; [|exact Hn].
  destruct (I b Ho) as [ne [r E]]; split; [exact ne | exists r; exact (M r _ E)].
Qed.

Ltac fin_side I :=
  unfold finalized_ok in *; st_simpl;
  cbv [RoundStepType.leb RoundStepType.ltb RoundStepType.eqb isEmptyHash] in *; bprop;
  let b := fresh "b" in let Hb := fresh "Hb" in
  intros b Hb;
  first [ exact (I b Hb)
        | let ne := fresh "ne" in let r0 := fresh "r" in let E := fresh "E" in
          destruct (I b Hb) as [ne [r0 E]];
          split; [exact ne | exists r0; apply maj_kept_setRound; exact E]
        | apply in_app_or in Hb; destruct Hb as [Hb|[<-|[]]];
          [exact (I b Hb)
          | split; [congruence | eexists; etransitivity; [eassumption | congruence]]] ].

Lemma enterPrevote_fin (h r : Z) : forall s, finalized_ok s -> finalized_ok (fst (enterPrevote h r s)).
Proof. sym_safe (enterPrevote h r) enterPrevote. all: intros I; fin_side I. Qed.

Lemma enterPrevoteWait_fin (h r : Z) : forall s, finalized_ok s -> finalized_ok (fst (enterPrevoteWait h r s)).
Proof. sym_safe (enterPrevoteWait h r) enterPrevoteWait. all: intros I; fin_side I. Qed.

Lemma enterPrecommit_fin (h r : Z) : forall s, finalized_ok s -> finalized_ok (fst (enterPrecommit h r s)).
Proof. sym_safe (enterPrecommit h r) enterPrecommit. all: intros I; fin_side I. Qed.

Lemma enterPrecommitWait_fin (h r : Z) : forall s, finalized_ok s -> finalized_ok (fst (enterPrecommitWait h r s)).
Proof. sym_safe (enterPrecommitWait h r) enterPrecommitWait. all: intros I; fin_side I. Qed.

Lemma tryFinalizeCommit_fin (h : Z) : forall s, finalized_ok s -> finalized_ok (fst (tryFinalizeCommit h s)).
Proof. sym_safe (tryFinalizeCommit h) tryFinalizeCommit. all: intros I; fin_side I. Qed.

Lemma enterCommit_fin (h r : Z) : forall s, finalized_ok s -> finalized_ok (fst (enterCommit h r s)).
Proof. sym_safe (enterCommit h r) enterCommit. all: intros I; fin_side I. Qed.

Ltac nested_fin L I :=
  match goal with
  | H : ?f ?a ?b ?x = (?y, _) |- finalized_ok ?y =>
      let S := fresh "S" in
      pose proof (L a b x) as S; rewrite H in S; cbn [fst] in S; apply S; fin_side I
  end.

Lemma enterPropose_fin (h r : Z) : forall s, finalized_ok s -> finalized_ok (fst (enterPropose h r s)).
Proof.
  sym_safe (enterPropose h r) enterPropose.
  all: intros I; first [nested_fin enterPrevote_fin I | fin_side I].
Qed.

Lemma enterNewRound_fin (h r : Z) : forall s, finalized_ok s -> finalized_ok (fst (enterNewRound h r s)).
Proof.
  sym_safe (enterNewRound h r) enterNewRound.
  all: intros I; first [nested_fin enterPropose_fin I | fin_side I].
Qed.


Lemma fk_bind {A B} (m : M A) (k : A -> M B) :
  FinKeeps m -> (forall a, FinKeeps (k a)) -> FinKeeps (bind m k).
Proof.
  intros Hm Hk s I; unfold bind; specialize (Hm s I).
  destruct (m s) as [s1 [a|e]]; cbn [fst] in *; [apply Hk, Hm | exact Hm].
Qed.

Lemma fk_get_bind {B} (k : State -> M B) : (forall s0, FinKeeps (k s0)) -> FinKeeps (bind get k).
Proof. intros Hk s; apply Hk. Qed.

Lemma fk_ret {A} (a : A) : FinKeeps (ret a).
Proof. intros s I; exact I. Qed.

Lemma fk_throw {A} (e : Error) : FinKeeps (@throw A e).
Proof. intros s I; exact I. Qed.

Lemma fk_catch {A} (m : M A) (h : Error -> M A) :
  FinKeeps m -> (forall e, FinKeeps (h e)) -> FinKeeps (catch m h).
Proof.
  intros Hm Hh s I; unfold catch; specialize (Hm s I).
  destruct (m s) as [s1 [a|e]]; cbn [fst] in *; [exact Hm | apply Hh, Hm].
Qed.

Lemma fk_modify (f : State -> State) : (forall s, finalized_ok s -> finalized_ok (f s)) -> FinKeeps (modify f).
Proof. intros Hf s; apply Hf. Qed.

#[export] Instance enterNewRound_fk (h r : Z) : FinKeeps (enterNewRound h r).
Proof. intros s; apply enterNewRound_fin. Qed.
#[export] Instance enterPropose_fk (h r : Z) : FinKeeps (enterPropose h r).
Proof. intros s; apply enterPropose_fin. Qed.
#[export] Instance enterPrevote_fk (h r : Z) : FinKeeps (enterPrevote h r).
Proof. intros s; apply enterPrevote_fin. Qed.
#[export] Instance enterPrevoteWait_fk (h r : Z) : FinKeeps (enterPrevoteWait h r).
Proof. intros s; apply enterPrevoteWait_fin. Qed.
#[export] Instance enterPrecommit_fk (h r : Z) : FinKeeps (enterPrecommit h r).
Proof. intros s; apply enterPrecommit_fin. Qed.
#[export] Instance enterPrecommitWait_fk (h r : Z) : FinKeeps (enterPrecommitWait h r).
Proof. intros s; apply enterPrecommitWait_fin. Qed.
#[export] Instance enterCommit_fk (h r : Z) : FinKeeps (enterCommit h r).
Proof. intros s; apply enterCommit_fin. Qed.
#[export] Instance tryFinalizeCommit_fk (h : Z) : FinKeeps (tryFinalizeCommit h).
Proof. intros s; apply tryFinalizeCommit_fin. Qed.

#[export] Instance votes_addVote_fk (v : Vote) (p : string) : FinKeeps (votes_addVote v p).
Proof.
  intros s I; unfold votes_addVote.
  destruct (hvs_addVote (votes s) v p) as [[hvs' a]|e] eqn:E; [|exact I].
  cbn [fst]; unfold finalized_ok in *; st_simpl.
  apply (finalized_ok_votes s hvs' (processed s) I (maj_kept_hvs_addVote _ _ _ _ _ E)).
  intros b Hb; left; exact Hb.
Qed.

Ltac fk_tac :=
  cbv zeta;
  lazymatch goal with
  | |- FinKeeps (bind get _) => apply fk_get_bind; intro; fk_tac
  | |- FinKeeps (bind _ _) => apply fk_bind; [fk_tac | intro; fk_tac]
  | |- FinKeeps (catch _ _) => apply fk_catch; [fk_tac | intro; fk_tac]
  | |- FinKeeps (modify _) =>
      apply fk_modify; intros ? ?; unfold finalized_ok in *; st_simpl; assumption
  | |- FinKeeps (ret _) => apply fk_ret
  | |- FinKeeps (throw _) => apply fk_throw
  | |- FinKeeps (fail _) => apply fk_throw
  | |- FinKeeps (when _ _) => unfold when; fk_tac
  | |- FinKeeps (if ?c then _ else _) => destruct c; fk_tac
  | |- FinKeeps (match ?x with _ => _ end) => destruct x; fk_tac
  | |- FinKeeps (emit _) => unfold emit; fk_tac
  | |- FinKeeps (reportConflictingVotes _ _) => unfold reportConflictingVotes; fk_tac
  | |- FinKeeps _ => exact _
  end.

#[export] Instance setProposal_fk (p : Proposal) : FinKeeps (setProposal p).
Proof. unfold setProposal; fk_tac. Qed.
#[export] Instance addProposalBlock_fk (b : Block) : FinKeeps (addProposalBlock b).
Proof. unfold addProposalBlock; fk_tac. Qed.
#[export] Instance prevotePath_fk (v : Vote) : FinKeeps (prevotePath v).
Proof. unfold prevotePath; fk_tac. Qed.
#[export] Instance precommitPath_fk (v : Vote) : FinKeeps (precommitPath v).
Proof. unfold precommitPath; fk_tac. Qed.
#[export] Instance addVote_fk (v : Vote) (p : string) : FinKeeps (addVote v p).
Proof. unfold addVote; cbv [switch fall_through map snd]; fk_tac. Qed.
#[export] Instance tryAddVote_fk (v : Vote) (p : string) : FinKeeps (tryAddVote v p).
Proof. unfold tryAddVote; fk_tac. Qed.
#[export] Instance handleMsg_fk (p : string) (m : Message) : FinKeeps (handleMsg p m).
Proof. unfold handleMsg; fk_tac. Qed.
#[export] Instance handleTimeout_fk (ti : TimeoutInfo) : FinKeeps (handleTimeout ti).
Proof. unfold handleTimeout; cbv [switch fall_through map snd]; fk_tac. Qed.
#[export] Instance msgLoopStep_fk (m : StateMachineMessage) : FinKeeps (msgLoopStep m).
Proof. unfold msgLoopStep; fk_tac. Qed.

Lemma loop_steps_fin s s' : loop_steps s s' -> finalized_ok s -> finalized_ok s'.
Proof.
  induction 1 as [s|s p msg s' _ IH|s ti s' _ _ IH]; intros I; [exact I | |];
    apply IH, msgLoopStep_fk, I.
Qed.

(** Finalized blocks are committed: along any run of the message loop from
    a state where every processed block met it (for instance one with none),
    every block that [tryFinalizeCommit] hands to [processBlock] has a
    non-nil hash for which the precommits of some round of the height hold a
    two-thirds majority. *)
Theorem msgLoop_finalizes_committed (s s' : State)
  (Hfin : finalized_ok s) (Hrun : loop_steps s s') :
  forall b, In b (processed s') ->
    Block_hash b <> EMPTY_HASH /\ exists r, precommits_maj23 (votes s') r = Some (Block_hash b).
Proof. exact (loop_steps_fin s s' Hrun Hfin). Qed.


Lemma msgLoop_finalizes_committed_witness :
  finalized_ok s_block_wait /\ In blkB (processed block_then_precommit)
  /\ Block_hash blkB <> EMPTY_HASH
  /\ exists r, precommits_maj23 (votes block_then_precommit) r = Some (Block_hash blkB).
Proof.
  assert (Hf : finalized_ok s_block_wait) by (intros b Hb; vm_compute in Hb; destruct Hb).
  assert (Hin : In blkB (processed block_then_precommit)) by (vm_compute; left; reflexivity).
  assert (Hrun : loop_steps s_block_wait block_then_precommit).
  { unfold block_then_precommit.
    refine (loop_msg _ "p"%string (ProposalBlockMessage blkB) _ _).
    refine (loop_msg _ "p"%string (VoteMessage (precommit_of 0 77 2)) _ _).
    exact (loop_done _). }
  split; [exact Hf | split; [exact Hin | exact (msgLoop_finalizes_committed _ _ Hf Hrun blkB Hin)]].
Defined.

Lemma pv_kept_refl (a : HeightVoteSet) : pv_kept a a.
Proof. intros r H E; exact E. Qed.

Lemma pv_kept_trans (a b c : HeightVoteSet) : pv_kept a b -> pv_kept b c -> pv_kept a c.
Proof. intros H1 H2 r H E; auto. Qed.

Lemma pv_kept_lookup (a b : HeightVoteSet) :
  (forall r p, lookup_round r (hvs_roundVoteSets a) = Some p ->
               lookup_round r (hvs_roundVoteSets b) = Some p) -> pv_kept a b.
Proof.
  intros L r H; unfold prevotes_maj23, prevotes.
  destruct (lookup_round r (hvs_roundVoteSets a)) as [p|] eqn:E; [|discriminate].
  rewrite (L r p E); auto.
Qed.

Lemma pv_kept_setRound (hvs : HeightVoteSet) (r : Z) : pv_kept hvs (setRound hvs r).
Proof.
  apply pv_kept_lookup; intros r0 p E; unfold setRound; cbn [hvs_roundVoteSets].
  generalize (seq 0 (Z.to_nat (r + 1))) as l; intros l.
  revert hvs E; induction l as [|n l IH]; intros hvs E; [exact E|].
  cbn [fold_left]; apply IH, lookup_addRound, E.
Qed.

Lemma pv_kept_add_to_round (hvs hvs' : HeightVoteSet) (v : Vote) (b : bool) :
  add_to_round hvs v = inl (hvs', b) -> pv_kept hvs hvs'.
Proof.
  unfold add_to_round; intros E r H M.
  destruct (lookup_round (vote_round v) (hvs_roundVoteSets hvs)) as [[pv pc]|] eqn:L;
    [| inversion E; subst; exact M].
  unfold prevotes_maj23, prevotes in *.
  destruct (vote_type v).
  - destruct (vs_addVote pv v) as [[pv' a]|e] eqn:A; inversion E; subst; clear E.
    cbn [with_round_sets hvs_roundVoteSets]; rewrite lookup_update_round.
    destruct (Z.eqb_spec r (vote_round v)); [subst r; rewrite L in *; cbn in * | exact M].
    eapply vs_addVote_maj; eauto.
  - destruct (vs_addVote pc v) as [[pc' a]|e] eqn:A; inversion E; subst; clear E.
    cbn [with_round_sets hvs_roundVoteSets]; rewrite lookup_update_round.
    destruct (Z.eqb_spec r (vote_round v)); [subst r; rewrite L in *; exact M | exact M].
  - inversion E; subst; exact M.
Qed.

Lemma pv_kept_hvs_addVote (hvs hvs' : HeightVoteSet) (v : Vote) (p : string) (b : bool) :
  hvs_addVote hvs v p = inl (hvs', b) -> pv_kept hvs hvs'.
Proof.
  unfold hvs_addVote; intros E.
  destruct (vote_type v) eqn:T; [| | inversion E; subst; apply pv_kept_refl].
  all: destruct (lookup_round (vote_round v) (hvs_roundVoteSets hvs)) eqn:L;
    [eapply pv_kept_add_to_round; eauto |].
  all: destruct (Nat.ltb _ 2); [| inversion E; subst; apply pv_kept_refl].
  all: eapply pv_kept_trans; [| eapply pv_kept_add_to_round; exact E].
  all: apply pv_kept_lookup; intros r0 q Q; cbn [hvs_roundVoteSets]; apply lookup_addRound, Q.
Qed.

Lemma unlock_rel_refl (s : State) : unlock_rel s s.
Proof.
  unfold unlock_rel; split; [lia | split; [apply pv_kept_refl | split]].
  - intros H; right; split; [exact H | lia].
  - intros H1 H2; congruence.
Qed.

Lemma unlock_rel_trans (a b c : State) : unlock_rel a b -> unlock_rel b c -> unlock_rel a c.
Proof.
  intros [Ra [Pa [La Ua]]] [Rb [Pb [Lb Ub]]].
  split; [lia | split; [eauto using pv_kept_trans | split]].
  - intros Hc; destruct (Lb Hc) as [X|[Hb X]]; [left; lia|].
    destruct (La Hb) as [Y|[Ha Y]]; [left; lia | right; split; [exact Ha | lia]].
  - intros Ha Hc; destruct (lockedBlock b) as [lb|] eqn:Eb.
    + destruct (Ub ltac:(congruence) Hc) as [r' [x [Hr Hx]]].
      exists r', x; split; [|exact Hx].
      destruct (La ltac:(congruence)) as [Y|[_ Y]]; lia.
    + destruct (Ua Ha eq_refl) as [r' [x [Hr Hx]]].
      exists r', x; split; [lia | apply Pb, Hx].
Qed.

Lemma unlocks_bind {A B} (m : M A) (k : A -> M B) :
  Unlocks m -> (forall a, Unlocks (k a)) -> Unlocks (bind m k).
Proof.
  intros Hm Hk s; unfold bind; specialize (Hm s).
  destruct (m s) as [s1 [a|e]]; cbn [fst] in *;
    [eapply unlock_rel_trans; [exact Hm | apply Hk] | exact Hm].
Qed.

Lemma unlocks_get_bind {B} (k : State -> M B) : (forall s0, Unlocks (k s0)) -> Unlocks (bind get k).
Proof. intros Hk s; apply Hk. Qed.

Lemma unlocks_modify (f : State -> State) : (forall s, unlock_rel s (f s)) -> Unlocks (modify f).
Proof. intros Hf s; apply Hf. Qed.

Lemma unlocks_ret {A} (a : A) : Unlocks (ret a).
Proof. intros s; apply unlock_rel_refl. Qed.

Lemma unlocks_throw {A} (e : Error) : Unlocks (@throw A e).
Proof. intros s; apply unlock_rel_refl. Qed.

Lemma unlocks_catch {A} (m : M A) (h : Error -> M A) :
  Unlocks m -> (forall e, Unlocks (h e)) -> Unlocks (catch m h).
Proof.
  intros Hm Hh s; unfold catch; specialize (Hm s).
  destruct (m s) as [s1 [a|e]]; cbn [fst] in *;
    [exact Hm | eapply unlock_rel_trans; [exact Hm | apply Hh]].
Qed.

(** Facts about the transitions called on the way. *)
Ltac collect_ul :=
  repeat match goal with
         | H : ?m ?x = (?y, _) |- _ =>
             let R := fresh "R" in
             pose proof (unlocks (m := m) x) as R; rewrite H in R; cbn [fst] in R; clear H
         end.

Ltac polka_wit :=
  match goal with
  | E : prevotes_maj23 (votes ?s0) ?r = Some ?x |- _ =>
      exists r, x; split; [first [left; lia | right; lia] | exact E]
  | E1 : prevotes (votes ?s0) ?r = Some ?vs, E2 : vset_maj23 ?vs = Some ?x |- _ =>
      exists r, x; split; [first [left; lia | right; lia] | unfold prevotes_maj23; rewrite E1; exact E2]
  end.

(** [unlock_rel] between a state and a state computed from it without a
    nested transition. *)
Ltac ul_direct :=
  unfold unlock_rel; st_simpl;
  split; [lia | split; [first [apply pv_kept_refl | apply pv_kept_setRound] | split]];
  [ let Hn := fresh "Hn" in
    intros Hn; first [left; lia | right; split; [exact Hn | lia] | exfalso; apply Hn; reflexivity]
  | let H1 := fresh "H1" in
    let H2 := fresh "H2" in
    intros H1 H2; first [exfalso; congruence | polka_wit] ].

Ltac ul_finish :=
  cbv [RoundStepType.leb RoundStepType.ltb RoundStepType.eqb] in *; bprop;
  cbn [RoundStepType.val] in *;
  lazymatch goal with
  | Rn : unlock_rel ?a ?b |- unlock_rel ?s ?t =>
      apply (unlock_rel_trans s a t); [ul_direct | apply (unlock_rel_trans a b t); [exact Rn | ul_direct]]
  | |- _ => ul_direct
  end.

Ltac sym_ul F f :=
  let s := fresh "s" in
  let s' := fresh "s'" in
  let res := fresh "res" in
  let Hrun := fresh "Hrun" in
  intro s; destruct (F s) as [s' res] eqn:Hrun; cbn [fst]; unfold f in Hrun;
  cbv [bind ret get modify throw fail when catch signVote sign push newStep emit schedule
       decideProposal createBlockAndProposal tryFinalizeCommit] in Hrun;
  run_all; collect_ul.

#[export] Instance enterPrevote_ul (h r : Z) : Unlocks (enterPrevote h r).
Proof. sym_ul (enterPrevote h r) enterPrevote. all: ul_finish. Qed.

#[export] Instance enterPrevoteWait_ul (h r : Z) : Unlocks (enterPrevoteWait h r).
Proof. sym_ul (enterPrevoteWait h r) enterPrevoteWait. all: ul_finish. Qed.

#[export] Instance enterPrecommit_ul (h r : Z) : Unlocks (enterPrecommit h r).
Proof. sym_ul (enterPrecommit h r) enterPrecommit. all: ul_finish. Qed.

#[export] Instance enterPrecommitWait_ul (h r : Z) : Unlocks (enterPrecommitWait h r).
Proof. sym_ul (enterPrecommitWait h r) enterPrecommitWait. all: ul_finish. Qed.

#[export] Instance tryFinalizeCommit_ul (h : Z) : Unlocks (tryFinalizeCommit h).
Proof. sym_ul (tryFinalizeCommit h) tryFinalizeCommit. all: ul_finish. Qed.

#[export] Instance enterCommit_ul (h r : Z) : Unlocks (enterCommit h r).
Proof. sym_ul (enterCommit h r) enterCommit. all: ul_finish. Qed.

#[export] Instance enterPropose_ul (h r : Z) : Unlocks (enterPropose h r).
Proof. sym_ul (enterPropose h r) enterPropose. all: ul_finish. Qed.

#[export] Instance enterNewRound_ul (h r : Z) : Unlocks (enterNewRound h r).
Proof. sym_ul (enterNewRound h r) enterNewRound. all: ul_finish. Qed.

#[export] Instance prevotePath_ul (v : Vote) : Unlocks (prevotePath v).
Proof. sym_ul (prevotePath v) prevotePath. all: ul_finish. Qed.

#[export] Instance votes_addVote_ul (v : Vote) (p : string) : Unlocks (votes_addVote v p).
Proof.
  intros s; unfold votes_addVote.
  destruct (hvs_addVote (votes s) v p) as [[hvs' a]|e] eqn:E; cbn [fst]; [| apply unlock_rel_refl].
  unfold unlock_rel; st_simpl; split; [lia | split; [eapply pv_kept_hvs_addVote; exact E | split]].
  - intros H; right; split; [exact H | lia].
  - intros H1 H2; congruence.
Qed.

(** Splits a computation into its statements. *)
Ltac ul_tac :=
  cbv zeta;
  lazymatch goal with
  | |- Unlocks (bind get _) => apply unlocks_get_bind; intro; ul_tac
  | |- Unlocks (bind _ _) => apply unlocks_bind; [ul_tac | intro; ul_tac]
  | |- Unlocks (catch _ _) => apply unlocks_catch; [ul_tac | intro; ul_tac]
  | |- Unlocks (modify _) => apply unlocks_modify; intro; ul_direct
  | |- Unlocks (ret _) => apply unlocks_ret
  | |- Unlocks (throw _) => apply unlocks_throw
  | |- Unlocks (fail _) => apply unlocks_throw
  | |- Unlocks (when _ _) => unfold when; ul_tac
  | |- Unlocks (if ?c then _ else _) => destruct c; ul_tac
  | |- Unlocks (match ?x with _ => _ end) => destruct x; ul_tac
  | |- Unlocks (emit _) => unfold emit; ul_tac
  | |- Unlocks (push _) => unfold push; ul_tac
  | |- Unlocks (schedule _) => unfold schedule; ul_tac
  | |- Unlocks (reportConflictingVotes _ _) => unfold reportConflictingVotes; ul_tac
  | |- Unlocks _ => exact _
  end.

#[export] Instance setProposal_ul (p : Proposal) : Unlocks (setProposal p).
Proof. unfold setProposal; ul_tac. Qed.

#[export] Instance addProposalBlock_ul (b : Block) : Unlocks (addProposalBlock b).
Proof. unfold addProposalBlock; ul_tac. Qed.

#[export] Instance precommitPath_ul (v : Vote) : Unlocks (precommitPath v).
Proof. unfold precommitPath; ul_tac. Qed.

#[export] Instance addVote_ul (v : Vote) (p : string) : Unlocks (addVote v p).
Proof. unfold addVote; cbv [switch fall_through map snd]; ul_tac. Qed.

#[export] Instance tryAddVote_ul (v : Vote) (p : string) : Unlocks (tryAddVote v p).
Proof. unfold tryAddVote; ul_tac. Qed.

#[export] Instance handleMsg_ul (p : string) (m : Message) : Unlocks (handleMsg p m).
Proof. unfold handleMsg; ul_tac. Qed.

#[export] Instance handleTimeout_ul (ti : TimeoutInfo) : Unlocks (handleTimeout ti).
Proof. unfold handleTimeout; cbv [switch fall_through map snd]; ul_tac. Qed.





